(** * Video-Text-Transcript: the chunked transcription pipeline of main.py

    A shallow embedding of [src/main.py] and of the part of Python's
    [difflib.SequenceMatcher] that [compare_texts] calls.

    Conventions of the embedding:
    - Python [str] is [string]; the characters are bytes, so [lower] folds
      the ASCII letters only.
    - Python [float] durations and ratios are exact rationals [Q]; [int] is
      [Z] or, for indices and lengths, [nat].
    - Side effects are explicit: a computation takes the file system and
      returns a result or a raised exception, the new file system and the
      list of events it emitted (prints, file writes and removals, the
      calls to the recognition service).
    - What the external libraries answer (whether a write succeeds, what
      the recognition service returns, what the directory holds) is read
      from an environment record [Env]; what they print themselves is
      left out.
    - [SequenceMatcher] follows [difflib.py] of CPython as
      [compare_texts] uses it: no junk predicate, [autojunk] on.
    - [download_youtube_video] and [get_audio_duration] are called from
      nowhere in main.py. The first is modelled on its own, over the
      directories it makes; the second, which reads the header of a WAV
      file, is left out. *)

From Stdlib Require Import String Ascii List ZArith QArith Qround Qminmax Lia.
From Stdlib Require Import DecimalString Permutation Sorted.
From stdpp Require Import base option list sorting gmap strings.

Local Open Scope string_scope.
Local Open Scope list_scope.

(** ** Python strings *)

Definition nl : string := String (ascii_of_nat 10) EmptyString.

(** [f"{n}"] for a non-negative integer. *)
Definition str_of_nat (n : nat) : string :=
  NilZero.string_of_uint (Nat.to_uint n).

Definition is_upper (c : ascii) : bool :=
  let n := nat_of_ascii c in (65 <=? n)%nat && (n <=? 90)%nat.

Definition lower_ascii (c : ascii) : ascii :=
  if is_upper c then ascii_of_nat (nat_of_ascii c + 32) else c.

(** [s.lower()] *)
Fixpoint lower (s : string) : string :=
  match s with
  | EmptyString => EmptyString
  | String c s' => String (lower_ascii c) (lower s')
  end.

(** [s.startswith(p)] *)
Definition startswith (s p : string) : bool := String.prefix p s.

Fixpoint string_rev_acc (s acc : string) : string :=
  match s with
  | EmptyString => acc
  | String c s' => string_rev_acc s' (String c acc)
  end.

Definition string_rev (s : string) : string := string_rev_acc s EmptyString.

(** [s.endswith(p)] *)
Definition endswith (s p : string) : bool :=
  String.prefix (string_rev p) (string_rev s).

Fixpoint string_drop (n : nat) (s : string) : string :=
  match n, s with
  | O, _ => s
  | S n', String _ s' => string_drop n' s'
  | S _, EmptyString => EmptyString
  end.

Fixpoint string_take (n : nat) (s : string) : string :=
  match n, s with
  | S n', String c s' => String c (string_take n' s')
  | _, _ => EmptyString
  end.

(** [s.replace(old, new)] for a non-empty [old]: the occurrences of [old]
    are found left to right and do not overlap. [skip] counts the
    characters of an occurrence that are still to be passed over. *)
Fixpoint replace_from (old new : string) (skip : nat) (s : string) : string :=
  match s with
  | EmptyString => EmptyString
  | String c s' =>
      match skip with
      | S k => replace_from old new k s'
      | O =>
          if String.prefix old s
          then new ++ replace_from old new (String.length old - 1) s'
          else String c (replace_from old new 0 s')
      end
  end.

Definition str_replace (s old new : string) : string :=
  replace_from old new 0 s.

(** [s.rfind(c)] for a one-character needle, as an option: [None] is
    Python's -1. *)
Fixpoint rfind_from (c : ascii) (i : nat) (s : string) (last : option nat)
  : option nat :=
  match s with
  | EmptyString => last
  | String d s' =>
      rfind_from c (S i) s' (if Ascii.eqb c d then Some i else last)
  end.

Definition rfind (s : string) (c : ascii) : option nat :=
  rfind_from c 0 s None.

Definition slash : ascii := "/"%char.
Definition dot : ascii := "."%char.

(** [posixpath.basename]: [i = p.rfind('/') + 1; return p[i:]]. *)
Definition os_path_basename (p : string) : string :=
  match rfind p slash with
  | Some i => string_drop (S i) p
  | None => p
  end.

(** The loop of [genericpath._splitext] that skips the leading dots of
    the file name: it answers whether a character other than [.] stands
    in [p[filenameIndex:dotIndex]]. *)
Fixpoint has_non_dot (s : string) (n : nat) : bool :=
  match n, s with
  | S n', String c s' => if Ascii.eqb c dot then has_non_dot s' n' else true
  | _, _ => false
  end.

(** [posixpath.splitext]. *)
Definition os_path_splitext (p : string) : string * string :=
  let filenameIndex := match rfind p slash with Some i => S i | None => O end in
  match rfind p dot with
  | Some dotIndex =>
      if (filenameIndex <=? dotIndex)%nat
         && has_non_dot (string_drop filenameIndex p) (dotIndex - filenameIndex)
      then (string_take dotIndex p, string_drop dotIndex p)
      else (p, EmptyString)
  | None => (p, EmptyString)
  end.

(** [posixpath.join(a, b)] with two components. *)
Definition os_path_join (a b : string) : string :=
  if startswith b "/" then b
  else if (String.eqb a EmptyString || endswith a "/")%bool then a ++ b
  else a ++ "/" ++ b.

(** Truth value of a [str]. *)
Definition str_truthy (s : string) : bool :=
  match s with EmptyString => false | String _ _ => true end.

(** Truth value of an [Optional[str]]. *)
Definition opt_truthy (o : option string) : bool :=
  match o with Some s => str_truthy s | None => false end.


(** ** The world: files, exceptions, events *)

(** What a path of the file system holds. A video carries the duration of
    its audio track, if it has one; an audio file its duration in
    seconds. *)
Inductive file : Type :=
| Video (audio : option Q)
| Audio (duration : Q)
| Text (content : string).

(** The exceptions the program tells apart: [sr.UnknownValueError],
    [sr.RequestError] and every other [Exception]. *)
Inductive exn : Type :=
| UnknownValueError
| RequestError (msg : string)
| Exception (msg : string).

(** [str(e)] *)
Definition str_exn (e : exn) : string :=
  match e with
  | UnknownValueError => EmptyString
  | RequestError msg => msg
  | Exception msg => msg
  end.

(** What one call of [write_audiofile] does: it writes the file, or it
    raises and leaves nothing or a truncated file behind. *)
Inductive write_result : Type :=
| Written
| WriteFailed (msg : string) (leftover : option Q).

Inductive event : Type :=
| Print (line : string)
| WriteAudio (path : string) (start stop : Q)
| WriteText (path : string) (content : string)
| Remove (path : string)
| Recognize (index : nat) (path : string) (answer : string + exn).

(** The answers of the external collaborators. *)
Record Env : Type := {
  (* message of the exception raised when a media file cannot be opened *)
  open_error : string -> string;
  (* [clip.write_audiofile(path)] *)
  audio_write : string -> write_result;
  (* the [with sr.AudioFile(...)] block of chunk [i]: the recognised text
     or the exception it raises *)
  recognize : nat -> string -> string + exn;
  (* [open(path, "w")] and [f.write]: [Some msg] when it raises *)
  text_write : string -> option string;
  (* [os.makedirs(path, exist_ok=True)]: [Some msg] when it raises *)
  makedirs : string -> option string;
  (* [os.listdir(path)] *)
  listdir : string -> string + list string
}.

Abbreviation FS := (gmap string file).

(** ** Computations *)

Inductive res (A : Type) : Type :=
| Ok (a : A)
| Raise (e : exn).
Arguments Ok {A} a.
Arguments Raise {A} e.

Definition M (A : Type) : Type := FS -> res A * FS * list event.

Definition ret {A} (a : A) : M A := fun fs => (Ok a, fs, []).

Definition raise {A} (e : exn) : M A := fun fs => (Raise e, fs, []).

Definition bind {A B} (m : M A) (k : A -> M B) : M B := fun fs =>
  match m fs with
  | (Ok a, fs1, ev1) =>
      match k a fs1 with
      | (r, fs2, ev2) => (r, fs2, ev1 ++ ev2)
      end
  | (Raise e, fs1, ev1) => (Raise e, fs1, ev1)
  end.

Declare Scope py_scope.
Delimit Scope py_scope with py.
Notation "x <- m ;; k" := (bind m (fun x => k))
  (at level 100, m at next level, right associativity) : py_scope.
Notation "m ;; k" := (bind m (fun _ => k))
  (at level 100, right associativity) : py_scope.
Local Open Scope py_scope.

(** [try: body except Exception as e: handler(e)] *)
Definition try_except {A} (body : M A) (handler : exn -> M A) : M A := fun fs =>
  match body fs with
  | (Ok a, fs1, ev1) => (Ok a, fs1, ev1)
  | (Raise e, fs1, ev1) =>
      match handler e fs1 with
      | (r, fs2, ev2) => (r, fs2, ev1 ++ ev2)
      end
  end.

(** [try: body finally: cleanup]: the cleanup runs on both ways out, and
    an exception of the body is raised again after it unless the cleanup
    raises itself. *)
Definition try_finally {A} (body : M A) (cleanup : M unit) : M A := fun fs =>
  match body fs with
  | (r, fs1, ev1) =>
      match cleanup fs1 with
      | (Ok _, fs2, ev2) => (r, fs2, ev1 ++ ev2)
      | (Raise e, fs2, ev2) => (Raise e, fs2, ev1 ++ ev2)
      end
  end.

(** [for x in xs: acc = body(i, x, acc)], with [i] counting from [start]
    as [enumerate] does. *)
Fixpoint for_each {A St} (xs : list A) (start : nat)
    (body : nat -> A -> St -> M St) (acc : St) : M St :=
  match xs with
  | [] => ret acc
  | x :: xs' =>
      acc' <- body start x acc ;;
      for_each xs' (S start) body acc'
  end.

Definition print (line : string) : M unit := fun fs =>
  (Ok tt, fs, [Print line]).

Definition os_path_exists (path : string) : M bool := fun fs =>
  (Ok (bool_decide (is_Some (fs !! path))), fs, []).

(** [os.remove(path)]: raises when there is no such file. *)
Definition os_remove (path : string) : M unit := fun fs =>
  match fs !! path with
  | Some _ => (Ok tt, delete path fs, [Remove path])
  | None => (Raise (Exception ("No such file or directory: " ++ path)), fs, [])
  end.

(** [math.ceil(x)] *)
Definition math_ceil (x : Q) : Z := Qceiling x.

(** [x / y] on numbers: [ZeroDivisionError] when [y] is zero. *)
Definition py_div (x : Q) (y : Z) : M Q :=
  if (y =? 0)%Z then raise (Exception "float division by zero")
  else ret (x / inject_Z y)%Q.

(** [range(n)] *)
Definition range (n : Z) : list nat := seq 0 (Z.to_nat n).

Section Program.

Variable env : Env.

(** [VideoFileClip(path)]: the audio track of the video, if any. *)
Definition VideoFileClip (path : string) : M (option Q) := fun fs =>
  match fs !! path with
  | Some (Video a) => (Ok a, fs, [])
  | _ => (Raise (Exception (open_error env path)), fs, [])
  end.

(** [AudioFileClip(path)]: the clip, known by its duration. *)
Definition AudioFileClip (path : string) : M Q := fun fs =>
  match fs !! path with
  | Some (Audio d) => (Ok d, fs, [])
  | _ => (Raise (Exception (open_error env path)), fs, [])
  end.

(** Writing [duration] seconds of audio, the range [start .. stop] of
    the clip at hand, to [path]. *)
Definition write_clip (path : string) (start stop duration : Q) : M unit := fun fs =>
  match audio_write env path with
  | Written =>
      (Ok tt, <[path := Audio duration]> fs, [WriteAudio path start stop])
  | WriteFailed msg (Some d) =>
      (Raise (Exception msg), <[path := Audio d]> fs, [])
  | WriteFailed msg None => (Raise (Exception msg), fs, [])
  end.

(** [audio.write_audiofile(path)] for a track of [duration] seconds. *)
Definition write_audiofile (path : string) (duration : Q) : M unit :=
  write_clip path 0 duration duration.

(** [audio.subclip(start, stop).write_audiofile(path)] *)
Definition write_subclip (path : string) (start stop : Q) : M unit :=
  write_clip path start stop (stop - start).

(** [with open(path, "w", encoding='utf-8') as f: f.write(content)] *)
Definition write_text (path content : string) : M unit := fun fs =>
  match text_write env path with
  | None => (Ok tt, <[path := Text content]> fs, [WriteText path content])
  | Some msg => (Raise (Exception msg), fs, [])
  end.

Definition os_makedirs (path : string) : M unit :=
  match makedirs env path with
  | None => ret tt
  | Some msg => raise (Exception msg)
  end.

Definition os_listdir (path : string) : M (list string) :=
  match listdir env path with
  | inr names => ret names
  | inl msg => raise (Exception msg)
  end.

(** The body of [with sr.AudioFile(chunk_path) as source: ...]: noise
    adjustment, recording and [recognize_google], as one call. *)
Definition recognize_chunk (i : nat) (chunk_path : string) : M string := fun fs =>
  let answer := recognize env i chunk_path in
  (match answer with inl text => Ok text | inr e => Raise e end,
   fs, [Recognize i chunk_path answer]).

(** ** main.py *)

Definition extract_audio (video_path audio_path : string) : M (option string) :=
  try_except
    (audio <- VideoFileClip video_path ;;
     match audio with
     | None => raise (Exception "No audio track found in video")
     | Some d =>
         write_audiofile audio_path d ;;
         ret (Some audio_path)
     end)
    (fun e =>
       print ("Error extracting audio: " ++ str_exn e) ;;
       ret None).

Definition chunk_path_of (audio_path : string) (i : nat) : string :=
  str_replace audio_path ".wav" ("_chunk_" ++ str_of_nat i ++ ".wav").

(** One turn of the loop of [split_audio], for the index [i]. *)
Definition materialize_chunk (audio_path : string) (chunk_duration : Z)
    (duration : Q) (i : nat) (chunks : list string) : M (list string) :=
  let start_time := inject_Z (Z.of_nat i * chunk_duration) in
  let end_time := Qmin (inject_Z ((Z.of_nat i + 1) * chunk_duration)) duration in
  let chunk_path := chunk_path_of audio_path i in
  write_subclip chunk_path start_time end_time ;;
  ret (chunks ++ [chunk_path]).

(** The [try] block of [split_audio]. *)
Definition split_audio_body (audio_path : string) (chunk_duration : Z)
  : M (list string) :=
  duration <- AudioFileClip audio_path ;;
  q <- py_div duration chunk_duration ;;
  let num_chunks := math_ceil q in
  for_each (range num_chunks) 0
    (fun _ => materialize_chunk audio_path chunk_duration duration)
    [].

Definition split_audio (audio_path : string) (chunk_duration : Z)
  : M (list string) :=
  try_except
    (split_audio_body audio_path chunk_duration)
    (fun e =>
       print ("Error splitting audio: " ++ str_exn e) ;;
       ret []).

(** One turn of the loop of [transcribe_audio_chunks]. *)
Definition transcribe_chunk (n : nat) (i : nat) (chunk_path : string)
    (full_text : list string) : M (list string) :=
  try_finally
    (try_except
       (print ("Processing chunk " ++ str_of_nat (i + 1) ++ "/"
               ++ str_of_nat n ++ "...") ;;
        text <- recognize_chunk i chunk_path ;;
        ret (full_text ++ [text]))
       (fun e =>
          match e with
          | UnknownValueError =>
              print ("Could not understand audio in chunk " ++ str_of_nat (i + 1)) ;;
              ret full_text
          | RequestError msg =>
              print ("Error processing chunk " ++ str_of_nat (i + 1) ++ ": " ++ msg) ;;
              ret full_text
          | Exception msg =>
              print ("Unexpected error in chunk " ++ str_of_nat (i + 1) ++ ": " ++ msg) ;;
              ret full_text
          end))
    (try_except (os_remove chunk_path) (fun _ => ret tt)).

Definition transcribe_audio_chunks (chunks : list string) : M string :=
  full_text <- for_each chunks 0 (transcribe_chunk (length chunks)) [] ;;
  ret (String.concat " " full_text).

(** The paths [process_video_file] derives from [video_path]. *)
Definition base_name_of (video_path : string) : string :=
  fst (os_path_splitext (os_path_basename video_path)).

Definition audio_path_of (video_path : string) : string :=
  os_path_join "output" (base_name_of video_path ++ "_audio.wav").

Definition transcript_path_of (video_path : string) : string :=
  os_path_join "output" (base_name_of video_path ++ "_transcript.txt").

Definition process_video_file (video_path : string) : M (option string) :=
  found <- os_path_exists video_path ;;
  if negb found then
    print ("Error: Video file not found: " ++ video_path) ;;
    ret None
  else
    let audio_path := audio_path_of video_path in
    let transcript_path := transcript_path_of video_path in
    try_finally
      (try_except
         (print (nl ++ "Processing: " ++ os_path_basename video_path) ;;
          print "Extracting audio..." ;;
          extracted <- extract_audio video_path audio_path ;;
          if negb (opt_truthy extracted) then
            print "Failed to extract audio" ;;
            ret None
          else
            print "Splitting audio into chunks..." ;;
            chunks <- split_audio audio_path 60 ;;
            match chunks with
            | [] =>
                print "Failed to split audio" ;;
                ret None
            | _ :: _ =>
                print ("Processing " ++ str_of_nat (length chunks)
                       ++ " audio chunks...") ;;
                transcribed_text <- transcribe_audio_chunks chunks ;;
                if negb (str_truthy transcribed_text) then
                  print "No text was transcribed" ;;
                  ret None
                else
                  saved <- try_except
                             (write_text transcript_path transcribed_text ;;
                              ret true)
                             (fun e =>
                                print ("Error saving transcript: " ++ str_exn e) ;;
                                ret false) ;;
                  if negb saved then ret None
                  else
                    print (nl ++ "=== Transcript ===") ;;
                    print transcribed_text ;;
                    print ("==================" ++ nl) ;;
                    ret (Some transcribed_text)
            end)
         (fun e =>
            print ("Error processing video: " ++ str_exn e) ;;
            ret None))
      (try_except
         (found <- os_path_exists audio_path ;;
          if found then os_remove audio_path else ret tt)
         (fun _ => ret tt)).

Definition is_mp4 (f : string) : bool := endswith (lower f) ".mp4".

(** The loop of [main] over the video files; it returns [successful]. *)
Definition process_batch (video_files : list string) : M nat :=
  for_each video_files 0
    (fun _ video_file successful =>
       let video_path := os_path_join "input" video_file in
       r <- process_video_file video_path ;;
       ret (if opt_truthy r then S successful else successful))
    O.

Definition main : M unit :=
  try_except
    (os_makedirs "input" ;;
     os_makedirs "output" ;;
     names <- os_listdir "input" ;;
     let video_files := List.filter is_mp4 names in
     match video_files with
     | [] => print "No MP4 files found in input folder"
     | _ :: _ =>
         print ("Found " ++ str_of_nat (length video_files)
                ++ " video(s) to process") ;;
         successful <- process_batch video_files ;;
         print (nl ++ "Processing complete: " ++ str_of_nat successful ++ "/"
                ++ str_of_nat (length video_files)
                ++ " videos processed successfully!")
     end)
    (fun e => print ("An unexpected error occurred: " ++ str_exn e)).

(** [if __name__ == "__main__": main()]: the interpreter exits with
    status 0 when [main] returns and with status 1 when an exception
    leaves it. *)
Definition run_script (fs : FS) : Z * FS * list event :=
  match main fs with
  | (Ok _, fs', evs) => (0%Z, fs', evs)
  | (Raise _, fs', evs) => (1%Z, fs', evs)
  end.

End Program.

(** ** difflib.SequenceMatcher

    The matcher over sequences of hashable elements, as [compare_texts]
    builds it: [isjunk] is [None] and [autojunk] is left at [True].
    Indices are natural numbers; a block is [(i, j, k)]. *)

Abbreviation block := (nat * nat * nat)%type.

Section SequenceMatcher.

Context {A : Type} `{Countable A}.

Record matcher : Type := {
  seq_a : list A;
  seq_b : list A;
  b2j : gmap A (list nat);
  bjunk : gset A
}.

(** The first loop of [__chain_b]:
    [indices = b2j.setdefault(elt, []); indices.append(i)]. *)
Fixpoint chain_b_index (b : list A) (i : nat) (m : gmap A (list nat))
  : gmap A (list nat) :=
  match b with
  | [] => m
  | elt :: b' =>
      chain_b_index b' (S i) (<[elt := default [] (m !! elt) ++ [i]]> m)
  end.

(** [__chain_b] without a junk predicate: the index of [b], from which
    the popular elements are purged when [b] has 200 elements or more. *)
Definition chain_b (b : list A) : gmap A (list nat) :=
  let m := chain_b_index b 0 ∅ in
  let n := length b in
  if (200 <=? n)%nat then
    let ntest := (n / 100 + 1)%nat in
    filter (fun kv => ¬ (ntest < length kv.2)%nat) m
  else m.

Definition SequenceMatcher (a b : list A) : matcher :=
  {| seq_a := a; seq_b := b; b2j := chain_b b; bjunk := ∅ |}.

Variable m : matcher.

Definition isbjunk (x : A) : bool := bool_decide (x ∈ bjunk m).

(** [j2len.get(j-1, 0)] *)
Definition j2len_get (j2len : gmap nat nat) (j : nat) : nat :=
  match j with
  | O => O
  | S j' => default O (j2len !! j')
  end.

(** The inner loop of [find_longest_match], over the positions [js] of
    [a[i]] in [b]. The state is the best block so far and [newj2len].
    [i-k+1] is written [S i - k]: [k] never exceeds [i+1]. *)
Fixpoint scan_row (i blo bhi : nat) (j2len : gmap nat nat) (js : list nat)
    (best : block) (newj2len : gmap nat nat) : block * gmap nat nat :=
  match js with
  | [] => (best, newj2len)
  | j :: js' =>
      if (j <? blo)%nat then scan_row i blo bhi j2len js' best newj2len
      else if (bhi <=? j)%nat then (best, newj2len)
      else
        let k := (j2len_get j2len j + 1)%nat in
        let newj2len' := <[j := k]> newj2len in
        let best' := if (best.2 <? k)%nat then (S i - k, S j - k, k)%nat else best in
        scan_row i blo bhi j2len js' best' newj2len'
  end.

(** [b2j.get(a[i], nothing)] *)
Definition positions (i : nat) : list nat :=
  match seq_a m !! i with
  | Some x => default [] (b2j m !! x)
  | None => []
  end.

(** The loop [for i in range(alo, ahi)] of [find_longest_match]. *)
Fixpoint scan_rows (blo bhi : nat) (rows : list nat) (best : block)
    (j2len : gmap nat nat) : block :=
  match rows with
  | [] => best
  | i :: rows' =>
      let '(best', newj2len) := scan_row i blo bhi j2len (positions i) best ∅ in
      scan_rows blo bhi rows' best' newj2len
  end.

(** [a[i] == b[j]] for indices inside the sequences. *)
Definition same_at (i j : nat) : bool :=
  match seq_a m !! i, seq_b m !! j with
  | Some x, Some y => bool_decide (x = y)
  | _, _ => false
  end.

(** [isbjunk(b[j])] compared with the flag [junk]. *)
Definition junk_at (junk : bool) (j : nat) : bool :=
  match seq_b m !! j with
  | Some y => Bool.eqb (isbjunk y) junk
  | None => false
  end.

(** [while besti > alo and bestj > blo and isbjunk(b[bestj-1]) == junk
    and a[besti-1] == b[bestj-1]: ...] *)
Fixpoint extend_left (junk : bool) (alo blo : nat) (besti bestj bestsize : nat)
  : block :=
  match besti, bestj with
  | S i', S j' =>
      if (alo <? besti)%nat && (blo <? bestj)%nat && junk_at junk j' && same_at i' j'
      then extend_left junk alo blo i' j' (S bestsize)
      else (besti, bestj, bestsize)
  | _, _ => (besti, bestj, bestsize)
  end.

(** [while besti+bestsize < ahi and bestj+bestsize < bhi and
    isbjunk(b[bestj+bestsize]) == junk and
    a[besti+bestsize] == b[bestj+bestsize]: bestsize += 1].
    [n] is the distance from [besti+bestsize] to [ahi]. *)
Fixpoint extend_right (junk : bool) (ahi bhi : nat) (besti bestj bestsize : nat)
    (n : nat) : nat :=
  match n with
  | O => bestsize
  | S n' =>
      if (besti + bestsize <? ahi)%nat && (bestj + bestsize <? bhi)%nat
         && junk_at junk (bestj + bestsize) && same_at (besti + bestsize) (bestj + bestsize)
      then extend_right junk ahi bhi besti bestj (S bestsize) n'
      else bestsize
  end.

Definition find_longest_match (alo ahi blo bhi : nat) : block :=
  let '(besti, bestj, bestsize) :=
    scan_rows blo bhi (seq alo (ahi - alo)) (alo, blo, O) ∅ in
  let '(besti, bestj, bestsize) :=
    extend_left false alo blo besti bestj bestsize in
  let bestsize :=
    extend_right false ahi bhi besti bestj bestsize (ahi - (besti + bestsize)) in
  let '(besti, bestj, bestsize) :=
    extend_left true alo blo besti bestj bestsize in
  let bestsize :=
    extend_right true ahi bhi besti bestj bestsize (ahi - (besti + bestsize)) in
  (besti, bestj, bestsize).

(** The [while queue:] loop of [get_matching_blocks]. The head of the
    list is the end of Python's [queue], where [pop] and [append] work.
    [None] means that the fuel ran out before the queue was empty. *)
Fixpoint match_queue (fuel : nat) (queue : list (nat * nat * nat * nat))
    (matching_blocks : list block) : option (list block) :=
  match queue with
  | [] => Some matching_blocks
  | (alo, ahi, blo, bhi) :: queue' =>
      match fuel with
      | O => None
      | S fuel' =>
          let '(i, j, k) := find_longest_match alo ahi blo bhi in
          if (k =? 0)%nat then match_queue fuel' queue' matching_blocks
          else
            let q1 :=
              if (alo <? i)%nat && (blo <? j)%nat
              then (alo, i, blo, j) :: queue' else queue' in
            let q2 :=
              if (i + k <? ahi)%nat && (j + k <? bhi)%nat
              then (i + k, ahi, j + k, bhi)%nat :: q1 else q1 in
            match_queue fuel' q2 (matching_blocks ++ [(i, j, k)])
      end
  end.

(** The order of tuples: [matching_blocks.sort()]. *)
Definition block_leb (x y : block) : bool :=
  let '(i1, j1, k1) := x in
  let '(i2, j2, k2) := y in
  (i1 <? i2)%nat
  || ((i1 =? i2)%nat && ((j1 <? j2)%nat || ((j1 =? j2)%nat && (k1 <=? k2)%nat))).

Fixpoint insert_block (x : block) (l : list block) : list block :=
  match l with
  | [] => [x]
  | y :: l' => if block_leb x y then x :: l else y :: insert_block x l'
  end.

Definition sort_blocks (l : list block) : list block :=
  fold_right insert_block [] l.

(** The loop that merges adjacent blocks; [(i1, j1, k1)] is the block
    under comparison. *)
Fixpoint collapse (blocks : list block) (i1 j1 k1 : nat)
    (non_adjacent : list block) : list block :=
  match blocks with
  | [] => if (k1 =? 0)%nat then non_adjacent else non_adjacent ++ [(i1, j1, k1)]
  | (i2, j2, k2) :: rest =>
      if (i1 + k1 =? i2)%nat && (j1 + k1 =? j2)%nat
      then collapse rest i1 j1 (k1 + k2) non_adjacent
      else collapse rest i2 j2 k2
             (if (k1 =? 0)%nat then non_adjacent
              else non_adjacent ++ [(i1, j1, k1)])
  end.

(** The blocks found by the queue loop, before sorting. Every turn of
    the loop that finds a block takes at least one element of [a] out of
    the ranges still to be searched, so [2 * len(a) + 1] turns suffice. *)
Definition raw_matching_blocks : option (list block) :=
  let la := length (seq_a m) in
  let lb := length (seq_b m) in
  match_queue (2 * la + 1) [(O, la, O, lb)] [].

Definition get_matching_blocks : option (list block) :=
  match raw_matching_blocks with
  | Some blocks =>
      Some (collapse (sort_blocks blocks) 0 0 0 []
            ++ [(length (seq_a m), length (seq_b m), O)])
  | None => None
  end.

(** [sum(triple[-1] for triple in blocks)] *)
Definition matches_of (blocks : list block) : nat :=
  fold_right (fun x acc => (x.2 + acc)%nat) O blocks.

Definition calculate_ratio (matches length : nat) : Q :=
  if (length =? 0)%nat then 1%Q
  else (2 * inject_Z (Z.of_nat matches) / inject_Z (Z.of_nat length))%Q.

Definition ratio : option Q :=
  match get_matching_blocks with
  | Some blocks =>
      Some (calculate_ratio (matches_of blocks)
              (length (seq_a m) + length (seq_b m)))
  | None => None
  end.

End SequenceMatcher.

(** ** What the matcher promises *)

Section Blocks.

Context {A : Type} `{Countable A}.

(** The positions of [x] in [b], counted from [start], in ascending
    order. *)
Fixpoint indices (x : A) (b : list A) (start : nat) : list nat :=
  match b with
  | [] => []
  | y :: b' =>
      if decide (y = x) then start :: indices x b' (S start)
      else indices x b' (S start)
  end.

(** The block lies inside [a[alo:ahi]] and [b[blo:bhi]]. *)
Definition block_in (alo ahi blo bhi : nat) (x : block) : Prop :=
  (alo <= x.1.1 /\ x.1.1 + x.2 <= ahi /\ blo <= x.1.2 /\ x.1.2 + x.2 <= bhi)%nat.

(** [a[i:i+k] == b[j:j+k]] *)
Definition block_matches (a b : list A) (x : block) : Prop :=
  forall t, (t < x.2)%nat ->
    exists c, a !! (x.1.1 + t)%nat = Some c /\ b !! (x.1.2 + t)%nat = Some c.

(** No matching block inside the ranges is longer than [x]. *)
Definition longest_in (a b : list A) (alo ahi blo bhi : nat) (x : block) : Prop :=
  forall y, block_in alo ahi blo bhi y -> block_matches a b y -> (y.2 <= x.2)%nat.

(** The first block ends, in [a] and in [b], where the second begins or
    before. *)
Definition block_before (x y : block) : Prop :=
  (x.1.1 + x.2 <= y.1.1 /\ x.1.2 + x.2 <= y.1.2)%nat.

(** Two blocks do not overlap and come in the same order in [a] and in
    [b]. *)
Definition blocks_apart (x y : block) : Prop :=
  block_before x y \/ block_before y x.

End Blocks.

(** ** Invariants of [find_longest_match] *)

Section MatcherInvariants.

Context {A : Type} `{Countable A}.
Variable m : matcher (A := A).

(** A block inside the ranges whose elements agree. *)
Definition good_block (alo ahi blo bhi : nat) (x : block) : Prop :=
  block_in alo ahi blo bhi x
  /\ forall t, (t < x.2)%nat -> same_at m (x.1.1 + t) (x.1.2 + t) = true.

(** [k] elements agree up to [a[i]] and [b[j]], inside the ranges. *)
Definition ends_match (alo blo i j k : nat) : Prop :=
  (1 <= k /\ alo + k <= S i /\ blo + k <= S j)%nat
  /\ forall t, (t < k)%nat -> same_at m (i - t) (j - t) = true.

(** The entries of [newj2len] while the row [i] is scanned. *)
Definition j2len_sound (alo blo bhi i : nat) (j2len : gmap nat nat) : Prop :=
  forall j k, j2len !! j = Some k -> (j < bhi)%nat /\ ends_match alo blo i j k.

(** The entries of [j2len] when the row [i] begins: they are those of
    the row before. *)
Definition j2len_before (alo blo bhi i : nat) (j2len : gmap nat nat) : Prop :=
  forall j k, j2len !! j = Some k ->
    (alo < i)%nat /\ (j < bhi)%nat /\ ends_match alo blo (i - 1) j k.

(** [a[i] == b[j]], for an element that [b2j] has an entry for. *)
Definition indexed_same (i j : nat) : bool :=
  match seq_a m !! i, seq_b m !! j with
  | Some x, Some y => bool_decide (x = y) && bool_decide (is_Some (b2j m !! y))
  | _, _ => false
  end.

(** The number of elements that agree up to [a[i]] and [b[j]], from
    [alo] and [blo] on, all of them with an entry in [b2j]. *)
Fixpoint run_len (alo blo i j : nat) {struct i} : nat :=
  if (alo <=? i)%nat && (blo <=? j)%nat && indexed_same i j
  then S (match i, j with
          | S i', S j' => run_len alo blo i' j'
          | _, _ => O
          end)
  else O.

(** The run that ends in the row before [i]. *)
Definition prev_run (alo blo i j : nat) : nat :=
  match i with
  | O => O
  | S i' => run_len alo blo i' j
  end.

(** [j2len] holds the runs of the row before [i]. *)
Definition j2len_exact (alo blo bhi i : nat) (j2len : gmap nat nat) : Prop :=
  forall j, (j < bhi)%nat -> default O (j2len !! j) = prev_run alo blo i j.

(** The two sequences are the same and are searched from their
    beginnings. *)
Definition same_sequences (alo blo : nat) : Prop :=
  seq_a m = seq_b m /\ alo = O /\ blo = O.

End MatcherInvariants.

(** ** Invariants of the queue loop *)

Abbreviation span := (nat * nat * nat * nat)%type.

(** The part of [a] and the part of [b] that a block takes. *)
Definition span_of (x : block) : span :=
  (x.1.1, x.1.1 + x.2, x.1.2, x.1.2 + x.2)%nat.

(** A range of the queue lies inside the two sequences. *)
Definition span_ok (la lb : nat) (q : span) : Prop :=
  (q.1.1.1 <= q.1.1.2 <= la /\ q.1.2 <= q.2 <= lb)%nat.

(** The first span ends, in [a] and in [b], where the second begins or
    before. *)
Definition span_before (r s : span) : Prop :=
  (r.1.1.2 <= s.1.1.1 /\ r.2 <= s.1.2)%nat.

Definition spans_apart (r s : span) : Prop :=
  span_before r s \/ span_before s r.

Definition span_inside (r s : span) : Prop :=
  (s.1.1.1 <= r.1.1.1 /\ r.1.1.2 <= s.1.1.2 /\ s.1.2 <= r.1.2 /\ r.2 <= s.2)%nat.

(** The order of [block_leb] as a relation. *)
Definition block_le (x y : block) : Prop := block_leb x y = true.

(** The elements of [a], and of [b], still to be searched. *)
Definition a_left (queue : list span) : nat :=
  fold_right (fun q acc => (q.1.1.2 - q.1.1.1 + acc)%nat) O queue.

Definition b_left (queue : list span) : nat :=
  fold_right (fun q acc => (q.2 - q.1.2 + acc)%nat) O queue.

(** A bound on the turns of the loop that a queue still needs. *)
Definition queue_weight (queue : list span) : nat :=
  fold_right (fun q acc => (2 * (q.1.1.2 - q.1.1.1) + 1 + acc)%nat) O queue.

(** The characters of a [str]. *)
Definition chars (s : string) : list ascii := list_ascii_of_string s.

(** [compare_texts] of main.py. [None] would mean that the matcher ran
    out of fuel; it never does. *)
Definition compare_texts (original transcribed : string) : option Q :=
  if negb (str_truthy original) || negb (str_truthy transcribed) then Some 0%Q
  else ratio (SequenceMatcher (chars (lower original)) (chars (lower transcribed))).

(** ** The vocabulary of the specification *)

(** The outcome of one chunk. *)
Inductive Outcome : Type :=
| TextOutcome (text : string)
| Unrecognized
| RequestFailed (reason : string)
| UnexpectedFailure (reason : string).

Definition outcome_of (answer : string + exn) : Outcome :=
  match answer with
  | inl text => TextOutcome text
  | inr UnknownValueError => Unrecognized
  | inr (RequestError msg) => RequestFailed msg
  | inr (Exception msg) => UnexpectedFailure msg
  end.

Definition text_of (o : Outcome) : option string :=
  match o with
  | TextOutcome text => Some text
  | _ => None
  end.

Definition is_text (o : Outcome) : bool :=
  match o with
  | TextOutcome _ => true
  | _ => false
  end.

(** The outcomes of the chunks, the first of which has index [start]. *)
Fixpoint chunk_results (env : Env) (start : nat) (chunks : list string)
  : list Outcome :=
  match chunks with
  | [] => []
  | p :: chunks' =>
      outcome_of (recognize env start p) :: chunk_results env (S start) chunks'
  end.

(** The text fragments of the chunks whose outcome is a text, in order. *)
Definition text_fragments (results : list Outcome) : list string :=
  omap text_of results.

(** The calls to the recognition service among the events. *)
Definition recognitions (evs : list event) : list (nat * string * Outcome) :=
  omap (fun e =>
          match e with
          | Recognize i p answer => Some (i, p, outcome_of answer)
          | _ => None
          end) evs.

Definition prints (evs : list event) : list string :=
  omap (fun e => match e with Print line => Some line | _ => None end) evs.

Definition text_writes (evs : list event) : list (string * string) :=
  omap (fun e => match e with WriteText p c => Some (p, c) | _ => None end) evs.

Definition audio_writes (evs : list event) : list (string * Q * Q) :=
  omap (fun e => match e with WriteAudio p s t => Some (p, s, t) | _ => None end) evs.

(** The result, the final file system and the events of a run. *)
Definition result_of {A} (r : res A * FS * list event) : res A := r.1.1.
Definition fs_of {A} (r : res A * FS * list event) : FS := r.1.2.
Definition events_of {A} (r : res A * FS * list event) : list event := r.2.

(** ** The loop of the aggregator, turn by turn *)

Section AggregatorTrace.

Variable env : Env.

(** What one chunk adds to [full_text]. *)
Definition fragment_of (i : nat) (p : string) : list string :=
  match recognize env i p with
  | inl text => [text]
  | inr _ => []
  end.

(** The message printed when the attempt on a chunk fails. *)
Definition failure_print (i : nat) (p : string) : list event :=
  match recognize env i p with
  | inl _ => []
  | inr UnknownValueError =>
      [Print ("Could not understand audio in chunk " ++ str_of_nat (i + 1))]
  | inr (RequestError msg) =>
      [Print ("Error processing chunk " ++ str_of_nat (i + 1) ++ ": " ++ msg)]
  | inr (Exception msg) =>
      [Print ("Unexpected error in chunk " ++ str_of_nat (i + 1) ++ ": " ++ msg)]
  end.

(** The removal of a chunk file that is there. *)
Definition removal (fs : FS) (p : string) : list event :=
  match fs !! p with
  | Some _ => [Remove p]
  | None => []
  end.

(** The events of one turn of the loop. *)
Definition chunk_events (n i : nat) (p : string) (fs : FS) : list event :=
  Print ("Processing chunk " ++ str_of_nat (i + 1) ++ "/" ++ str_of_nat n ++ "...")
  :: Recognize i p (recognize env i p)
  :: failure_print i p ++ removal fs p.

(** The events of the whole loop: the turns follow one another, each on
    the file system its predecessors left. *)
Fixpoint loop_events (n start : nat) (chunks : list string) (fs : FS)
  : list event :=
  match chunks with
  | [] => []
  | p :: chunks' =>
      chunk_events n start p fs ++ loop_events n (S start) chunks' (delete p fs)
  end.

Fixpoint loop_fragments (start : nat) (chunks : list string) : list string :=
  match chunks with
  | [] => []
  | p :: chunks' => fragment_of start p ++ loop_fragments (S start) chunks'
  end.

(** The file system once every chunk file is removed. *)
Definition remove_all (chunks : list string) (fs : FS) : FS :=
  fold_left (fun fs p => delete p fs) chunks fs.

(** The results paired with the index and the path of their chunk. *)
Fixpoint attempts (start : nat) (chunks : list string)
  : list (nat * string * Outcome) :=
  match chunks with
  | [] => []
  | p :: chunks' =>
      (start, p, outcome_of (recognize env start p)) :: attempts (S start) chunks'
  end.

End AggregatorTrace.

(** ** The chunks of the segmenter *)

(** The time range of chunk [i]: from [i*C] to [min((i+1)*C, D)]. *)
Definition chunk_span (chunk_duration : Z) (duration : Q) (i : nat) : Q * Q :=
  (inject_Z (Z.of_nat i * chunk_duration),
   Qmin (inject_Z ((Z.of_nat i + 1) * chunk_duration)) duration).

Definition chunk_event (audio_path : string) (chunk_duration : Z) (duration : Q)
    (i : nat) : event :=
  WriteAudio (chunk_path_of audio_path i)
    (chunk_span chunk_duration duration i).1
    (chunk_span chunk_duration duration i).2.

(** The file system once the chunks of the indices [idxs] are written. *)
Definition with_chunks (audio_path : string) (chunk_duration : Z) (duration : Q)
    (idxs : list nat) (fs : FS) : FS :=
  fold_left
    (fun fs i =>
       <[chunk_path_of audio_path i :=
           Audio ((chunk_span chunk_duration duration i).2
                  - (chunk_span chunk_duration duration i).1)]> fs)
    idxs fs.

Definition is_written (w : write_result) : bool :=
  match w with Written => true | WriteFailed _ _ => false end.

(** Every chunk of the indices [idxs] can be written. *)
Definition writes_ok (env : Env) (audio_path : string) (idxs : list nat) : bool :=
  forallb (fun i => is_written (audio_write env (chunk_path_of audio_path i))) idxs.

(** [ceil(D / C)] as a number of chunks. *)
Definition chunk_count (duration : Q) (chunk_duration : Z) : nat :=
  Z.to_nat (Qceiling (duration / inject_Z chunk_duration)).

(** ** The stages of a unit of work *)

(** The events of [process_video_file] up to the call of [split_audio],
    when the audio track of [d] seconds is extracted. *)
Definition extraction_events (v : string) (d : Q) : list event :=
  [Print (nl ++ "Processing: " ++ os_path_basename v);
   Print "Extracting audio...";
   WriteAudio (audio_path_of v) 0 d;
   Print "Splitting audio into chunks..."].

(** The events of the segmenter: audio written, lines printed. *)
Definition audio_or_print (e : event) : Prop :=
  match e with
  | WriteAudio _ _ _ | Print _ => True
  | _ => False
  end.

(** No path holds a text in [fs'] that it did not hold in [fs]. *)
Definition no_new_text (fs fs' : FS) : Prop :=
  forall q c, fs' !! q = Some (Text c) -> fs !! q = Some (Text c).

(** No path holds audio in [fs'] that it did not hold in [fs]. *)
Definition no_new_audio (fs fs' : FS) : Prop :=
  forall q d, fs' !! q = Some (Audio d) -> fs !! q = Some (Audio d).

(** The reasons a unit of work fails with, as the messages printed last. *)
Definition ExtractionFailed : string := "Failed to extract audio".
Definition SegmentationFailed : string := "Failed to split audio".
Definition NoTranscribableAudio : string := "No text was transcribed".

(** A run reports the failure [reason]: it returns [None] and the last
    line it printed is the reason. *)
Definition reports_failure (run : res (option string) * FS * list event)
    (reason : string) : Prop :=
  result_of run = Ok None /\ last (prints (events_of run)) = Some reason.

(** The segmenter fails: the [try] block of [split_audio] raises. *)
Definition segmenter_fails (env : Env) (audio_path : string) (fs : FS) : Prop :=
  exists e, result_of (split_audio_body env audio_path 60 fs) = Raise e.

(** The rule for [SegmentationFailed] as the specification words it, for
    a unit whose audio track of [d] seconds was extracted: the failure is
    reported exactly when the segmenter fails or returns no chunk for a
    source of non-zero duration. *)
Definition claimed_segmentation_rule (env : Env) (v : string) (d : Q) (fs : FS)
  : Prop :=
  let fs1 : FS := <[audio_path_of v := Audio d]> fs in
  reports_failure (process_video_file env v fs) SegmentationFailed
  <-> (segmenter_fails env (audio_path_of v) fs1
       \/ (result_of (split_audio env (audio_path_of v) 60 fs1) = Ok []
           /\ ~ (d == 0)%Q)).

(** The exit status of the script. *)
Definition exit_status (env : Env) (fs : FS) : Z := (run_script env fs).1.1.

(** The rule for the exit status as the specification words it: a
    catastrophic failure, such as an output directory that cannot be
    created, gives a non-zero status. *)
Definition claimed_exit_rule (env : Env) (fs : FS) : Prop :=
  makedirs env "output" <> None -> exit_status env fs <> 0%Z.

(** The units of a batch: [process_video_file] on each file in turn,
    each on the file system its predecessor left. A unit is recorded with
    its value, the file system it left and its events. *)
Fixpoint batch_units (env : Env) (video_files : list string) (fs : FS)
  : list (option string * FS * list event) :=
  match video_files with
  | [] => []
  | f :: rest =>
      match process_video_file env (os_path_join "input" f) fs with
      | (Ok r, fs1, evs) => (r, fs1, evs) :: batch_units env rest fs1
      | (Raise _, fs1, evs) => []
      end
  end.

(** The number of units that returned a transcript. *)
Definition succeeded (units : list (option string * FS * list event)) : nat :=
  length (List.filter (fun u => opt_truthy u.1.1) units).

Definition batch_events (units : list (option string * FS * list event))
  : list event :=
  concat (map snd units).

Definition batch_fs (units : list (option string * FS * list event)) (fs : FS)
  : FS :=
  match last units with
  | Some u => u.1.2
  | None => fs
  end.

(** The line [main] prints last when there are videos. *)
Definition summary_line (successful total : nat) : string :=
  nl ++ "Processing complete: " ++ str_of_nat successful ++ "/"
  ++ str_of_nat total ++ " videos processed successfully!".

(** ** Sample worlds *)

(** Every write succeeds and every chunk is recognised. *)
Definition env_ok : Env := {|
  open_error := fun p => ("could not open " ++ p)%string;
  audio_write := fun _ => Written;
  recognize := fun i _ => inl ("part" ++ str_of_nat i)%string;
  text_write := fun _ => None;
  makedirs := fun _ => None;
  listdir := fun _ => inr ["talk.mp4"; "notes.txt"; "Demo.MP4"]
|}.

(** The recognition service understands no chunk. *)
Definition env_silent : Env := {|
  open_error := open_error env_ok;
  audio_write := audio_write env_ok;
  recognize := fun _ _ => inr UnknownValueError;
  text_write := text_write env_ok;
  makedirs := makedirs env_ok;
  listdir := listdir env_ok
|}.

(** The third chunk of the talk cannot be written. *)
Definition env_disk_full : Env := {|
  open_error := open_error env_ok;
  audio_write := fun p =>
    if String.eqb p "output/talk_audio_chunk_2.wav"
    then WriteFailed "No space left on device" None
    else Written;
  recognize := recognize env_ok;
  text_write := text_write env_ok;
  makedirs := makedirs env_ok;
  listdir := listdir env_ok
|}.

(** The output directory cannot be created. *)
Definition env_no_output_dir : Env := {|
  open_error := open_error env_ok;
  audio_write := audio_write env_ok;
  recognize := recognize env_ok;
  text_write := text_write env_ok;
  makedirs := fun p =>
    if String.eqb p "output" then Some "Permission denied: 'output'" else None;
  listdir := listdir env_ok
|}.

(** The request for the second chunk fails. *)
Definition env_second_fails : Env := {|
  open_error := open_error env_ok;
  audio_write := audio_write env_ok;
  recognize := fun i _ =>
    if (i =? 1)%nat then inr (RequestError "rate limit")
    else inl ("part" ++ str_of_nat i)%string;
  text_write := text_write env_ok;
  makedirs := makedirs env_ok;
  listdir := listdir env_ok
|}.

(** A file system that holds one video with an audio track of [d]
    seconds. *)
Definition one_video (path : string) (d : Q) : FS := {[ path := Video (Some d) ]}.

(** ** The score as the specification words it *)

(** The two case-folded strings as the matcher sees them. *)
Definition folded_matcher (original transcribed : string) :=
  SequenceMatcher (chars (lower original)) (chars (lower transcribed)).

(** Longest first: the block that the matcher finds in the whole of the
    two case-folded strings is a longest block of characters that they
    share. *)
Definition claimed_longest_first (original transcribed : string) : Prop :=
  let a := chars (lower original) in
  let b := chars (lower transcribed) in
  longest_in a b 0 (length a) 0 (length b)
    (find_longest_match (folded_matcher original transcribed)
       0 (length a) 0 (length b)).

(** [s * n] *)
Fixpoint string_repeat (s : string) (n : nat) : string :=
  match n with
  | O => EmptyString
  | S n' => s ++ string_repeat s n'
  end.

(** Two strings of 203 characters that share the 200 characters
    [abcd...abcd]; each of [a], [b], [c] and [d] stands 50 times in the
    second string, more than the 1% + 1 that the matcher indexes. *)
Definition popular_reference : string := string_repeat "abcd" 50 ++ "xyz".
Definition popular_transcript : string := "xyz" ++ string_repeat "abcd" 50.

(** * More of main.py: definitions *)

From Stdlib Require DecimalNat DecimalFacts.

(** ** Strings *)

(** The character [c] stands in [s]. *)
Fixpoint mentions (c : ascii) (s : string) : bool :=
  match s with
  | EmptyString => false
  | String d s' => Ascii.eqb c d || mentions c s'
  end.

(** [old in s], for a non-empty [old]. *)
Fixpoint contains (s old : string) : bool :=
  match s with
  | EmptyString => false
  | String _ s' => String.prefix old s || contains s' old
  end.

Definition is_digit (c : ascii) : bool :=
  let n := nat_of_ascii c in (48 <=? n)%nat && (n <=? 57)%nat.

Fixpoint all_digits (s : string) : bool :=
  match s with
  | EmptyString => true
  | String c s' => is_digit c && all_digits s'
  end.

(** The digits [s] begins with. *)
Fixpoint leading_digits (s : string) : string :=
  match s with
  | EmptyString => EmptyString
  | String c s' => if is_digit c then String c (leading_digits s') else EmptyString
  end.

(** The file name is made of dots only. *)
Definition only_dots (s : string) : bool := negb (has_non_dot s (String.length s)).

(** ** Paths a unit of work may touch *)

Definition under_output (q : string) : bool := startswith q "output/".

(** The file systems agree on every path outside [output/]. *)
Definition same_outside_output (fs fs' : FS) : Prop :=
  forall q, under_output q = false -> fs' !! q = fs !! q.

(** ** The chunks of a source, end to end *)

(** The time ranges follow one another without a gap from [from] to
    [to]. *)
Fixpoint tiles (spans : list (Q * Q)) (from to : Q) : Prop :=
  match spans with
  | [] => (from == to)%Q
  | s :: rest => (s.1 == from)%Q /\ tiles rest s.2 to
  end.

(** ** download_youtube_video

    The function is called from nowhere in main.py; it is modelled on
    its own. Its world is the set of directories that exist; what pytube
    and the file system answer is read from a record. Every exception it
    meets is an [Exception] with its message. *)

(** The stream that pytube selects. *)
Record Stream : Type := {
  (* [stream.filesize] *)
  filesize : Z;
  (* [bytes_remaining] at each call of the progress callback during
     [stream.download] *)
  ticks : list Z;
  (* what [stream.download(output_path=dir)] ends with: the path of the
     file, or the message of the exception it raises *)
  fetched : string -> string + string
}.

Record Tube : Type := {
  (* [YouTube(url, on_progress_callback=...)]: [Some msg] when it raises *)
  youtube : string -> option string;
  (* [yt.streams.filter(progressive=True, file_extension='mp4')
       .order_by('resolution').desc().first()] *)
  best_stream : string -> string + option Stream;
  (* [yt.title] *)
  title : string -> string + string;
  (* [tempfile.mkdtemp()] *)
  mkdtemp : string + string;
  (* [shutil.rmtree(dir)]: [Some msg] when it raises *)
  rmtree : string -> option string
}.

(** A run: the result, the directories that exist afterwards, the lines
    printed. *)
Definition download : Type :=
  res (option string * option string) * gset string * list string.

Section Download.

(** [f"{x:.1f}"] *)
Variable format_1f : Q -> string.

Variable tube : Tube.

(** The progress callback:
    [print(f"Downloading... {(1 - bytes_remaining / stream.filesize) * 100:.1f}%")]. *)
Definition on_progress (s : Stream) (bytes_remaining : Z) : string + exn :=
  if (filesize s =? 0)%Z then inr (Exception "division by zero")
  else inl ("Downloading... "
            ++ format_1f ((1 - inject_Z bytes_remaining / inject_Z (filesize s)) * 100)%Q
            ++ "%")%string.

(** The calls of the callback during a download: the lines printed, and
    the exception if a call raises. *)
Fixpoint report_progress (s : Stream) (remaining : list Z)
  : list string * option exn :=
  match remaining with
  | [] => ([], None)
  | r :: rest =>
      match on_progress s r with
      | inr e => ([], Some e)
      | inl line =>
          let '(lines, e) := report_progress s rest in (line :: lines, e)
      end
  end.

(** [stream.download(output_path=dir)] *)
Definition stream_download (s : Stream) (dir : string)
  : list string * (string + exn) :=
  match report_progress s (ticks s) with
  | (lines, Some e) => (lines, inr e)
  | (lines, None) =>
      (lines,
       match fetched s dir with
       | inl msg => inr (Exception msg)
       | inr path => inl path
       end)
  end.

(** The [except Exception as e] block, entered with [temp_dir] as it
    stands. *)
Definition download_failed (e : exn) (temp_dir : option string)
    (dirs : gset string) (printed : list string) : download :=
  let printed := printed ++ [("Error downloading YouTube video: " ++ str_exn e)%string] in
  if opt_truthy temp_dir then
    match temp_dir with
    | Some d =>
        if bool_decide (d ∈ dirs) then
          match rmtree tube d with
          | None => (Ok (None, None), dirs ∖ {[d]}, printed)
          | Some msg => (Raise (Exception msg), dirs, printed)
          end
        else (Ok (None, None), dirs, printed)
    | None => (Ok (None, None), dirs, printed)
    end
  else (Ok (None, None), dirs, printed).

Definition download_youtube_video (url : string) (dirs : gset string) : download :=
  match youtube tube url with
  | Some msg => download_failed (Exception msg) None dirs []
  | None =>
      match best_stream tube url with
      | inl msg => download_failed (Exception msg) None dirs []
      | inr None =>
          download_failed (Exception "No suitable video stream found") None dirs []
      | inr (Some stream) =>
          match mkdtemp tube with
          | inl msg => download_failed (Exception msg) None dirs []
          | inr temp_dir =>
              let dirs1 := {[temp_dir]} ∪ dirs in
              match title tube url with
              | inl msg => download_failed (Exception msg) (Some temp_dir) dirs1 []
              | inr name =>
                  let printed := [("Downloading: " ++ name ++ "...")%string] in
                  match stream_download stream temp_dir with
                  | (lines, inr e) =>
                      download_failed e (Some temp_dir) dirs1 (printed ++ lines)
                  | (lines, inl video_path) =>
                      (Ok (Some video_path, Some temp_dir), dirs1, printed ++ lines)
                  end
              end
          end
      end
  end.

End Download.

(** A world for the download: the video is found, the download breaks
    off after two calls of the progress callback. *)
Definition broken_stream : Stream := {|
  filesize := 1000;
  ticks := [750; 500]%Z;
  fetched := fun _ => inl "connection reset"
|}.

Definition tube_broken : Tube := {|
  youtube := fun _ => None;
  best_stream := fun _ => inr (Some broken_stream);
  title := fun _ => inr "A talk";
  mkdtemp := inr "/tmp/tmpab12";
  rmtree := fun _ => None
|}.

(** The transcript file cannot be written. *)
Definition env_read_only : Env := {|
  open_error := open_error env_ok;
  audio_write := audio_write env_ok;
  recognize := recognize env_ok;
  text_write := fun _ => Some "Read-only file system"%string;
  makedirs := makedirs env_ok;
  listdir := listdir env_ok
|}.
Example str_of_nat_12 : str_of_nat 12 = "12".
Proof. reflexivity. Qed.

Example chunk_name_example :
  str_replace "output/talk_audio.wav" ".wav" ("_chunk_" ++ str_of_nat 3 ++ ".wav")
  = "output/talk_audio_chunk_3.wav".
Proof. reflexivity. Qed.

Example splitext_example :
  os_path_splitext (os_path_basename "input/talk.v2.mp4") = ("talk.v2", ".mp4").
Proof. reflexivity. Qed.

Example splitext_hidden : os_path_splitext ".bashrc" = (".bashrc", EmptyString).
Proof. reflexivity. Qed.

Example endswith_example : endswith (lower "Clip.MP4") ".mp4" = true.
Proof. reflexivity. Qed.

(** * Running computations *)

(** Equal lists of events, up to the bracketing of [++]. *)
Ltac list_assoc :=
  simpl;
  repeat first [rewrite <- app_assoc | rewrite <- app_comm_cons];
  reflexivity.

Lemma bind_run {A B} (m : M A) (k : A -> M B) fs a fs1 ev1 :
  m fs = (Ok a, fs1, ev1) ->
  bind m k fs = (let '(r, fs2, ev2) := k a fs1 in (r, fs2, ev1 ++ ev2)).
Proof. intros Hm. unfold bind. by rewrite Hm. Qed.

Lemma bind_raise {A B} (m : M A) (k : A -> M B) fs e fs1 ev1 :
  m fs = (Raise e, fs1, ev1) ->
  bind m k fs = (Raise e, fs1, ev1).
Proof. intros Hm. unfold bind. by rewrite Hm. Qed.

Lemma try_except_ok {A} (body : M A) handler fs a fs1 ev1 :
  body fs = (Ok a, fs1, ev1) ->
  try_except body handler fs = (Ok a, fs1, ev1).
Proof. intros Hb. unfold try_except. by rewrite Hb. Qed.

Lemma try_except_raise {A} (body : M A) handler fs e fs1 ev1 :
  body fs = (Raise e, fs1, ev1) ->
  try_except body handler fs
  = (let '(r, fs2, ev2) := handler e fs1 in (r, fs2, ev1 ++ ev2)).
Proof. intros Hb. unfold try_except. by rewrite Hb. Qed.

Lemma try_finally_run {A} (body : M A) cleanup fs r fs1 ev1 fs2 ev2 :
  body fs = (r, fs1, ev1) ->
  cleanup fs1 = (Ok tt, fs2, ev2) ->
  try_finally body cleanup fs = (r, fs2, ev1 ++ ev2).
Proof. intros Hb Hc. unfold try_finally. by rewrite Hb, Hc. Qed.

(** * The aggregator: transcribe_audio_chunks *)

Ltac unfold_monad :=
  unfold bind, ret, raise, try_except, try_finally, print, os_remove,
    os_path_exists, recognize_chunk, result_of, fs_of, events_of in *.

Section Aggregator.

Variable env : Env.


Lemma transcribe_chunk_run n i p full_text fs :
  transcribe_chunk env n i p full_text fs
  = (Ok (full_text ++ fragment_of env i p), delete p fs, chunk_events env n i p fs).
Proof.
  unfold transcribe_chunk, chunk_events, fragment_of, failure_print, removal.
  unfold_monad.
  destruct (recognize env i p) as [text | [ | msg | msg]]; simpl;
    destruct (fs !! p) as [f|] eqn:Hp; simpl;
    rewrite ?app_nil_r; try reflexivity;
    rewrite (delete_id fs p Hp); reflexivity.
Qed.


Lemma transcribe_loop_run n chunks : forall start full_text fs,
  for_each chunks start (transcribe_chunk env n) full_text fs
  = (Ok (full_text ++ loop_fragments env start chunks),
     remove_all chunks fs,
     loop_events env n start chunks fs).
Proof.
  induction chunks as [|p chunks IH]; intros start full_text fs; simpl.
  - unfold ret. by rewrite app_nil_r.
  - unfold bind at 1. rewrite transcribe_chunk_run, IH.
    by rewrite <- app_assoc.
Qed.

Lemma transcribe_audio_chunks_run chunks fs :
  transcribe_audio_chunks env chunks fs
  = (Ok (String.concat " " (loop_fragments env 0 chunks)),
     remove_all chunks fs,
     loop_events env (length chunks) 0 chunks fs).
Proof.
  unfold transcribe_audio_chunks, bind at 1.
  rewrite transcribe_loop_run. unfold ret. simpl. by rewrite app_nil_r.
Qed.

Lemma loop_fragments_results chunks : forall start,
  loop_fragments env start chunks = text_fragments (chunk_results env start chunks).
Proof.
  induction chunks as [|p chunks IH]; intros start; simpl; [done|].
  rewrite IH. unfold text_fragments, fragment_of. simpl.
  by destruct (recognize env start p) as [text | [ | msg | msg]].
Qed.

Lemma recognitions_app evs1 evs2 :
  recognitions (evs1 ++ evs2) = recognitions evs1 ++ recognitions evs2.
Proof. apply omap_app. Qed.

Lemma recognitions_chunk_events n i p fs :
  recognitions (chunk_events env n i p fs) = [(i, p, outcome_of (recognize env i p))].
Proof.
  unfold chunk_events, failure_print, removal, recognitions. simpl.
  rewrite omap_app.
  destruct (recognize env i p) as [text | [ | msg | msg]];
    destruct (fs !! p); reflexivity.
Qed.


Lemma recognitions_loop_events n chunks : forall start fs,
  recognitions (loop_events env n start chunks fs) = attempts env start chunks.
Proof.
  induction chunks as [|p chunks IH]; intros start fs; [done|].
  cbn [loop_events attempts].
  by rewrite recognitions_app, recognitions_chunk_events, IH.
Qed.

Lemma attempts_length chunks : forall start,
  length (attempts env start chunks) = length chunks.
Proof. induction chunks; intros; simpl; auto. Qed.

Lemma attempts_results chunks : forall start,
  map snd (attempts env start chunks) = chunk_results env start chunks.
Proof. induction chunks; intros; simpl; [done|]. by f_equal. Qed.

Lemma attempts_paths chunks : forall start,
  map (fun r => r.1.2) (attempts env start chunks) = chunks.
Proof. induction chunks; intros; simpl; [done|]. by f_equal. Qed.

Lemma attempts_indices chunks : forall start,
  map (fun r => r.1.1) (attempts env start chunks) = seq start (length chunks).
Proof. induction chunks; intros; simpl; [done|]. by f_equal. Qed.

Lemma attempts_lookup chunks : forall i p start,
  chunks !! i = Some p ->
  attempts env start chunks !! i
  = Some ((start + i)%nat, p, outcome_of (recognize env (start + i) p)).
Proof.
  induction chunks as [|q chunks IH]; intros i p start Hi; [done|].
  destruct i as [|i]; simpl in *.
  - inversion Hi; subst. by rewrite Nat.add_0_r.
  - rewrite <- Nat.add_succ_comm. by apply IH.
Qed.

End Aggregator.

(** C1. The transcript that [transcribe_audio_chunks] returns is the
    space-joined concatenation of exactly the text fragments of the
    chunks whose outcome is a text, in the order of the chunks. Whatever
    the outcomes are (unrecognised, request failed, unexpected failure),
    the call returns normally, no placeholder stands for a chunk without
    text, and every chunk is attempted. *)
Theorem transcript_is_joined_text_fragments :
  forall (env : Env) (chunks : list string) (fs : FS),
    let run := transcribe_audio_chunks env chunks fs in
    result_of run
    = Ok (String.concat " " (text_fragments (chunk_results env 0 chunks)))
    /\ map snd (recognitions (events_of run)) = chunk_results env 0 chunks.
Proof.
  intros env chunks fs run. subst run.
  rewrite transcribe_audio_chunks_run. unfold result_of, events_of. simpl.
  split.
  - by rewrite loop_fragments_results.
  - by rewrite recognitions_loop_events, attempts_results.
Qed.

(** C6. One result per chunk: the calls to the recognition service made
    by [transcribe_audio_chunks] are, in order, one call for each chunk
    of the list, with the index and the path of that chunk; so there are
    as many results as chunks, whether or not a chunk gave a text. *)
Theorem one_result_per_chunk :
  forall (env : Env) (chunks : list string) (fs : FS),
    let results := recognitions (events_of (transcribe_audio_chunks env chunks fs)) in
    results = attempts env 0 chunks
    /\ length results = length chunks
    /\ map (fun r => r.1.2) results = chunks
    /\ map (fun r => r.1.1) results = seq 0 (length chunks).
Proof.
  intros env chunks fs results. subst results.
  rewrite transcribe_audio_chunks_run. unfold events_of. simpl.
  rewrite recognitions_loop_events.
  split; [done|]. split; [apply attempts_length|].
  split; [apply (attempts_paths env)|apply (attempts_indices env)].
Qed.

(** * The segmenter: split_audio *)

Section Segmenter.

Variable env : Env.
Variable audio_path : string.
Variable chunk_duration : Z.
Variable duration : Q.

Let step := fun _ : nat => materialize_chunk env audio_path chunk_duration duration.

Lemma materialize_chunk_written i chunks fs :
  audio_write env (chunk_path_of audio_path i) = Written ->
  materialize_chunk env audio_path chunk_duration duration i chunks fs
  = (Ok (chunks ++ [chunk_path_of audio_path i]),
     with_chunks audio_path chunk_duration duration [i] fs,
     [chunk_event audio_path chunk_duration duration i]).
Proof.
  intros Hw. unfold materialize_chunk, write_subclip, write_clip, bind, ret.
  rewrite Hw. reflexivity.
Qed.

Lemma materialize_chunk_failed i chunks fs msg leftover :
  audio_write env (chunk_path_of audio_path i) = WriteFailed msg leftover ->
  result_of (materialize_chunk env audio_path chunk_duration duration i chunks fs)
  = Raise (Exception msg)
  /\ events_of (materialize_chunk env audio_path chunk_duration duration i chunks fs)
     = [].
Proof.
  intros Hw. unfold materialize_chunk, write_subclip, write_clip, bind, ret, result_of, events_of.
  rewrite Hw. by destruct leftover.
Qed.

(** When every write succeeds the loop returns all the chunk paths. *)
Lemma split_loop_written idxs : forall start chunks fs,
  writes_ok env audio_path idxs = true ->
  for_each idxs start step chunks fs
  = (Ok (chunks ++ map (chunk_path_of audio_path) idxs),
     with_chunks audio_path chunk_duration duration idxs fs,
     map (chunk_event audio_path chunk_duration duration) idxs).
Proof.
  induction idxs as [|i idxs IH]; intros start chunks fs Hok; simpl.
  - unfold ret. by rewrite app_nil_r.
  - simpl in Hok. apply andb_prop in Hok as [Hi Hrest].
    unfold bind at 1. unfold step at 1.
    rewrite materialize_chunk_written
      by (destruct (audio_write env (chunk_path_of audio_path i)); [done|discriminate]).
    rewrite IH by assumption. simpl. by rewrite <- app_assoc.
Qed.

(** When a write fails the loop raises, and only the chunks before the
    failing one were written. *)
Lemma split_loop_failed idxs : forall start chunks fs,
  writes_ok env audio_path idxs = false ->
  exists msg,
    result_of (for_each idxs start step chunks fs) = Raise (Exception msg).
Proof.
  induction idxs as [|i idxs IH]; intros start chunks fs Hok; simpl in *; [done|].
  unfold bind at 1. unfold step at 1.
  destruct (audio_write env (chunk_path_of audio_path i)) as [|msg leftover] eqn:Hw.
  - rewrite materialize_chunk_written by assumption.
    simpl in Hok.
    destruct (IH (S start) (chunks ++ [chunk_path_of audio_path i])
                 (with_chunks audio_path chunk_duration duration [i] fs) Hok)
      as [msg Hmsg].
    exists msg. unfold result_of in *.
    destruct (for_each idxs (S start) step _ _) as [[r fs'] evs]. by simpl in *.
  - exists msg. unfold materialize_chunk, write_subclip, write_clip, bind, ret, result_of.
    rewrite Hw. by destruct leftover.
Qed.

Lemma split_audio_body_loop fs :
  fs !! audio_path = Some (Audio duration) ->
  chunk_duration <> 0%Z ->
  split_audio_body env audio_path chunk_duration fs
  = for_each (range (math_ceil (duration / inject_Z chunk_duration))) 0 step [] fs.
Proof.
  intros Hfs HC. unfold split_audio_body, bind, AudioFileClip, py_div.
  rewrite Hfs. apply Z.eqb_neq in HC. rewrite HC. unfold ret. fold step.
  by destruct (for_each _ 0 step [] fs) as [[r fs'] evs].
Qed.

End Segmenter.

Lemma split_audio_body_no_audio env audio_path chunk_duration fs :
  (forall d, fs !! audio_path <> Some (Audio d)) ->
  split_audio_body env audio_path chunk_duration fs
  = (Raise (Exception (open_error env audio_path)), fs, []).
Proof.
  intros Hfs. unfold split_audio_body, bind, AudioFileClip.
  destruct (fs !! audio_path) as [[a|d|c]|] eqn:E; try reflexivity.
  by destruct (Hfs d).
Qed.

Lemma split_audio_body_zero_division env audio_path d fs :
  fs !! audio_path = Some (Audio d) ->
  split_audio_body env audio_path 0 fs
  = (Raise (Exception "float division by zero"), fs, []).
Proof.
  intros Hfs. unfold split_audio_body, bind, AudioFileClip. by rewrite Hfs.
Qed.

Lemma split_audio_of_body env audio_path chunk_duration fs :
  split_audio env audio_path chunk_duration fs
  = match split_audio_body env audio_path chunk_duration fs with
    | (Ok chunks, fs', evs) => (Ok chunks, fs', evs)
    | (Raise e, fs', evs) =>
        (Ok [], fs', evs ++ [Print ("Error splitting audio: " ++ str_exn e)])
    end.
Proof.
  unfold split_audio, try_except.
  destruct (split_audio_body env audio_path chunk_duration fs) as [[[chunks|e] fs'] evs];
    reflexivity.
Qed.

(** ** Rounding up *)

Lemma chunk_count_ceiling (D : Q) (C : Z) :
  (0 <= D)%Q -> (0 < C)%Z ->
  Z.of_nat (chunk_count D C) = Qceiling (D / inject_Z C).
Proof.
  intros HD HC. unfold chunk_count. apply Z2Nat.id.
  change 0%Z with (Qceiling 0). apply Qceiling_resp_le.
  apply Qle_shift_div_l.
  - change 0%Q with (inject_Z 0). by rewrite <- Zlt_Qlt.
  - by rewrite Qmult_0_l.
Qed.

Lemma chunk_count_zero (D : Q) (C : Z) : (D == 0)%Q -> chunk_count D C = O.
Proof.
  intros HD. unfold chunk_count.
  assert (Hq : (D / inject_Z C == 0)%Q) by (rewrite HD; apply Qmult_0_l).
  by rewrite (Qceiling_comp _ _ Hq).
Qed.

(** A chunk below the count starts before the end of the source. *)
Lemma chunk_starts_inside (D : Q) (C : Z) (i : nat) :
  (0 < C)%Z -> (i < chunk_count D C)%nat ->
  (inject_Z (Z.of_nat i * C) < D)%Q.
Proof.
  intros HC Hi. unfold chunk_count in Hi.
  assert (HCq : (0 < inject_Z C)%Q)
    by (change 0%Q with (inject_Z 0); by rewrite <- Zlt_Qlt).
  assert (Hlt : (Z.of_nat i <= Qceiling (D / inject_Z C) - 1)%Z) by lia.
  assert (Hq : (inject_Z (Z.of_nat i) < D / inject_Z C)%Q).
  { eapply Qle_lt_trans; [|apply Qceiling_lt]. by rewrite <- Zle_Qle. }
  rewrite inject_Z_mult.
  apply (Qmult_lt_r _ _ (inject_Z C)) in Hq; [|assumption].
  eapply Qlt_le_trans; [exact Hq|].
  rewrite Qmult_comm, Qmult_div_r; [apply Qle_refl|].
  intros E. rewrite E in HCq. by apply Qlt_irrefl in HCq.
Qed.

Lemma chunk_span_inside (D : Q) (C : Z) (i : nat) :
  (0 < C)%Z -> (i < chunk_count D C)%nat ->
  ((chunk_span C D i).1 < (chunk_span C D i).2)%Q
  /\ ((chunk_span C D i).2 <= D)%Q.
Proof.
  intros HC Hi. unfold chunk_span. simpl. split.
  - apply Q.min_glb_lt.
    + rewrite <- Zlt_Qlt. nia.
    + by apply chunk_starts_inside.
  - apply Q.le_min_r.
Qed.



(** The two ways out of [split_audio]. *)
Lemma split_audio_cases :
  forall (env : Env) (audio_path : string) (C : Z) (fs : FS),
    match result_of (split_audio_body env audio_path C fs) with
    | Ok chunks =>
        result_of (split_audio env audio_path C fs) = Ok chunks
        /\ exists D,
             fs !! audio_path = Some (Audio D)
             /\ chunks = map (chunk_path_of audio_path) (seq 0 (chunk_count D C))
             /\ writes_ok env audio_path (seq 0 (chunk_count D C)) = true
    | Raise e =>
        result_of (split_audio env audio_path C fs) = Ok []
    end.
Proof.
  intros env audio_path C fs.
  rewrite split_audio_of_body.
  destruct (fs !! audio_path) as [f|] eqn:E; [destruct f as [a|D|c]|].
  2:{ destruct (decide (C = 0%Z)) as [->|HC].
      - by rewrite (split_audio_body_zero_division env audio_path D fs E).
      - rewrite (split_audio_body_loop env audio_path C D fs E HC).
        unfold range, math_ceil. fold (chunk_count D C).
        destruct (writes_ok env audio_path (seq 0 (chunk_count D C))) eqn:Hok.
        + rewrite split_loop_written by assumption.
          unfold result_of. simpl. split; [done|]. by exists D.
        + destruct (split_loop_failed env audio_path C D _ 0 [] fs Hok) as [msg Hmsg].
          destruct (for_each _ 0 _ [] fs) as [[r fs'] evs].
          unfold result_of in *. simpl in *. by subst r. }
  all: by rewrite split_audio_body_no_audio by (intros d'; rewrite E; discriminate).
Qed.


(** A failing write of the third chunk: the two chunks already written
    are not returned. *)
Example split_audio_partial_failure :
  let fs : FS := {[ "output/talk_audio.wav" := Audio 130 ]} in
  let run := split_audio env_disk_full "output/talk_audio.wav" 60 fs in
  result_of run = Ok []
  /\ audio_writes (events_of run)
     = [("output/talk_audio_chunk_0.wav", 0%Q, 60%Q);
        ("output/talk_audio_chunk_1.wav", 60%Q, 120%Q)]
  /\ prints (events_of run) = ["Error splitting audio: No space left on device"].
Proof. vm_compute. repeat split. Qed.

(** * The orchestrator: process_video_file *)

Lemma audio_path_truthy v : str_truthy (audio_path_of v) = true.
Proof.
  unfold audio_path_of, os_path_join.
  destruct (startswith _ "/").
  - by destruct (base_name_of v).
  - reflexivity.
Qed.

Lemma prints_app evs1 evs2 : prints (evs1 ++ evs2) = prints evs1 ++ prints evs2.
Proof. apply omap_app. Qed.

Lemma text_writes_app evs1 evs2 :
  text_writes (evs1 ++ evs2) = text_writes evs1 ++ text_writes evs2.
Proof. apply omap_app. Qed.

Lemma prints_removal (fs : FS) p : prints (removal fs p) = [].
Proof. unfold removal. by destruct (fs !! p). Qed.

Lemma text_writes_removal (fs : FS) p : text_writes (removal fs p) = [].
Proof. unfold removal. by destruct (fs !! p). Qed.

Lemma no_new_text_refl fs : no_new_text fs fs.
Proof. by intros q c. Qed.

Lemma no_new_text_trans fs1 fs2 fs3 :
  no_new_text fs1 fs2 -> no_new_text fs2 fs3 -> no_new_text fs1 fs3.
Proof. intros H12 H23 q c Hq. auto. Qed.

Lemma no_new_text_delete (fs : FS) p : no_new_text fs (delete p fs).
Proof.
  intros q c. destruct (decide (p = q)) as [->|Hne].
  - by rewrite lookup_delete_eq.
  - by rewrite lookup_delete_ne.
Qed.

Lemma no_new_text_audio (fs : FS) p d : no_new_text fs (<[p := Audio d]> fs).
Proof.
  intros q c. destruct (decide (p = q)) as [->|Hne].
  - by rewrite lookup_insert_eq.
  - by rewrite lookup_insert_ne.
Qed.

Lemma no_new_text_remove_all chunks : forall fs : FS,
  no_new_text fs (remove_all chunks fs).
Proof.
  induction chunks as [|p chunks IH]; intros fs; simpl.
  - apply no_new_text_refl.
  - eapply no_new_text_trans; [apply no_new_text_delete|apply IH].
Qed.

(** [split_audio] writes audio only: no text appears, in the events or
    in the file system. *)
Lemma write_clip_text_free env p s t d fs :
  text_writes (events_of (write_clip env p s t d fs)) = []
  /\ no_new_text fs (fs_of (write_clip env p s t d fs)).
Proof.
  unfold write_clip, events_of, fs_of.
  destruct (audio_write env p) as [|msg [d'|]]; simpl; split; try done;
    auto using no_new_text_audio, no_new_text_refl.
Qed.

Lemma materialize_chunk_text_free env ap C D i chunks fs :
  text_writes (events_of (materialize_chunk env ap C D i chunks fs)) = []
  /\ no_new_text fs (fs_of (materialize_chunk env ap C D i chunks fs)).
Proof.
  unfold materialize_chunk, write_subclip, bind.
  match goal with
  | |- context [write_clip env ?p ?s ?t ?d fs] =>
      pose proof (write_clip_text_free env p s t d fs) as [Hev Hfs];
      destruct (write_clip env p s t d fs) as [[[u|e] fs1] ev1]
  end; unfold events_of, fs_of in *; simpl in *; [|done].
  by rewrite app_nil_r.
Qed.

Lemma split_loop_text_free env ap C D idxs : forall start chunks fs,
  text_writes
    (events_of (for_each idxs start (fun _ => materialize_chunk env ap C D) chunks fs))
  = []
  /\ no_new_text fs
       (fs_of (for_each idxs start (fun _ => materialize_chunk env ap C D) chunks fs)).
Proof.
  induction idxs as [|i idxs IH]; intros start chunks fs; cbn [for_each].
  - split; [done|apply no_new_text_refl].
  - pose proof (materialize_chunk_text_free env ap C D i chunks fs) as [Hev Hfs].
    destruct (materialize_chunk env ap C D i chunks fs) as [[[a|e] fs1] ev1] eqn:Hm.
    + erewrite bind_run by exact Hm.
      destruct (IH (S start) a fs1) as [IHev IHfs].
      destruct (for_each idxs (S start) _ a fs1) as [[r fs2] ev2].
      unfold events_of, fs_of in *. simpl in *.
      rewrite text_writes_app, Hev, IHev.
      split; [done|]. eapply no_new_text_trans; eassumption.
    + erewrite bind_raise by exact Hm. by split.
Qed.

Lemma split_audio_text_free env ap C fs :
  text_writes (events_of (split_audio env ap C fs)) = []
  /\ no_new_text fs (fs_of (split_audio env ap C fs)).
Proof.
  rewrite split_audio_of_body.
  assert (Hbody : text_writes (events_of (split_audio_body env ap C fs)) = []
                  /\ no_new_text fs (fs_of (split_audio_body env ap C fs))).
  { destruct (fs !! ap) as [f|] eqn:E; [destruct f as [a|D|c]|].
    2:{ destruct (decide (C = 0%Z)) as [->|HC].
        - rewrite (split_audio_body_zero_division env ap D fs E).
          split; [done|apply no_new_text_refl].
        - rewrite (split_audio_body_loop env ap C D fs E HC).
          apply split_loop_text_free. }
    all: rewrite split_audio_body_no_audio
           by (intros d'; rewrite E; discriminate).
    all: split; [done|apply no_new_text_refl]. }
  destruct (split_audio_body env ap C fs) as [[[chunks|e] fs1] ev1];
    unfold events_of, fs_of in *; simpl in *; [done|].
  destruct Hbody as [Hev Hfs]. split; [|done].
  by rewrite text_writes_app, Hev.
Qed.

(** [split_audio] emits nothing but audio writes and printed lines. *)
Lemma split_loop_events env ap C D idxs : forall start chunks fs,
  Forall audio_or_print
    (events_of (for_each idxs start (fun _ => materialize_chunk env ap C D) chunks fs)).
Proof.
  induction idxs as [|i idxs IH]; intros start chunks fs; cbn [for_each].
  - constructor.
  - destruct (materialize_chunk env ap C D i chunks fs) as [[[a|e] fs1] ev1] eqn:Hm.
    + erewrite bind_run by exact Hm.
      specialize (IH (S start) a fs1).
      destruct (for_each idxs (S start) _ a fs1) as [[r fs2] ev2].
      unfold events_of in *. simpl in *.
      apply Forall_app. split; [|done].
      revert Hm. unfold materialize_chunk, write_subclip, write_clip, bind, ret.
      destruct (audio_write env (chunk_path_of ap i)) as [|msg [d'|]];
        intros Hm; inversion Hm; subst; by repeat constructor.
    + erewrite bind_raise by exact Hm. unfold events_of. simpl.
      revert Hm. unfold materialize_chunk, write_subclip, write_clip, bind, ret.
      destruct (audio_write env (chunk_path_of ap i)) as [|msg [d'|]];
        intros Hm; inversion Hm; subst; by repeat constructor.
Qed.

Lemma split_audio_events env ap C fs :
  Forall audio_or_print (events_of (split_audio env ap C fs)).
Proof.
  rewrite split_audio_of_body.
  assert (Hbody : Forall audio_or_print (events_of (split_audio_body env ap C fs))).
  { destruct (fs !! ap) as [f|] eqn:E; [destruct f as [a|D|c]|].
    2:{ destruct (decide (C = 0%Z)) as [->|HC].
        - rewrite (split_audio_body_zero_division env ap D fs E). constructor.
        - rewrite (split_audio_body_loop env ap C D fs E HC).
          apply split_loop_events. }
    all: rewrite split_audio_body_no_audio
           by (intros d'; rewrite E; discriminate).
    all: constructor. }
  destruct (split_audio_body env ap C fs) as [[[chunks|e] fs1] ev1];
    unfold events_of in *; simpl in *; [done|].
  apply Forall_app. split; [done|]. by repeat constructor.
Qed.

Lemma recognitions_audio_or_print evs :
  Forall audio_or_print evs -> recognitions evs = [].
Proof.
  induction 1 as [|e evs He _ IH]; [done|].
  destruct e; simpl in *; done.
Qed.

Lemma text_writes_chunk_events env n i p fs :
  text_writes (chunk_events env n i p fs) = [].
Proof.
  unfold chunk_events, failure_print, removal. simpl. rewrite text_writes_app.
  by destruct (recognize env i p) as [text | [ | msg | msg]]; destruct (fs !! p).
Qed.

Lemma text_writes_loop_events env n chunks : forall start fs,
  text_writes (loop_events env n start chunks fs) = [].
Proof.
  induction chunks as [|p chunks IH]; intros start fs; [done|].
  cbn [loop_events]. by rewrite text_writes_app, text_writes_chunk_events, IH.
Qed.

Lemma loop_fragments_without_text env chunks : forall start,
  (forall i p, chunks !! i = Some p ->
     is_text (outcome_of (recognize env (start + i) p)) = false) ->
  loop_fragments env start chunks = [].
Proof.
  induction chunks as [|p chunks IH]; intros start Hno; [done|].
  cbn [loop_fragments]. rewrite IH.
  - specialize (Hno 0%nat p eq_refl). rewrite Nat.add_0_r in Hno.
    unfold fragment_of. by destruct (recognize env start p).
  - intros i q Hq. rewrite Nat.add_succ_comm. by apply (Hno (S i)).
Qed.

Section Orchestrator.

Variable env : Env.

Lemma extract_audio_written v ap d fs :
  fs !! v = Some (Video (Some d)) ->
  audio_write env ap = Written ->
  extract_audio env v ap fs
  = (Ok (Some ap), <[ap := Audio d]> fs, [WriteAudio ap 0 d]).
Proof.
  intros Hv Hw.
  unfold extract_audio, try_except, bind, VideoFileClip, write_audiofile, write_clip, ret.
  by rewrite Hv, Hw.
Qed.

(** The cleanup of [process_video_file]: the audio file is removed when
    it is there. *)
Lemma cleanup_run ap (fs : FS) :
  try_except
    (found <- os_path_exists ap ;; if found then os_remove ap else ret tt)
    (fun _ => ret tt) fs
  = (Ok tt, delete ap fs, removal fs ap).
Proof.
  unfold try_except, bind, os_path_exists, os_remove, ret, removal.
  destruct (fs !! ap) as [f|] eqn:Hap.
  - rewrite bool_decide_eq_true_2 by eauto. by rewrite Hap.
  - rewrite bool_decide_eq_false_2 by (by intros [? ?]).
    by rewrite (delete_id fs ap Hap).
Qed.

Lemma process_split_empty v d fs fs2 evs2 :
  fs !! v = Some (Video (Some d)) ->
  audio_write env (audio_path_of v) = Written ->
  split_audio env (audio_path_of v) 60 (<[audio_path_of v := Audio d]> fs)
    = (Ok [], fs2, evs2) ->
  process_video_file env v fs
  = (Ok None, delete (audio_path_of v) fs2,
     (extraction_events v d ++ evs2 ++ [Print "Failed to split audio"])
     ++ removal fs2 (audio_path_of v)).
Proof.
  intros Hv Hw Hsplit.
  unfold process_video_file.
  unfold bind at 1. unfold os_path_exists at 1.
  rewrite bool_decide_eq_true_2 by eauto. cbn [negb].
  erewrite try_finally_run; [| |apply cleanup_run]; cycle 1.
  - apply try_except_ok.
    unfold bind, print. rewrite (extract_audio_written v _ d fs Hv Hw).
    simpl. rewrite audio_path_truthy. simpl. rewrite Hsplit. reflexivity.
  - reflexivity.
Qed.

(** The run of a unit whose source was extracted and split into at
    least one chunk. *)
Lemma process_transcribed v d fs chunks fs2 evs2 :
  fs !! v = Some (Video (Some d)) ->
  audio_write env (audio_path_of v) = Written ->
  split_audio env (audio_path_of v) 60 (<[audio_path_of v := Audio d]> fs)
    = (Ok chunks, fs2, evs2) ->
  chunks <> [] ->
  let ap := audio_path_of v in
  let tp := transcript_path_of v in
  let text := String.concat " " (loop_fragments env 0 chunks) in
  let fs3 := remove_all chunks fs2 in
  let evs3 :=
    extraction_events v d ++ evs2
    ++ [Print ("Processing " ++ str_of_nat (length chunks) ++ " audio chunks...")]
    ++ loop_events env (length chunks) 0 chunks fs2 in
  process_video_file env v fs
  = if str_truthy text then
      match text_write env tp with
      | None =>
          (Ok (Some text), delete ap (<[tp := Text text]> fs3),
           (evs3 ++ [WriteText tp text;
                     Print (nl ++ "=== Transcript ===");
                     Print text;
                     Print ("==================" ++ nl)])
           ++ removal (<[tp := Text text]> fs3) ap)
      | Some msg =>
          (Ok None, delete ap fs3,
           (evs3 ++ [Print ("Error saving transcript: " ++ msg)])
           ++ removal fs3 ap)
      end
    else
      (Ok None, delete ap fs3,
       (evs3 ++ [Print "No text was transcribed"]) ++ removal fs3 ap).
Proof.
  intros Hv Hw Hsplit Hne ap tp text fs3 evs3.
  unfold process_video_file.
  unfold bind at 1. unfold os_path_exists at 1.
  rewrite bool_decide_eq_true_2 by eauto. cbn [negb].
  fold ap tp.
  assert (Hstart : forall k : option string -> M (option string),
    forall handler r fs4 evs4,
    k (Some ap) (<[ap := Audio d]> fs) = (Ok r, fs4, evs4) ->
    try_except
      (print (nl ++ "Processing: " ++ os_path_basename v) ;;
       print "Extracting audio..." ;;
       extracted <- extract_audio env v ap ;; k extracted) handler fs
    = (Ok r, fs4,
       [Print (nl ++ "Processing: " ++ os_path_basename v);
        Print "Extracting audio..."; WriteAudio ap 0 d] ++ evs4)).
  { intros k handler r fs4 evs4 Hk. apply try_except_ok.
    unfold bind, print. subst ap.
    rewrite (extract_audio_written v _ d fs Hv Hw). by rewrite Hk. }
  assert (Hrest : forall k : string -> M (option string),
    (print "Splitting audio into chunks..." ;;
     chunks0 <- split_audio env ap 60 ;;
     match chunks0 with
     | [] => print "Failed to split audio" ;; ret None
     | _ :: _ =>
         print ("Processing " ++ str_of_nat (length chunks0) ++ " audio chunks...") ;;
         transcribed_text <- transcribe_audio_chunks env chunks0 ;;
         k transcribed_text
     end) (<[ap := Audio d]> fs)
    = (let '(r, fs4, evs4) := k text fs3 in
       (r, fs4,
        [Print "Splitting audio into chunks..."] ++ evs2
        ++ [Print ("Processing " ++ str_of_nat (length chunks) ++ " audio chunks...")]
        ++ loop_events env (length chunks) 0 chunks fs2 ++ evs4))).
  { intros k. unfold bind at 1 2, print at 1. subst ap. rewrite Hsplit.
    destruct chunks as [|c cs]; [done|].
    unfold bind at 1 2, print at 1.
    rewrite transcribe_audio_chunks_run. fold text fs3.
    destruct (k text fs3) as [[r fs4] evs4]. simpl.
    rewrite <- ?app_assoc. reflexivity. }
  subst evs3. unfold extraction_events. fold ap.
  destruct (str_truthy text) eqn:Htext; [destruct (text_write env tp) as [msg|] eqn:Hsave|].
  - erewrite try_finally_run; [| |apply cleanup_run]; cycle 1.
    + apply Hstart. cbn [negb opt_truthy]. subst ap. rewrite audio_path_truthy.
      cbn [negb]. rewrite Hrest. rewrite Htext. cbn [negb].
      unfold try_except, bind, write_text, print, ret. fold tp. rewrite Hsave.
      reflexivity.
    + f_equal. list_assoc.
  - erewrite try_finally_run; [| |apply cleanup_run]; cycle 1.
    + apply Hstart. cbn [negb opt_truthy]. subst ap. rewrite audio_path_truthy.
      cbn [negb]. rewrite Hrest. rewrite Htext. cbn [negb].
      unfold try_except, bind, write_text, print, ret. fold tp. rewrite Hsave.
      reflexivity.
    + f_equal. list_assoc.
  - erewrite try_finally_run; [| |apply cleanup_run]; cycle 1.
    + apply Hstart. cbn [negb opt_truthy]. subst ap. rewrite audio_path_truthy.
      cbn [negb]. rewrite Hrest. rewrite Htext. cbn [negb].
      unfold bind, print, ret. reflexivity.
    + f_equal. list_assoc.
Qed.

End Orchestrator.

Lemma recognitions_removal (fs : FS) p : recognitions (removal fs p) = [].
Proof. unfold removal. by destruct (fs !! p). Qed.

(** One result per chunk, for the unit as a whole: the calls to the
    recognition service in a run of [process_video_file] are one for each
    chunk that [split_audio] returned, in order. *)
Lemma unit_results_match_chunks env v d (fs : FS) chunks :
  fs !! v = Some (Video (Some d)) ->
  audio_write env (audio_path_of v) = Written ->
  result_of (split_audio env (audio_path_of v) 60 (<[audio_path_of v := Audio d]> fs))
    = Ok chunks ->
  recognitions (events_of (process_video_file env v fs)) = attempts env 0 chunks.
Proof.
  intros Hv Hw Hres.
  pose proof (split_audio_events env (audio_path_of v) 60
                (<[audio_path_of v := Audio d]> fs)) as Hquiet.
  destruct (split_audio env (audio_path_of v) 60 (<[audio_path_of v := Audio d]> fs))
    as [[r fs2] evs2] eqn:Hsplit.
  unfold result_of in Hres. unfold events_of in Hquiet. simpl in Hres, Hquiet. subst r.
  apply recognitions_audio_or_print in Hquiet.
  destruct chunks as [|c cs].
  - rewrite (process_split_empty env v d fs fs2 evs2 Hv Hw Hsplit).
    unfold events_of. cbn [snd].
    by rewrite !recognitions_app, recognitions_removal, Hquiet.
  - rewrite (process_transcribed env v d fs (c :: cs) fs2 evs2 Hv Hw Hsplit)
      by discriminate.
    unfold events_of.
    destruct (str_truthy _); [destruct (text_write env _) as [msg|]|];
      cbn [snd];
      rewrite !recognitions_app, recognitions_removal, Hquiet,
        recognitions_loop_events;
      simpl; rewrite ?app_nil_r; reflexivity.
Qed.

(** A video without an audio track: the unit fails with
    [ExtractionFailed]. *)
Lemma process_no_audio_track env v (fs : FS) :
  fs !! v = Some (Video None) ->
  reports_failure (process_video_file env v fs) ExtractionFailed
  /\ fs_of (process_video_file env v fs) = delete (audio_path_of v) fs.
Proof.
  intros Hv.
  assert (Hextract : extract_audio env v (audio_path_of v) fs
                     = (Ok None, fs,
                        [Print "Error extracting audio: No audio track found in video"])).
  { unfold extract_audio, try_except, bind at 1, VideoFileClip. rewrite Hv.
    reflexivity. }
  assert (Hrun : process_video_file env v fs
                 = (Ok None, delete (audio_path_of v) fs,
                    [Print (nl ++ "Processing: " ++ os_path_basename v);
                     Print "Extracting audio...";
                     Print "Error extracting audio: No audio track found in video";
                     Print "Failed to extract audio"]
                    ++ removal fs (audio_path_of v))).
  { unfold process_video_file.
    unfold bind at 1. unfold os_path_exists at 1.
    rewrite bool_decide_eq_true_2 by eauto. cbn [negb].
    erewrite try_finally_run; [| |apply cleanup_run]; cycle 1.
    - apply try_except_ok.
      unfold bind, print. rewrite Hextract. simpl. reflexivity.
    - reflexivity. }
  rewrite Hrun.
  unfold reports_failure, result_of, events_of, fs_of. cbn [fst snd].
  split; [|reflexivity]. split; [reflexivity|].
  rewrite prints_app, prints_removal, app_nil_r. reflexivity.
Qed.

(** C4. A unit of work whose source was extracted and split into at
    least one chunk, and none of whose chunks gives a text, fails with
    the reason [NoTranscribableAudio]: [process_video_file] returns
    [None], the last line it prints is that reason, and no transcript is
    written, neither as an event nor as a text in the file system. *)
Theorem all_chunks_without_text_fail_unit :
  forall (env : Env) (v : string) (d : Q) (fs : FS) (chunks : list string),
    fs !! v = Some (Video (Some d)) ->
    audio_write env (audio_path_of v) = Written ->
    result_of (split_audio env (audio_path_of v) 60 (<[audio_path_of v := Audio d]> fs))
      = Ok chunks ->
    chunks <> [] ->
    (forall i p, chunks !! i = Some p ->
       is_text (outcome_of (recognize env i p)) = false) ->
    let run := process_video_file env v fs in
    reports_failure run NoTranscribableAudio
    /\ text_writes (events_of run) = []
    /\ no_new_text fs (fs_of run).
Proof.
  intros env v d fs chunks Hv Hw Hres Hne Hno run. subst run.
  destruct (split_audio env (audio_path_of v) 60 (<[audio_path_of v := Audio d]> fs))
    as [[r fs2] evs2] eqn:Hsplit.
  unfold result_of in Hres. simpl in Hres. subst r.
  rewrite (process_transcribed env v d fs chunks fs2 evs2 Hv Hw Hsplit Hne).
  rewrite (loop_fragments_without_text env chunks 0 Hno). cbn [String.concat str_truthy].
  pose proof (split_audio_text_free env (audio_path_of v) 60
                (<[audio_path_of v := Audio d]> fs)) as [Hev Hfs].
  rewrite Hsplit in Hev, Hfs. unfold events_of, fs_of in Hev, Hfs. simpl in Hev, Hfs.
  unfold reports_failure, result_of, events_of, fs_of. cbn [fst snd].
  split; [split; [done|]|split].
  - rewrite prints_app, prints_removal, app_nil_r, prints_app. apply last_snoc.
  - rewrite !text_writes_app, text_writes_removal, Hev, text_writes_loop_events.
    reflexivity.
  - eapply no_new_text_trans; [|apply no_new_text_delete].
    eapply no_new_text_trans; [|apply no_new_text_remove_all].
    eapply no_new_text_trans; [apply no_new_text_audio|exact Hfs].
Qed.

Lemma all_chunks_without_text_fail_unit_witness :
  let run := process_video_file env_silent "input/talk.mp4"
               (one_video "input/talk.mp4" 90) in
  reports_failure run NoTranscribableAudio
  /\ text_writes (events_of run) = []
  /\ no_new_text (one_video "input/talk.mp4" 90) (fs_of run).
Proof.
  apply (all_chunks_without_text_fail_unit env_silent "input/talk.mp4" 90
           (one_video "input/talk.mp4" 90)
           ["output/talk_audio_chunk_0.wav"; "output/talk_audio_chunk_1.wav"]).
  - reflexivity.
  - reflexivity.
  - vm_compute. reflexivity.
  - discriminate.
  - intros i p _. reflexivity.
Defined.

(** ** When segmentation fails the unit *)

Lemma split_audio_returns env ap C fs :
  exists chunks, result_of (split_audio env ap C fs) = Ok chunks.
Proof.
  rewrite split_audio_of_body.
  destruct (split_audio_body env ap C fs) as [[[chunks|e] fs'] evs];
    unfold result_of; simpl; eauto.
Qed.

Lemma chunk_count_positive (D : Q) (C : Z) :
  (0 < C)%Z -> (0 < D)%Q -> (0 < chunk_count D C)%nat.
Proof.
  intros HC HD. unfold chunk_count.
  assert (Hq : (0 < D / inject_Z C)%Q).
  { apply Qlt_shift_div_l.
    - change 0%Q with (inject_Z 0). by rewrite <- Zlt_Qlt.
    - by rewrite Qmult_0_l. }
  assert (Hc : (0 < inject_Z (Qceiling (D / inject_Z C)))%Q)
    by (eapply Qlt_le_trans; [exact Hq|apply Qle_ceiling]).
  change 0%Q with (inject_Z 0) in Hc. rewrite <- Zlt_Qlt in Hc. lia.
Qed.

Lemma chunk_count_not_positive (D : Q) (C : Z) :
  (0 < C)%Z -> (D <= 0)%Q -> chunk_count D C = O.
Proof.
  intros HC HD. unfold chunk_count.
  assert (Hq : (D / inject_Z C <= 0)%Q).
  { apply Qle_shift_div_r.
    - change 0%Q with (inject_Z 0). by rewrite <- Zlt_Qlt.
    - by rewrite Qmult_0_l. }
  apply Qceiling_resp_le in Hq. change (Qceiling 0) with 0%Z in Hq. lia.
Qed.

(** The segmenter returns no chunk exactly when it fails or the source
    has no positive duration. *)
Lemma split_audio_empty_iff env ap d (fs : FS) :
  fs !! ap = Some (Audio d) ->
  result_of (split_audio env ap 60 fs) = Ok []
  <-> segmenter_fails env ap fs \/ (d <= 0)%Q.
Proof.
  intros Hap.
  pose proof (split_audio_cases env ap 60 fs) as Hall.
  unfold segmenter_fails.
  destruct (result_of (split_audio_body env ap 60 fs)) as [chunks|e] eqn:Hbody.
  - destruct Hall as (Hres & D & HD & Hchunks & _).
    rewrite Hap in HD. inversion HD; subst D. rewrite Hres. split.
    + intros Hnil. right. inversion Hnil as [Hmap].
      destruct (Qlt_le_dec 0 d) as [Hpos|Hle]; [|done].
      pose proof (chunk_count_positive d 60 eq_refl Hpos) as Hc.
      rewrite Hmap in Hchunks.
      destruct (chunk_count d 60); [lia|discriminate].
    + intros [[e He]|Hle]; [discriminate|].
      by rewrite Hchunks, (chunk_count_not_positive d 60 eq_refl Hle).
  - split; [intros _; left; eauto|done].
Qed.




(** * Cleanup of intermediate audio *)

Lemma remove_all_lookup_Some chunks : forall (fs : FS) q x,
  remove_all chunks fs !! q = Some x -> (q ∉ chunks) /\ fs !! q = Some x.
Proof.
  induction chunks as [|p chunks IH]; intros fs q x Hq; simpl in *.
  - split; [apply not_elem_of_nil|done].
  - apply IH in Hq as [Hnotin Hq].
    destruct (decide (p = q)) as [->|Hne].
    + by rewrite lookup_delete_eq in Hq.
    + rewrite lookup_delete_ne in Hq by done.
      split; [|done]. apply not_elem_of_cons. split; [congruence|done].
Qed.

Lemma remove_all_lookup_removed chunks (fs : FS) q :
  q ∈ chunks -> remove_all chunks fs !! q = None.
Proof.
  intros Hin. destruct (remove_all chunks fs !! q) as [x|] eqn:E; [|done].
  apply remove_all_lookup_Some in E as [Hnotin _]. by destruct Hnotin.
Qed.

Lemma with_chunks_lookup_other ap C D idxs : forall (fs : FS) q,
  q ∉ map (chunk_path_of ap) idxs ->
  with_chunks ap C D idxs fs !! q = fs !! q.
Proof.
  induction idxs as [|i idxs IH]; intros fs q Hq; simpl in *; [done|].
  apply not_elem_of_cons in Hq as [Hne Hq].
  rewrite IH by done. by rewrite lookup_insert_ne.
Qed.

(** The extracted audio file is gone when [process_video_file] returns,
    on every way out. *)
Lemma process_video_file_removes_audio env v (fs : FS) :
  is_Some (fs !! v) ->
  fs_of (process_video_file env v fs) !! audio_path_of v = None.
Proof.
  intros Hv. unfold process_video_file.
  unfold bind at 1. unfold os_path_exists at 1.
  rewrite bool_decide_eq_true_2 by done. cbn [negb].
  unfold try_finally.
  destruct (try_except _ _ fs) as [[r fs1] ev1].
  rewrite cleanup_run. unfold fs_of. simpl. apply lookup_delete_eq.
Qed.

(** [process_video_file] never lets an exception out. *)
Lemma process_video_file_returns env v (fs : FS) :
  exists r, result_of (process_video_file env v fs) = Ok r.
Proof.
  unfold process_video_file.
  unfold bind at 1. unfold os_path_exists at 1.
  destruct (bool_decide (is_Some (fs !! v))); cbn [negb].
  - unfold try_finally.
    match goal with
    | |- context [try_except ?body ?handler fs] =>
        assert (Hbody : exists r fs1 ev1, try_except body handler fs = (Ok r, fs1, ev1))
    end.
    { unfold try_except at 1.
      match goal with
      | |- context [match ?b fs with _ => _ end] =>
          destruct (b fs) as [[[r|e] fs1] ev1]
      end; [by eauto|].
      unfold bind, print, ret. by eauto. }
    destruct Hbody as (r & fs1 & ev1 & ->).
    rewrite cleanup_run. unfold result_of. simpl. by eauto.
  - unfold bind, print, ret, result_of. simpl. by eauto.
Qed.

(** When the segmenter does not fail, no audio file that the unit made
    is left: the audio in the final file system was there before. *)
Lemma cleanup_complete_when_split_succeeds env v d (fs : FS) chunks :
  fs !! v = Some (Video (Some d)) ->
  audio_write env (audio_path_of v) = Written ->
  result_of (split_audio_body env (audio_path_of v) 60
               (<[audio_path_of v := Audio d]> fs)) = Ok chunks ->
  no_new_audio fs (fs_of (process_video_file env v fs)).
Proof.
  intros Hv Hw Hbody.
  set (ap := audio_path_of v) in *.
  set (fs1 := <[ap := Audio d]> fs) in *.
  assert (Hap : fs1 !! ap = Some (Audio d)) by apply lookup_insert_eq.
  pose proof (split_audio_cases env ap 60 fs1) as Hall.
  rewrite Hbody in Hall. destruct Hall as (Hres & D & HD & Hchunks & Hok).
  rewrite Hap in HD. inversion HD; subst D. clear HD.
  assert (Hsplit : split_audio env ap 60 fs1
                   = (Ok chunks, with_chunks ap 60 d (seq 0 (chunk_count d 60)) fs1,
                      map (chunk_event ap 60 d) (seq 0 (chunk_count d 60)))).
  { rewrite split_audio_of_body, (split_audio_body_loop env ap 60 d fs1 Hap) by done.
    unfold range, math_ceil. fold (chunk_count d 60).
    rewrite split_loop_written by done. by rewrite Hchunks. }
  assert (Hbase : forall q D,
    q <> ap ->
    remove_all chunks (with_chunks ap 60 d (seq 0 (chunk_count d 60)) fs1) !! q
      = Some (Audio D) ->
    fs !! q = Some (Audio D)).
  { intros q D Hq Hlook. apply remove_all_lookup_Some in Hlook as [Hnotin Hlook].
    rewrite Hchunks in Hnotin.
    rewrite with_chunks_lookup_other in Hlook by done.
    subst fs1. by rewrite lookup_insert_ne in Hlook. }
  intros q D. destruct (decide (q = ap)) as [->|Hq].
  { unfold ap. rewrite process_video_file_removes_audio by eauto. discriminate. }
  destruct chunks as [|c cs].
  - rewrite (process_split_empty env v d fs _ _ Hv Hw Hsplit).
    unfold fs_of. simpl. rewrite lookup_delete_ne by done.
    intros Hlook. apply (Hbase q D Hq). exact Hlook.
  - rewrite (process_transcribed env v d fs (c :: cs) _ _ Hv Hw Hsplit) by discriminate.
    fold ap.
    destruct (str_truthy _); [destruct (text_write env _) as [msg|]|];
      unfold fs_of; cbn [fst snd]; rewrite lookup_delete_ne by done;
      try (apply (Hbase q D Hq)).
    destruct (decide (transcript_path_of v = q)) as [<-|Hne].
    + rewrite lookup_insert_eq. discriminate.
    + rewrite lookup_insert_ne by done. apply (Hbase q D Hq).
Qed.

(** C7 fails on the code. The talk has 130 seconds of audio and the
    third chunk cannot be written: [split_audio] returns the empty list,
    the unit fails with [SegmentationFailed], and the two chunk files
    that were written before the failure are still there when
    [process_video_file] has returned; only the extracted audio file is
    removed. *)
Theorem partial_split_leaks_chunk_files :
  let v := "input/talk.mp4" in
  let fs := one_video v 130 in
  let run := process_video_file env_disk_full v fs in
  reports_failure run SegmentationFailed
  /\ fs !! "output/talk_audio_chunk_0.wav" = None
  /\ fs !! "output/talk_audio_chunk_1.wav" = None
  /\ fs_of run !! "output/talk_audio_chunk_0.wav" = Some (Audio 60)
  /\ fs_of run !! "output/talk_audio_chunk_1.wav" = Some (Audio 60)
  /\ fs_of run !! "output/talk_audio.wav" = None
  /\ ~ no_new_audio fs (fs_of run).
Proof.
  intros v fs run.
  assert (H0 : fs_of run !! "output/talk_audio_chunk_0.wav" = Some (Audio 60))
    by (vm_compute; reflexivity).
  repeat split; try (vm_compute; reflexivity).
  intros Hno. specialize (Hno _ _ H0). vm_compute in Hno. discriminate.
Qed.

(** * The batch entry point: main *)

Section Batch.

Variable env : Env.

Lemma batch_units_length files : forall fs,
  length (batch_units env files fs) = length files.
Proof.
  induction files as [|f files IH]; intros fs; simpl; [done|].
  destruct (process_video_file_returns env (os_path_join "input" f) fs) as [r Hr].
  destruct (process_video_file env (os_path_join "input" f) fs) as [[r' fs1] evs].
  unfold result_of in Hr. simpl in Hr. subst r'. simpl. by rewrite IH.
Qed.

(** The files of a batch, as the units saw them. *)
Lemma batch_units_each files : forall fs i f,
  files !! i = Some f ->
  exists fs_before,
    (forall u, batch_units env files fs !! i = Some u <->
       process_video_file env (os_path_join "input" f) fs_before
       = (Ok u.1.1, u.1.2, u.2))
    /\ is_Some (batch_units env files fs !! i).
Proof.
  induction files as [|g files IH]; intros fs i f Hi; [done|].
  simpl.
  destruct (process_video_file_returns env (os_path_join "input" g) fs) as [r Hr].
  destruct (process_video_file env (os_path_join "input" g) fs)
    as [[r' fs1] evs] eqn:Hrun.
  unfold result_of in Hr. simpl in Hr. subst r'.
  destruct i as [|i]; simpl in *.
  - inversion Hi; subst g. exists fs. split; [|by eauto].
    intros [[ur ufs] uevs]. simpl. rewrite Hrun. split; intros Hu; by inversion Hu.
  - apply (IH fs1 i f Hi).
Qed.

Lemma batch_fs_cons u units fs :
  batch_fs (u :: units) fs = batch_fs units u.1.2.
Proof.
  unfold batch_fs. destruct units as [|u' units]; [reflexivity|].
  rewrite last_cons_cons.
  destruct (last (u' :: units)) eqn:E; [done|].
  by apply last_None in E.
Qed.

Lemma process_batch_loop files : forall start successful fs,
  for_each files start
    (fun _ video_file successful =>
       r <- process_video_file env (os_path_join "input" video_file) ;;
       ret (if opt_truthy r then S successful else successful))
    successful fs
  = (Ok (successful + succeeded (batch_units env files fs))%nat,
     batch_fs (batch_units env files fs) fs,
     batch_events (batch_units env files fs)).
Proof.
  induction files as [|f files IH]; intros start successful fs; cbn [for_each batch_units].
  - unfold ret, succeeded, batch_fs, batch_events. simpl. by rewrite Nat.add_0_r.
  - destruct (process_video_file_returns env (os_path_join "input" f) fs) as [r Hr].
    destruct (process_video_file env (os_path_join "input" f) fs)
      as [[r' fs1] evs] eqn:Hrun.
    unfold result_of in Hr. simpl in Hr. subst r'.
    unfold bind at 1 2. rewrite Hrun. unfold ret at 1. rewrite IH.
    rewrite batch_fs_cons. unfold succeeded, batch_events.
    cbn [List.filter map concat fst snd]. rewrite app_nil_r.
    destruct (opt_truthy r); simpl; f_equal; f_equal; f_equal; lia.
Qed.

Lemma process_batch_run files fs :
  process_batch env files fs
  = (Ok (succeeded (batch_units env files fs)),
     batch_fs (batch_units env files fs) fs,
     batch_events (batch_units env files fs)).
Proof. unfold process_batch. by rewrite process_batch_loop. Qed.

(** [main] when the directories are there and the listing works. *)
Lemma main_run names fs :
  makedirs env "input" = None ->
  makedirs env "output" = None ->
  listdir env "input" = inr names ->
  let video_files := List.filter is_mp4 names in
  let units := batch_units env video_files fs in
  main env fs
  = match video_files with
    | [] => (Ok tt, fs, [Print "No MP4 files found in input folder"])
    | _ :: _ =>
        (Ok tt, batch_fs units fs,
         [Print ("Found " ++ str_of_nat (length video_files)
                 ++ " video(s) to process")]
         ++ batch_events units
         ++ [Print (summary_line (succeeded units) (length video_files))])
    end.
Proof.
  intros Hin Hout Hls video_files units.
  unfold main. subst units.
  destruct video_files as [|f files] eqn:Hfiles; subst video_files;
    apply try_except_ok;
    unfold bind at 1 2 3, os_makedirs, os_listdir;
    rewrite Hin, Hout, Hls; unfold ret at 1 2 3; rewrite Hfiles.
  - reflexivity.
  - unfold bind at 1 2, print at 1. rewrite process_batch_run.
    unfold print. simpl. reflexivity.
Qed.

(** [main] catches whatever its body raises. *)
Lemma main_returns fs : exists fs' evs, main env fs = (Ok tt, fs', evs).
Proof.
  unfold main, try_except.
  match goal with
  | |- context [match ?b fs with _ => _ end] =>
      destruct (b fs) as [[[[]|e] fs1] ev1]
  end; [by eauto|].
  unfold print. by eauto.
Qed.

Lemma main_output_dir_failure msg fs :
  makedirs env "input" = None ->
  makedirs env "output" = Some msg ->
  main env fs = (Ok tt, fs, [Print ("An unexpected error occurred: " ++ msg)]).
Proof.
  intros Hin Hout. unfold main, try_except, bind at 1 2, os_makedirs.
  rewrite Hin, Hout. reflexivity.
Qed.

End Batch.




(** * The sequence matcher *)

Section ChainB.

Context {A : Type} `{Countable A}.

Lemma indices_bounds (x : A) b : forall start j,
  j ∈ indices x b start -> (start <= j < start + length b)%nat.
Proof.
  induction b as [|y b IH]; intros start j Hj; simpl in *.
  - by apply elem_of_nil in Hj.
  - destruct (decide (y = x)).
    + apply elem_of_cons in Hj as [->|Hj]; [lia|]. apply IH in Hj. lia.
    + apply IH in Hj. lia.
Qed.

Lemma indices_lookup (x : A) b : forall start j,
  j ∈ indices x b start <-> (start <= j)%nat /\ b !! (j - start)%nat = Some x.
Proof.
  induction b as [|y b IH]; intros start j; simpl.
  - split; [intros Hj; by apply elem_of_nil in Hj|intros [_ Hj]; done].
  - destruct (decide (y = x)) as [->|Hne].
    + rewrite elem_of_cons, IH. split.
      * intros [->|[Hle Hj]].
        -- split; [lia|]. by rewrite Nat.sub_diag.
        -- split; [lia|]. by replace (j - start)%nat with (S (j - S start)) by lia.
      * intros [Hle Hj]. destruct (decide (j = start)) as [->|Hjs]; [by left|].
        right. split; [lia|].
        by replace (j - start)%nat with (S (j - S start)) in Hj by lia.
    + rewrite IH. split.
      * intros [Hle Hj]. split; [lia|].
        by replace (j - start)%nat with (S (j - S start)) by lia.
      * intros [Hle Hj]. destruct (decide (j = start)) as [->|Hjs].
        -- rewrite Nat.sub_diag in Hj. simpl in Hj. congruence.
        -- split; [lia|].
           by replace (j - start)%nat with (S (j - S start)) in Hj by lia.
Qed.

(** The positions are strictly ascending. *)
Lemma indices_sorted (x : A) b : forall start,
  StronglySorted lt (indices x b start).
Proof.
  induction b as [|y b IH]; intros start; simpl; [constructor|].
  destruct (decide (y = x)); [|apply IH].
  constructor; [apply IH|].
  apply Forall_forall. intros j Hj. apply indices_bounds in Hj. lia.
Qed.

Lemma indices_nil (x : A) b start : x ∉ b -> indices x b start = [].
Proof.
  revert start. induction b as [|y b IH]; intros start Hx; simpl; [done|].
  apply not_elem_of_cons in Hx as [Hne Hx].
  destruct (decide (y = x)); [congruence|]. by apply IH.
Qed.

(** The index that the first loop of [__chain_b] builds. *)
Lemma chain_b_index_lookup (b : list A) : forall i (m : gmap A (list nat)) x,
  chain_b_index b i m !! x
  = if decide (x ∈ b) then Some (default [] (m !! x) ++ indices x b i)
    else m !! x.
Proof.
  induction b as [|y b IH]; intros i m x; simpl.
  - destruct (decide (x ∈ [])) as [Hin|_]; [by apply elem_of_nil in Hin|done].
  - rewrite IH. destruct (decide (y = x)) as [->|Hne].
    + rewrite lookup_insert_eq. simpl.
      destruct (decide (x ∈ x :: b)) as [_|Hn];
        [|destruct Hn; apply elem_of_cons; by left].
      destruct (decide (x ∈ b)) as [Hin|Hnotin].
      * by rewrite <- app_assoc.
      * by rewrite (indices_nil x b (S i) Hnotin).
    + rewrite lookup_insert_ne by done.
      destruct (decide (x ∈ b)) as [Hin|Hnotin].
      * destruct (decide (x ∈ y :: b)) as [_|Hn]; [done|].
        destruct Hn. apply elem_of_cons. by right.
      * destruct (decide (x ∈ y :: b)) as [Hin|_]; [|done].
        apply elem_of_cons in Hin as [->|Hin]; done.
Qed.

(** Every entry of [b2j] lists all the positions of its element. *)
Lemma chain_b_lookup (b : list A) x js :
  chain_b b !! x = Some js -> js = indices x b 0 /\ x ∈ b.
Proof.
  unfold chain_b.
  assert (Hall : forall js', chain_b_index b 0 ∅ !! x = Some js' ->
                   js' = indices x b 0 /\ x ∈ b).
  { intros js'. rewrite chain_b_index_lookup.
    destruct (decide (x ∈ b)); [|by rewrite lookup_empty].
    rewrite lookup_empty. simpl. intros Hjs. by inversion Hjs. }
  destruct (200 <=? length b)%nat; [|apply Hall].
  intros Hjs. apply map_lookup_filter_Some in Hjs as [Hjs _]. by apply Hall.
Qed.

End ChainB.

Section FindLongestMatch.

Context {A : Type} `{Countable A}.
Variable m : matcher (A := A).

(** The index lists positions of [b] only. *)
Hypothesis b2j_indices :
  forall x js, b2j m !! x = Some js -> js = indices x (seq_b m) 0.

Lemma positions_same i j : j ∈ positions m i -> same_at m i j = true.
Proof.
  unfold positions, same_at. destruct (seq_a m !! i) as [x|] eqn:Ha.
  - destruct (b2j m !! x) as [js|] eqn:Hjs; simpl.
    + rewrite (b2j_indices x js Hjs). intros Hj.
      apply indices_lookup in Hj as [_ Hj]. rewrite Nat.sub_0_r in Hj.
      rewrite Hj. by apply bool_decide_eq_true.
    + intros Hj. by apply elem_of_nil in Hj.
  - intros Hj. by apply elem_of_nil in Hj.
Qed.

Lemma scan_row_sound alo ahi blo bhi i j2len js : forall best newj2len,
  (alo <= i < ahi)%nat ->
  j2len_before m alo blo bhi i j2len ->
  (forall j, j ∈ js -> same_at m i j = true) ->
  good_block m alo ahi blo bhi best ->
  j2len_sound m alo blo bhi i newj2len ->
  good_block m alo ahi blo bhi (scan_row i blo bhi j2len js best newj2len).1
  /\ j2len_sound m alo blo bhi i (scan_row i blo bhi j2len js best newj2len).2.
Proof.
  induction js as [|j js IH]; intros best newj2len Hi Hbefore Hsame Hbest Hnew;
    cbn [scan_row]; [done|].
  assert (Hrest : forall j', j' ∈ js -> same_at m i j' = true)
    by (intros j' Hj'; apply Hsame, elem_of_cons; by right).
  destruct (j <? blo)%nat eqn:Hblo; [by apply IH|].
  destruct (bhi <=? j)%nat eqn:Hbhi; [done|].
  apply Nat.ltb_ge in Hblo. apply Nat.leb_gt in Hbhi.
  assert (Hij : same_at m i j = true) by (apply Hsame, elem_of_cons; by left).
  (* the match that ends at a[i], b[j] *)
  assert (Hends : ends_match m alo blo i j (j2len_get j2len j + 1)).
  { unfold j2len_get. destruct j as [|j'].
    - split; [simpl; lia|]. intros t Ht.
      assert (t = O) as -> by (simpl in Ht; lia). by rewrite !Nat.sub_0_r.
    - destruct (j2len !! j') as [k|] eqn:Hk; simpl.
      + destruct (Hbefore j' k Hk) as (Hi' & _ & (Hk1 & Halo & Hblo') & Hsame').
        split; [lia|]. intros t Ht. destruct t as [|t]; [by rewrite !Nat.sub_0_r|].
        specialize (Hsame' t ltac:(lia)).
        replace (i - S t)%nat with (i - 1 - t)%nat by lia.
        by replace (S j' - S t)%nat with (j' - t)%nat by lia.
      + split; [lia|]. intros t Ht.
        assert (t = O) as -> by lia. by rewrite !Nat.sub_0_r. }
  set (k := (j2len_get j2len j + 1)%nat) in *.
  destruct Hends as ((Hk1 & Halo & Hblo') & Hsamek).
  apply IH; try done.
  - (* the best block *)
    destruct (best.2 <? k)%nat; [|done].
    split.
    + unfold block_in. simpl. lia.
    + simpl. intros t Ht. specialize (Hsamek (k - 1 - t)%nat ltac:(lia)).
      replace (S i - k + t)%nat with (i - (k - 1 - t))%nat by lia.
      by replace (S j - k + t)%nat with (j - (k - 1 - t))%nat by lia.
  - (* the new entry *)
    intros j0 k0. destruct (decide (j = j0)) as [<-|Hne].
    + rewrite lookup_insert_eq. intros Hk0. inversion Hk0; subst k0.
      split; [done|]. split; [lia|done].
    + rewrite lookup_insert_ne by done. apply Hnew.
Qed.

Lemma j2len_sound_before alo blo bhi i j2len :
  (alo <= i)%nat ->
  j2len_sound m alo blo bhi i j2len ->
  j2len_before m alo blo bhi (S i) j2len.
Proof.
  intros Hi Hsound j k Hk. destruct (Hsound j k Hk) as [Hj Hends].
  split; [lia|]. split; [done|]. by rewrite Nat.sub_1_r.
Qed.

Lemma scan_rows_sound alo ahi blo bhi n : forall i best j2len,
  (alo <= i)%nat -> (i + n <= ahi)%nat ->
  j2len_before m alo blo bhi i j2len ->
  good_block m alo ahi blo bhi best ->
  good_block m alo ahi blo bhi (scan_rows m blo bhi (seq i n) best j2len).
Proof.
  induction n as [|n IH]; intros i best j2len Hi Hn Hbefore Hbest;
    cbn [seq scan_rows]; [done|].
  assert (Hrow : (alo <= i < ahi)%nat) by lia.
  assert (Hsame : forall j, j ∈ positions m i -> same_at m i j = true)
    by (intros j Hj; by apply positions_same).
  assert (Hempty : j2len_sound m alo blo bhi i ∅)
    by (intros j k Hk; by rewrite lookup_empty in Hk).
  destruct (scan_row_sound alo ahi blo bhi i j2len (positions m i) best ∅
              Hrow Hbefore Hsame Hbest Hempty) as [Hbest' Hnew].
  destruct (scan_row i blo bhi j2len (positions m i) best ∅) as [best' newj2len].
  apply IH; [lia|lia| |done]. by apply j2len_sound_before.
Qed.

Lemma extend_left_sound junk alo ahi blo bhi : forall besti bestj bestsize,
  good_block m alo ahi blo bhi (besti, bestj, bestsize) ->
  good_block m alo ahi blo bhi (extend_left m junk alo blo besti bestj bestsize).
Proof.
  induction besti as [|i' IH]; intros bestj bestsize Hgood; cbn [extend_left]; [done|].
  destruct bestj as [|j']; [done|].
  destruct ((alo <? S i')%nat && (blo <? S j')%nat && junk_at m junk j' && same_at m i' j')
    eqn:Hcond; [|done].
  apply andb_prop in Hcond as [Hcond Hsame].
  apply andb_prop in Hcond as [Hcond _].
  apply andb_prop in Hcond as [Halo Hblo].
  apply Nat.ltb_lt in Halo, Hblo.
  apply IH. destruct Hgood as [(H1 & H2 & H3 & H4) Hmatch]. simpl in *.
  split; [unfold block_in; simpl; lia|].
  simpl. intros t Ht. destruct t as [|t]; [by rewrite !Nat.add_0_r|].
  specialize (Hmatch t ltac:(lia)).
  replace (i' + S t)%nat with (S i' + t)%nat by lia.
  by replace (j' + S t)%nat with (S j' + t)%nat by lia.
Qed.

Lemma extend_right_sound junk alo ahi blo bhi besti bestj n : forall bestsize,
  good_block m alo ahi blo bhi (besti, bestj, bestsize) ->
  good_block m alo ahi blo bhi
    (besti, bestj, extend_right m junk ahi bhi besti bestj bestsize n).
Proof.
  induction n as [|n IH]; intros bestsize Hgood; cbn [extend_right]; [done|].
  destruct ((besti + bestsize <? ahi)%nat && (bestj + bestsize <? bhi)%nat
            && junk_at m junk (bestj + bestsize)
            && same_at m (besti + bestsize) (bestj + bestsize)) eqn:Hcond; [|done].
  apply andb_prop in Hcond as [Hcond Hsame].
  apply andb_prop in Hcond as [Hcond _].
  apply andb_prop in Hcond as [Hahi Hbhi].
  apply Nat.ltb_lt in Hahi, Hbhi.
  apply IH. destruct Hgood as [(H1 & H2 & H3 & H4) Hmatch]. simpl in *.
  split; [unfold block_in; simpl; lia|].
  simpl. intros t Ht. destruct (decide (t = bestsize)) as [->|Hne]; [done|].
  apply Hmatch. lia.
Qed.

(** The block that [find_longest_match] returns lies inside the ranges
    it was given, and its elements agree. *)
Lemma find_longest_match_sound alo ahi blo bhi :
  (alo <= ahi)%nat -> (blo <= bhi)%nat ->
  good_block m alo ahi blo bhi (find_longest_match m alo ahi blo bhi).
Proof.
  intros Ha Hb. unfold find_longest_match.
  assert (H0 : good_block m alo ahi blo bhi
                 (scan_rows m blo bhi (seq alo (ahi - alo)) (alo, blo, O) ∅)).
  { apply scan_rows_sound; [lia|lia| |].
    - intros j k Hk. by rewrite lookup_empty in Hk.
    - split; [unfold block_in; simpl; lia|]. simpl. intros t Ht. lia. }
  destruct (scan_rows m blo bhi (seq alo (ahi - alo)) (alo, blo, O) ∅)
    as [[i0 j0] k0].
  apply (extend_left_sound false) in H0.
  destruct (extend_left m false alo blo i0 j0 k0) as [[i1 j1] k1].
  apply (extend_right_sound false _ _ _ _ _ _ (ahi - (i1 + k1))) in H0.
  set (k2 := extend_right m false ahi bhi i1 j1 k1 (ahi - (i1 + k1))) in *.
  apply (extend_left_sound true) in H0.
  destruct (extend_left m true alo blo i1 j1 k2) as [[i3 j3] k3].
  by apply (extend_right_sound true _ _ _ _ _ _ (ahi - (i3 + k3))) in H0.
Qed.

End FindLongestMatch.

Lemma matches_of_app (l1 l2 : list block) :
  matches_of (l1 ++ l2) = (matches_of l1 + matches_of l2)%nat.
Proof. induction l1 as [|x l1 IH]; simpl; [done|]. rewrite IH. lia. Qed.

Section MatchingBlocks.

Context {A : Type} `{Countable A}.
Variable m : matcher (A := A).

Hypothesis b2j_indices :
  forall x js, b2j m !! x = Some js -> js = indices x (seq_b m) 0.

Let la := length (seq_a m).
Let lb := length (seq_b m).

(** The queue loop ends within its fuel; the blocks it returns are
    inside the sequences, not empty, and their elements agree; and they
    take no more elements than [a] has, or [b]. *)
Lemma match_queue_sound fuel : forall queue blocks,
  (queue_weight queue <= fuel)%nat ->
  Forall (span_ok la lb) queue ->
  Forall (fun x => good_block m 0 la 0 lb x /\ (1 <= x.2)%nat) blocks ->
  (matches_of blocks + a_left queue <= la)%nat ->
  (matches_of blocks + b_left queue <= lb)%nat ->
  exists blocks',
    match_queue m fuel queue blocks = Some blocks'
    /\ Forall (fun x => good_block m 0 la 0 lb x /\ (1 <= x.2)%nat) blocks'
    /\ (matches_of blocks' <= la)%nat
    /\ (matches_of blocks' <= lb)%nat.
Proof.
  induction fuel as [|fuel IH]; intros queue blocks Hfuel Hq Hblocks Ha Hb.
  - destruct queue as [|[[[alo ahi] blo] bhi] queue]; simpl in *; [|lia].
    exists blocks. repeat split; [done|lia|lia].
  - destruct queue as [|[[[alo ahi] blo] bhi] queue]; cbn [match_queue].
    { simpl in *. exists blocks. repeat split; [done|lia|lia]. }
    apply Forall_cons in Hq as [Hspan Hq].
    destruct Hspan as [[Hs1 Hs2] [Hs3 Hs4]]. simpl in Hs1, Hs2, Hs3, Hs4.
    pose proof (find_longest_match_sound m b2j_indices alo ahi blo bhi Hs1 Hs3)
      as [Hin Hsame].
    destruct (find_longest_match m alo ahi blo bhi) as [[i j] k].
    destruct Hin as (Hi1 & Hi2 & Hj1 & Hj2). simpl in Hi1, Hi2, Hj1, Hj2, Hsame.
    simpl in Hfuel, Ha, Hb.
    destruct (k =? 0)%nat eqn:Hk.
    { apply IH; [lia|done|done|lia|lia]. }
    apply Nat.eqb_neq in Hk.
    apply IH.
    + destruct ((alo <? i)%nat && (blo <? j)%nat);
        destruct ((i + k <? ahi)%nat && (j + k <? bhi)%nat); simpl; lia.
    + assert (Hleft : span_ok la lb (alo, i, blo, j))
        by (unfold span_ok; simpl; lia).
      assert (Hright : span_ok la lb (i + k, ahi, j + k, bhi)%nat)
        by (unfold span_ok; simpl; lia).
      destruct ((alo <? i)%nat && (blo <? j)%nat);
        destruct ((i + k <? ahi)%nat && (j + k <? bhi)%nat);
        repeat (apply Forall_cons; split); done.
    + apply Forall_app. split; [done|].
      apply Forall_cons. split; [|constructor].
      split; [|simpl; lia].
      split; [unfold block_in; simpl; lia|simpl; exact Hsame].
    + rewrite matches_of_app. simpl.
      destruct ((alo <? i)%nat && (blo <? j)%nat);
        destruct ((i + k <? ahi)%nat && (j + k <? bhi)%nat); simpl; lia.
    + rewrite matches_of_app. simpl.
      destruct ((alo <? i)%nat && (blo <? j)%nat);
        destruct ((i + k <? ahi)%nat && (j + k <? bhi)%nat); simpl; lia.
Qed.

(** [raw_matching_blocks] never runs out of fuel. *)
Lemma raw_matching_blocks_sound :
  exists blocks,
    raw_matching_blocks m = Some blocks
    /\ Forall (fun x => good_block m 0 la 0 lb x /\ (1 <= x.2)%nat) blocks
    /\ (matches_of blocks <= la)%nat
    /\ (matches_of blocks <= lb)%nat.
Proof.
  unfold raw_matching_blocks. fold la lb.
  apply match_queue_sound.
  - simpl. lia.
  - apply Forall_cons. split; [unfold span_ok; simpl; lia|constructor].
  - constructor.
  - simpl. lia.
  - simpl. lia.
Qed.

Lemma spans_apart_inside r r' s :
  spans_apart r s -> span_inside r' r -> spans_apart r' s.
Proof.
  unfold spans_apart, span_before, span_inside.
  intros [[? ?]|[? ?]] (? & ? & ? & ?); [left|right]; lia.
Qed.

Lemma spans_apart_sym r s : spans_apart r s -> spans_apart s r.
Proof. unfold spans_apart. tauto. Qed.

Lemma spans_apart_drop (l1 l2 : list span) x :
  StronglySorted spans_apart (l1 ++ x :: l2) ->
  StronglySorted spans_apart (l1 ++ l2).
Proof.
  rewrite !StronglySorted_app, StronglySorted_cons.
  intros (H12 & H1 & Hx & H2). split; [|done].
  intros x1 x2 Hx1 Hx2. apply H12; [done|]. apply elem_of_cons. by right.
Qed.

Lemma spans_apart_drop_second (l1 l2 : list span) x y :
  StronglySorted spans_apart (l1 ++ y :: x :: l2) ->
  StronglySorted spans_apart (l1 ++ y :: l2).
Proof.
  intros Hss. rewrite (cons_middle y l1 (x :: l2)), app_assoc in Hss.
  apply spans_apart_drop in Hss. by rewrite <- app_assoc in Hss.
Qed.

(** One turn of the queue loop keeps the spans apart: the range [q]
    gives way to the block found in it and to the two ranges on the
    sides of the block. *)
Lemma spans_apart_step (B Q : list span) q sx l r :
  StronglySorted spans_apart (B ++ q :: Q) ->
  span_inside sx q -> span_inside l q -> span_inside r q ->
  span_before l sx -> span_before sx r -> span_before l r ->
  StronglySorted spans_apart ((B ++ [sx]) ++ r :: l :: Q).
Proof.
  rewrite !StronglySorted_app, !StronglySorted_cons.
  intros (HBQ & HB & HqQ & HQ) Hsx Hl Hr Hlsx Hsxr Hlr.
  assert (HBq : forall x, x ∈ B -> spans_apart x q)
    by (intros x Hx; apply HBQ; [done|apply elem_of_cons; by left]).
  assert (HBQ' : forall x y, x ∈ B -> y ∈ Q -> spans_apart x y)
    by (intros x y Hx Hy; apply HBQ; [done|apply elem_of_cons; by right]).
  rewrite Forall_forall in HqQ.
  assert (Hin : forall s y, span_inside s q -> y ∈ Q -> spans_apart s y)
    by (intros s y Hs Hy; eapply spans_apart_inside; [apply HqQ|]; done).
  assert (HinB : forall s x, span_inside s q -> x ∈ B -> spans_apart x s).
  { intros s x Hs Hx. apply spans_apart_sym.
    eapply spans_apart_inside; [apply spans_apart_sym, HBq|]; done. }
  split; [|split; [split; [|split]|split; [|split]]].
  - intros x y Hx Hy.
    apply elem_of_app in Hx as [Hx|Hx].
    + apply elem_of_cons in Hy as [->|Hy]; [by apply HinB|].
      apply elem_of_cons in Hy as [->|Hy]; [by apply HinB|by apply HBQ'].
    + apply list_elem_of_singleton in Hx as ->.
      apply elem_of_cons in Hy as [->|Hy]; [by left|].
      apply elem_of_cons in Hy as [->|Hy]; [by right|by apply Hin].
  - intros x y Hx Hy. apply list_elem_of_singleton in Hy as ->. by apply HinB.
  - done.
  - repeat constructor.
  - apply Forall_cons. split; [by right|].
    apply Forall_forall. intros y Hy. by apply Hin.
  - apply Forall_forall. intros y Hy. by apply Hin.
  - done.
Qed.

(** The blocks of the queue loop do not overlap, and any two of them
    come in the same order in [a] and in [b]. *)
Lemma match_queue_apart fuel : forall queue blocks blocks',
  Forall (span_ok la lb) queue ->
  StronglySorted spans_apart (map span_of blocks ++ queue) ->
  match_queue m fuel queue blocks = Some blocks' ->
  StronglySorted spans_apart (map span_of blocks').
Proof.
  induction fuel as [|fuel IH]; intros queue blocks blocks' Hq Hss Hrun.
  - destruct queue as [|[[[alo ahi] blo] bhi] queue]; simpl in Hrun; [|done].
    inversion Hrun; subst. by rewrite app_nil_r in Hss.
  - destruct queue as [|[[[alo ahi] blo] bhi] queue]; cbn [match_queue] in Hrun.
    { inversion Hrun; subst. by rewrite app_nil_r in Hss. }
    apply Forall_cons in Hq as [Hspan Hq].
    destruct Hspan as [[Hs1 Hs2] [Hs3 Hs4]]. simpl in Hs1, Hs2, Hs3, Hs4.
    pose proof (find_longest_match_sound m b2j_indices alo ahi blo bhi Hs1 Hs3)
      as [Hin _].
    destruct (find_longest_match m alo ahi blo bhi) as [[i j] k].
    destruct Hin as (Hi1 & Hi2 & Hj1 & Hj2). simpl in Hi1, Hi2, Hj1, Hj2.
    destruct (k =? 0)%nat eqn:Hk.
    { apply (IH queue blocks blocks' Hq); [|done].
      by apply spans_apart_drop in Hss. }
    pose proof (spans_apart_step (map span_of blocks) queue (alo, ahi, blo, bhi)
                  (span_of (i, j, k)) (alo, i, blo, j)
                  (i + k, ahi, j + k, bhi)%nat Hss) as Hstep.
    assert (Hfull : StronglySorted spans_apart
              ((map span_of blocks ++ [span_of (i, j, k)])
               ++ (i + k, ahi, j + k, bhi)%nat :: (alo, i, blo, j) :: queue)).
    { apply Hstep; unfold span_inside, span_before, span_of; simpl; lia. }
    clear Hstep.
    assert (Hleft : span_ok la lb (alo, i, blo, j))
      by (unfold span_ok; simpl; lia).
    assert (Hright : span_ok la lb (i + k, ahi, j + k, bhi)%nat)
      by (unfold span_ok; simpl; lia).
    refine (IH _ _ _ _ _ Hrun).
    + destruct ((alo <? i)%nat && (blo <? j)%nat);
        destruct ((i + k <? ahi)%nat && (j + k <? bhi)%nat);
        repeat (apply Forall_cons; split); done.
    + rewrite map_app. cbn [map]. clear Hrun.
      destruct ((alo <? i)%nat && (blo <? j)%nat).
      * destruct ((i + k <? ahi)%nat && (j + k <? bhi)%nat).
        -- exact Hfull.
        -- exact (spans_apart_drop (map span_of blocks ++ [span_of (i, j, k)])
                    ((alo, i, blo, j) :: queue) _ Hfull).
      * destruct ((i + k <? ahi)%nat && (j + k <? bhi)%nat).
        -- exact (spans_apart_drop_second _ _ _ _ Hfull).
        -- apply spans_apart_drop_second in Hfull.
           exact (spans_apart_drop (map span_of blocks ++ [span_of (i, j, k)])
                    queue _ Hfull).
Qed.

Lemma raw_matching_blocks_apart blocks :
  raw_matching_blocks m = Some blocks ->
  StronglySorted spans_apart (map span_of blocks).
Proof.
  unfold raw_matching_blocks. fold la lb.
  apply match_queue_apart.
  - apply Forall_cons. split; [unfold span_ok; simpl; lia|constructor].
  - simpl. repeat constructor.
Qed.

End MatchingBlocks.

(** ** Sorting and merging the blocks *)

Lemma Forall_insert_block (P : block -> Prop) x l :
  P x -> Forall P l -> Forall P (insert_block x l).
Proof.
  intros Hx. induction l as [|y l IH]; intros Hl; simpl.
  - by repeat constructor.
  - apply Forall_cons in Hl as [Hy Hl].
    destruct (block_leb x y); repeat (apply Forall_cons; split); auto.
Qed.

Lemma Forall_sort_blocks (P : block -> Prop) l :
  Forall P l -> Forall P (sort_blocks l).
Proof.
  induction l as [|x l IH]; intros Hl; simpl; [done|].
  apply Forall_cons in Hl as [Hx Hl]. apply Forall_insert_block; auto.
Qed.

Lemma matches_of_insert_block x l :
  matches_of (insert_block x l) = (x.2 + matches_of l)%nat.
Proof.
  induction l as [|y l IH]; simpl; [done|].
  destruct (block_leb x y); simpl; [done|]. rewrite IH. lia.
Qed.

Lemma matches_of_sort_blocks l : matches_of (sort_blocks l) = matches_of l.
Proof.
  induction l as [|x l IH]; simpl; [done|].
  by rewrite matches_of_insert_block, IH.
Qed.

Lemma block_leb_spec (x y : block) :
  block_leb x y = true
  <-> (x.1.1 < y.1.1
       \/ (x.1.1 = y.1.1 /\ (x.1.2 < y.1.2 \/ (x.1.2 = y.1.2 /\ x.2 <= y.2))))%nat.
Proof.
  destruct x as [[i1 j1] k1], y as [[i2 j2] k2]. unfold block_leb. simpl.
  rewrite !orb_true_iff, !andb_true_iff, !orb_true_iff, !andb_true_iff.
  rewrite !Nat.ltb_lt, !Nat.eqb_eq, Nat.leb_le. tauto.
Qed.

Lemma block_le_total x y : block_le x y \/ block_le y x.
Proof. unfold block_le. rewrite !block_leb_spec. lia. Qed.

Lemma block_le_trans x y z : block_le x y -> block_le y z -> block_le x z.
Proof. unfold block_le. rewrite !block_leb_spec. lia. Qed.

Lemma insert_block_sorted x l :
  StronglySorted block_le l -> StronglySorted block_le (insert_block x l).
Proof.
  induction l as [|y l IH]; intros Hl; simpl.
  - by repeat constructor.
  - apply StronglySorted_cons in Hl as [Hy Hl].
    destruct (block_leb x y) eqn:Hxy.
    + apply StronglySorted_cons. split; [|by apply StronglySorted_cons].
      apply Forall_cons. split; [done|].
      eapply Forall_impl; [exact Hy|]. intros z Hz.
      by apply (block_le_trans x y z).
    + apply StronglySorted_cons. split; [|by apply IH].
      apply Forall_insert_block; [|done].
      destruct (block_le_total x y) as [Hle|Hle]; [|done].
      unfold block_le in Hle. congruence.
Qed.

Lemma sort_blocks_sorted l : StronglySorted block_le (sort_blocks l).
Proof.
  induction l as [|x l IH]; simpl; [constructor|]. by apply insert_block_sorted.
Qed.

Lemma blocks_apart_sym x y : blocks_apart x y -> blocks_apart y x.
Proof. unfold blocks_apart. tauto. Qed.

Lemma insert_block_apart x l :
  StronglySorted blocks_apart l -> Forall (blocks_apart x) l ->
  StronglySorted blocks_apart (insert_block x l).
Proof.
  induction l as [|y l IH]; intros Hl Hx; simpl.
  - by repeat constructor.
  - apply StronglySorted_cons in Hl as [Hy Hl].
    destruct (block_leb x y).
    + apply StronglySorted_cons. split; [done|by apply StronglySorted_cons].
    + apply Forall_cons in Hx as [Hxy Hx].
      apply StronglySorted_cons. split; [|by apply IH].
      apply Forall_insert_block; [by apply blocks_apart_sym|done].
Qed.

Lemma sort_blocks_apart l :
  StronglySorted blocks_apart l -> StronglySorted blocks_apart (sort_blocks l).
Proof.
  induction l as [|x l IH]; intros Hl; simpl; [constructor|].
  apply StronglySorted_cons in Hl as [Hx Hl].
  apply insert_block_apart; [by apply IH|by apply Forall_sort_blocks].
Qed.

Lemma spans_apart_blocks l :
  StronglySorted spans_apart (map span_of l) -> StronglySorted blocks_apart l.
Proof.
  induction l as [|x l IH]; simpl; intros Hl; [constructor|].
  apply StronglySorted_cons in Hl as [Hx Hl].
  apply StronglySorted_cons. split; [|by apply IH].
  apply Forall_forall. intros y Hy.
  rewrite Forall_forall in Hx. apply (Hx (span_of y)).
  apply list_elem_of_fmap. by exists y.
Qed.

(** Sorted blocks that do not overlap and are not empty follow one
    another, in [a] and in [b]. *)
Lemma sorted_apart_before l :
  StronglySorted block_le l ->
  StronglySorted blocks_apart l ->
  Forall (fun x => (1 <= x.2)%nat) l ->
  StronglySorted block_before l.
Proof.
  induction l as [|x l IH]; intros Hle Hap Hne; [constructor|].
  apply StronglySorted_cons in Hle as [Hlex Hle].
  apply StronglySorted_cons in Hap as [Hapx Hap].
  apply Forall_cons in Hne as [Hx Hne].
  apply StronglySorted_cons. split; [|by apply IH].
  rewrite Forall_forall in *. intros y Hy.
  specialize (Hlex y Hy). specialize (Hapx y Hy). specialize (Hne y Hy).
  unfold block_le in Hlex. rewrite block_leb_spec in Hlex.
  destruct Hapx as [Hb|Hb]; [done|].
  unfold block_before in *. lia.
Qed.

Lemma StronglySorted_drop {X : Type} (R : X -> X -> Prop) (l1 l2 : list X) x :
  StronglySorted R (l1 ++ x :: l2) -> StronglySorted R (l1 ++ l2).
Proof.
  rewrite !StronglySorted_app, StronglySorted_cons.
  intros (H12 & H1 & Hx & H2). split; [|done].
  intros x1 x2 Hx1 Hx2. apply H12; [done|]. apply elem_of_cons. by right.
Qed.

Lemma matches_of_collapse rest : forall i1 j1 k1 acc,
  matches_of (collapse rest i1 j1 k1 acc)
  = (matches_of acc + k1 + matches_of rest)%nat.
Proof.
  induction rest as [|[[i2 j2] k2] rest IH]; intros i1 j1 k1 acc; cbn [collapse].
  - destruct (k1 =? 0)%nat eqn:Hk.
    + apply Nat.eqb_eq in Hk. simpl. lia.
    + rewrite matches_of_app. simpl. lia.
  - destruct ((i1 + k1 =? i2)%nat && (j1 + k1 =? j2)%nat).
    + rewrite IH. simpl. lia.
    + rewrite IH. destruct (k1 =? 0)%nat eqn:Hk.
      * apply Nat.eqb_eq in Hk. simpl. lia.
      * rewrite matches_of_app. simpl. lia.
Qed.

Section Collapse.

Context {A : Type} `{Countable A}.
Variable m : matcher (A := A).

Hypothesis b2j_indices :
  forall x js, b2j m !! x = Some js -> js = indices x (seq_b m) 0.

Let la := length (seq_a m).
Let lb := length (seq_b m).

(** Two adjacent blocks make one block. *)
Lemma good_block_merge i1 j1 k1 k2 :
  good_block m 0 la 0 lb (i1, j1, k1) ->
  good_block m 0 la 0 lb (i1 + k1, j1 + k1, k2)%nat ->
  good_block m 0 la 0 lb (i1, j1, k1 + k2)%nat.
Proof.
  intros [(_ & _ & _ & _) H1] [(_ & Ha & _ & Hb) H2]. simpl in *.
  split; [unfold block_in; simpl; lia|].
  simpl. intros t Ht. destruct (decide (t < k1)%nat) as [Hlt|Hge]; [by apply H1|].
  specialize (H2 (t - k1)%nat ltac:(lia)).
  replace (i1 + k1 + (t - k1))%nat with (i1 + t)%nat in H2 by lia.
  by replace (j1 + k1 + (t - k1))%nat with (j1 + t)%nat in H2 by lia.
Qed.

Lemma collapse_sound rest : forall i1 j1 k1 acc,
  Forall (good_block m 0 la 0 lb) (acc ++ (i1, j1, k1) :: rest) ->
  StronglySorted block_before (acc ++ (i1, j1, k1) :: rest) ->
  Forall (good_block m 0 la 0 lb) (collapse rest i1 j1 k1 acc)
  /\ StronglySorted block_before (collapse rest i1 j1 k1 acc).
Proof.
  induction rest as [|[[i2 j2] k2] rest IH]; intros i1 j1 k1 acc Hgood Hss;
    cbn [collapse].
  - destruct (k1 =? 0)%nat; [|done].
    split.
    + by apply Forall_app in Hgood as [Hacc _].
    + apply StronglySorted_drop in Hss. by rewrite app_nil_r in Hss.
  - destruct ((i1 + k1 =? i2)%nat && (j1 + k1 =? j2)%nat) eqn:Hadj.
    + apply andb_prop in Hadj as [Hi Hj].
      apply Nat.eqb_eq in Hi, Hj. subst i2 j2.
      apply IH.
      * apply Forall_app in Hgood as [Hacc Hrest].
        apply Forall_cons in Hrest as [Hcur Hrest].
        apply Forall_cons in Hrest as [Hnext Hrest].
        apply Forall_app. split; [done|].
        apply Forall_cons. split; [by apply good_block_merge|done].
      * apply StronglySorted_app in Hss as (Hcross & Hacc & Hrest).
        apply StronglySorted_cons in Hrest as [Hcur Hrest].
        apply StronglySorted_cons in Hrest as [Hnext Hrest].
        apply Forall_cons in Hcur as [_ Hcur].
        apply StronglySorted_app. split; [|split; [done|]].
        -- intros x y Hx Hy. apply elem_of_cons in Hy as [->|Hy].
           ++ assert (Hb : block_before x (i1, j1, k1))
                by (apply Hcross; [done|apply elem_of_cons; by left]).
              unfold block_before in *. simpl in *. lia.
           ++ apply Hcross; [done|]. do 2 (apply elem_of_cons; right). done.
        -- apply StronglySorted_cons. split; [|done].
           eapply Forall_impl; [exact Hnext|]. intros z Hz.
           unfold block_before in *. simpl in *. lia.
    + destruct (k1 =? 0)%nat.
      * apply IH.
        -- apply Forall_app in Hgood as [Hacc Hrest].
           apply Forall_cons in Hrest as [_ Hrest].
           apply Forall_app. by split.
        -- by apply StronglySorted_drop in Hss.
      * apply IH.
        -- by rewrite <- app_assoc.
        -- by rewrite <- app_assoc.
Qed.

(** The matching blocks: the queue loop ends, and the list that
    [get_matching_blocks] returns holds blocks inside the sequences
    whose elements agree; each block ends, in [a] and in [b], where the
    next begins or before; and the blocks take no more elements than [a]
    has, or [b]. *)
Lemma get_matching_blocks_sound :
  exists blocks,
    get_matching_blocks m = Some blocks
    /\ Forall (good_block m 0 la 0 lb) blocks
    /\ StronglySorted block_before blocks
    /\ (matches_of blocks <= la)%nat
    /\ (matches_of blocks <= lb)%nat.
Proof.
  destruct (raw_matching_blocks_sound m b2j_indices) as (raw & Hraw & Hgood & Ha & Hb).
  pose proof (raw_matching_blocks_apart m b2j_indices raw Hraw) as Hapart.
  apply spans_apart_blocks in Hapart.
  unfold get_matching_blocks. rewrite Hraw. fold la lb.
  assert (Hsorted : StronglySorted block_before (sort_blocks raw)).
  { apply sorted_apart_before.
    - apply sort_blocks_sorted.
    - by apply sort_blocks_apart.
    - apply Forall_sort_blocks. eapply Forall_impl; [exact Hgood|]. by intros x [_ ?]. }
  assert (Hsgood : Forall (good_block m 0 la 0 lb) (sort_blocks raw)).
  { apply Forall_sort_blocks. eapply Forall_impl; [exact Hgood|]. by intros x [? _]. }
  destruct (collapse_sound (sort_blocks raw) 0 0 0 []) as [Hcgood Hcsorted].
  { apply Forall_cons. split; [|done].
    split; [unfold block_in; simpl; lia|]. simpl. intros t Ht. lia. }
  { apply StronglySorted_cons. split; [|done].
    apply Forall_forall. intros x _. unfold block_before. simpl. lia. }
  eexists. split; [reflexivity|]. split; [|split].
  - apply Forall_app. split; [done|].
    apply Forall_cons. split; [|constructor].
    split; [unfold block_in; simpl; lia|]. simpl. intros t Ht. lia.
  - apply StronglySorted_app. split; [|split; [done|by repeat constructor]].
    intros x y Hx Hy. apply list_elem_of_singleton in Hy as ->.
    rewrite Forall_forall in Hcgood.
    destruct (Hcgood x Hx) as [(_ & Hxa & _ & Hxb) _].
    unfold block_before. simpl. lia.
  - rewrite matches_of_app, matches_of_collapse, matches_of_sort_blocks.
    simpl. lia.
Qed.

End Collapse.

(** ** The ratio *)

Lemma calculate_ratio_full n : (0 < n)%nat -> (calculate_ratio n (n + n) == 1)%Q.
Proof.
  intros Hn. unfold calculate_ratio.
  replace (n + n =? 0)%nat with false by (symmetry; apply Nat.eqb_neq; lia).
  rewrite Nat2Z.inj_add, inject_Z_plus. field.
  rewrite <- inject_Z_plus. change 0%Q with (inject_Z 0).
  rewrite inject_Z_injective. lia.
Qed.

(** With no more matches than either sequence has elements, the ratio
    lies between 0 and 1. *)
Lemma calculate_ratio_bounds matches la lb :
  (matches <= la)%nat -> (matches <= lb)%nat ->
  (0 <= calculate_ratio matches (la + lb) <= 1)%Q.
Proof.
  intros Ha Hb. unfold calculate_ratio.
  destruct (la + lb =? 0)%nat eqn:E; [split; discriminate|].
  apply Nat.eqb_neq in E.
  assert (Hpos : (0 < inject_Z (Z.of_nat (la + lb)))%Q).
  { change 0%Q with (inject_Z 0). rewrite <- Zlt_Qlt. lia. }
  split.
  - apply Qle_shift_div_l; [done|]. rewrite Qmult_0_l.
    change 0%Q with (inject_Z 0). change 2%Q with (inject_Z 2).
    rewrite <- inject_Z_mult, <- Zle_Qle. lia.
  - apply Qle_shift_div_r; [done|]. rewrite Qmult_1_l.
    change 2%Q with (inject_Z 2).
    rewrite <- inject_Z_mult, <- Zle_Qle. lia.
Qed.

(** ** The longest match *)

Section LongestMatch.

Context {A : Type} `{Countable A}.
Variable m : matcher (A := A).

Hypothesis b2j_indices :
  forall x js, b2j m !! x = Some js -> js = indices x (seq_b m) 0.

Lemma positions_indexed i j :
  j ∈ positions m i <-> indexed_same m i j = true.
Proof.
  unfold positions, indexed_same.
  destruct (seq_a m !! i) as [x|] eqn:Ha; [|by rewrite elem_of_nil].
  destruct (b2j m !! x) as [js|] eqn:Hjs; simpl.
  - rewrite (b2j_indices x js Hjs), indices_lookup, Nat.sub_0_r.
    split.
    + intros [_ Hb]. rewrite Hb, Hjs.
      apply andb_true_intro. split; apply bool_decide_eq_true; [done|by eauto].
    + destruct (seq_b m !! j) as [y|]; [|done].
      intros Hy. apply andb_prop in Hy as [Hxy _].
      apply bool_decide_eq_true in Hxy. subst y. split; [lia|done].
  - rewrite elem_of_nil. split; [done|].
    destruct (seq_b m !! j) as [y|]; [|done].
    intros Hy. apply andb_prop in Hy as [Hxy Hidx].
    apply bool_decide_eq_true in Hxy, Hidx. subst y.
    rewrite Hjs in Hidx. by destruct Hidx.
Qed.

Lemma positions_sorted i : StronglySorted lt (positions m i).
Proof.
  unfold positions. destruct (seq_a m !! i) as [x|]; [|constructor].
  destruct (b2j m !! x) as [js|] eqn:Hjs; simpl; [|constructor].
  rewrite (b2j_indices x js Hjs). apply indices_sorted.
Qed.

Lemma run_len_zero alo blo i j :
  indexed_same m i j = false -> run_len m alo blo i j = O.
Proof.
  intros Hij. destruct i; simpl; rewrite Hij; by rewrite andb_false_r.
Qed.

Lemma run_len_below alo blo i j : (j < blo)%nat -> run_len m alo blo i j = O.
Proof.
  intros Hj. apply Nat.leb_gt in Hj.
  destruct i; simpl; rewrite Hj; by rewrite andb_false_r.
Qed.

Lemma run_len_above alo blo i j : (i < alo)%nat -> run_len m alo blo i j = O.
Proof.
  intros Hi. apply Nat.leb_gt in Hi. destruct i; simpl; by rewrite Hi.
Qed.

Lemma run_len_step alo blo i j :
  (alo <= i)%nat -> (blo <= j)%nat -> indexed_same m i j = true ->
  run_len m alo blo i j
  = S (match j with O => O | S j' => prev_run m alo blo i j' end).
Proof.
  intros Hi Hj Hij. apply Nat.leb_le in Hi, Hj.
  destruct i as [|i']; simpl; rewrite Hi, Hj, Hij; simpl; by destruct j.
Qed.

(** What [j2len.get(j-1, 0) + 1] is, for a position [j] of [a[i]]. *)
Lemma j2len_get_run alo blo bhi i j2len j :
  j2len_exact m alo blo bhi i j2len ->
  (alo <= i)%nat -> (blo <= j < bhi)%nat -> indexed_same m i j = true ->
  (j2len_get j2len j + 1)%nat = run_len m alo blo i j.
Proof.
  intros Hexact Hi Hj Hij. rewrite run_len_step by (done || lia).
  unfold j2len_get. destruct j as [|j']; [lia|].
  rewrite (Hexact j') by lia. lia.
Qed.

(** On one and the same sequence no run is longer than the runs on the
    diagonal. *)
Lemma run_len_diagonal i : forall j,
  seq_a m = seq_b m ->
  (run_len m 0 0 i j <= run_len m 0 0 j j
   /\ run_len m 0 0 i j <= run_len m 0 0 i i)%nat.
Proof.
  induction i as [|i IH]; intros j Hab.
  - destruct (indexed_same m 0 j) eqn:Hij; [|rewrite run_len_zero by done; lia].
    assert (Hjj : indexed_same m j j = true /\ indexed_same m 0 0 = true).
    { unfold indexed_same in *. rewrite Hab in *.
      destruct (seq_b m !! 0) as [x|]; [|done].
      destruct (seq_b m !! j) as [y|]; [|done].
      apply andb_prop in Hij as [Hxy Hidx]. apply bool_decide_eq_true in Hxy. subst y.
      rewrite Hidx. by rewrite bool_decide_eq_true_2. }
    destruct Hjj as [Hjj H00].
    rewrite (run_len_step 0 0 0 j), (run_len_step 0 0 j j), (run_len_step 0 0 0 0)
      by (done || lia).
    simpl. destruct j; simpl; lia.
  - destruct (indexed_same m (S i) j) eqn:Hij; [|rewrite run_len_zero by done; lia].
    assert (Hjj : indexed_same m j j = true /\ indexed_same m (S i) (S i) = true).
    { unfold indexed_same in *. rewrite Hab in *.
      destruct (seq_b m !! S i) as [x|]; [|done].
      destruct (seq_b m !! j) as [y|]; [|done].
      apply andb_prop in Hij as [Hxy Hidx]. apply bool_decide_eq_true in Hxy. subst y.
      rewrite Hidx. by rewrite bool_decide_eq_true_2. }
    destruct Hjj as [Hjj Hii].
    rewrite (run_len_step 0 0 (S i) j), (run_len_step 0 0 j j),
      (run_len_step 0 0 (S i) (S i)) by (done || lia).
    destruct j as [|j]; [lia|]. simpl.
    destruct (IH j Hab) as [H1 H2]. destruct (IH i Hab) as [H3 H4].
    assert (Hji : (run_len m 0 0 i j <= run_len m 0 0 i i)%nat) by done.
    destruct j as [|j']; simpl in *; lia.
Qed.

Lemma indexed_same_diagonal i j :
  seq_a m = seq_b m -> indexed_same m i j = true -> indexed_same m i i = true.
Proof.
  intros Hab. unfold indexed_same. rewrite Hab.
  destruct (seq_b m !! i) as [x|]; [|done].
  destruct (seq_b m !! j) as [y|]; [|done].
  intros Hij. apply andb_prop in Hij as [Hxy Hidx].
  apply bool_decide_eq_true in Hxy. subst y.
  rewrite Hidx. by rewrite bool_decide_eq_true_2.
Qed.

(** The inner loop, exactly: when it has passed the positions below
    [c], [newj2len] holds the runs of the row [i] below [c], and the best
    block is at least as long as every run met so far; on one and the
    same sequence the best block stays on the diagonal. *)
Lemma scan_row_exact alo blo bhi i j2len js : forall c best new,
  (alo <= i)%nat ->
  j2len_exact m alo blo bhi i j2len ->
  StronglySorted lt js ->
  (forall j, j ∈ js -> (c <= j)%nat) ->
  (forall j, (c <= j)%nat -> (j ∈ js <-> indexed_same m i j = true)) ->
  (forall j, (j < c)%nat -> (j < bhi)%nat ->
     default O (new !! j) = run_len m alo blo i j) ->
  (forall j, (c <= j)%nat -> new !! j = None) ->
  (forall i' j', (blo <= j' < bhi)%nat ->
     (alo <= i' < i)%nat \/ (i' = i /\ (j' < c)%nat) ->
     (run_len m alo blo i' j' <= best.2)%nat) ->
  (same_sequences m alo blo -> best.1.1 = best.1.2) ->
  let r := scan_row i blo bhi j2len js best new in
  (forall j, (j < bhi)%nat -> default O (r.2 !! j) = run_len m alo blo i j)
  /\ (forall i' j', (blo <= j' < bhi)%nat -> (alo <= i' <= i)%nat ->
        (run_len m alo blo i' j' <= r.1.2)%nat)
  /\ (same_sequences m alo blo -> r.1.1.1 = r.1.1.2)
  /\ (best.2 <= r.1.2)%nat.
Proof.
  induction js as [|j js IH];
    intros c best new Hi Hexact Hsorted Hc Hjs Hnew Hnone Hbest Hdiag;
    cbn [scan_row].
  - (* no position is left *)
    assert (Hgap : forall j, (c <= j)%nat -> run_len m alo blo i j = O).
    { intros j Hj. apply run_len_zero.
      destruct (indexed_same m i j) eqn:E; [|done].
      apply (Hjs j Hj) in E. by apply elem_of_nil in E. }
    simpl. repeat split; [| |done|lia].
    + intros j Hj. destruct (decide (j < c)%nat); [by apply Hnew|].
      rewrite Hnone, Hgap by lia. done.
    + intros i' j' Hj' Hi'.
      destruct (decide (i' = i)) as [->|Hne]; [|apply Hbest; [done|left; lia]].
      destruct (decide (j' < c)%nat); [apply Hbest; [done|by right]|].
      rewrite Hgap by lia. lia.
  - apply StronglySorted_cons in Hsorted as [Hlt Hsorted].
    rewrite Forall_forall in Hlt.
    assert (Hcj : (c <= j)%nat) by (apply Hc, elem_of_cons; by left).
    assert (Hgap : forall j', (c <= j')%nat -> (j' < j)%nat ->
                     run_len m alo blo i j' = O).
    { intros j' Hj' Hlt'. apply run_len_zero.
      destruct (indexed_same m i j') eqn:E; [|done].
      apply (Hjs j' Hj') in E. apply elem_of_cons in E as [->|E]; [lia|].
      specialize (Hlt j' E). lia. }
    assert (Hjs' : forall j', (S j <= j')%nat ->
                     (j' ∈ js <-> indexed_same m i j' = true)).
    { intros j' Hj'. rewrite <- (Hjs j') by lia. rewrite elem_of_cons.
      split; [by right|]. intros [->|E]; [lia|done]. }
    assert (Hc' : forall j', j' ∈ js -> (S j <= j')%nat)
      by (intros j' Hj'; specialize (Hlt j' Hj'); lia).
    assert (Hij : indexed_same m i j = true)
      by (apply (Hjs j Hcj), elem_of_cons; by left).
    destruct (j <? blo)%nat eqn:Hblo.
    { (* continue *)
      apply Nat.ltb_lt in Hblo.
      apply (IH (S j) best new); try done.
      - intros j' Hj' Hbhi. destruct (decide (j' < c)%nat); [by apply Hnew|].
        rewrite Hnone by lia.
        destruct (decide (j' = j)) as [->|Hne]; [by rewrite run_len_below|].
        rewrite Hgap by lia. done.
      - intros j' Hj'. apply Hnone. lia.
      - intros i' j' Hj' [Hi'|[-> Hlt']]; [apply Hbest; [done|by left]|].
        destruct (decide (j' < c)%nat); [apply Hbest; [done|by right]|].
        rewrite Hgap by lia. lia. }
    apply Nat.ltb_ge in Hblo.
    destruct (bhi <=? j)%nat eqn:Hbhi.
    { (* break *)
      apply Nat.leb_le in Hbhi. simpl. repeat split; [| |done|lia].
      - intros j' Hj'. destruct (decide (j' < c)%nat); [by apply Hnew|].
        rewrite Hnone, Hgap by lia. done.
      - intros i' j' Hj' Hi'.
        destruct (decide (i' = i)) as [->|Hne]; [|apply Hbest; [done|left; lia]].
        destruct (decide (j' < c)%nat); [apply Hbest; [done|by right]|].
        rewrite Hgap by lia. lia. }
    apply Nat.leb_gt in Hbhi.
    (* the position counts *)
    pose proof (j2len_get_run alo blo bhi i j2len j Hexact Hi ltac:(lia) Hij) as Hk.
    set (k := (j2len_get j2len j + 1)%nat) in *.
    set (best' := if (best.2 <? k)%nat then (S i - k, S j - k, k)%nat else best).
    assert (Hgrow : (best.2 <= best'.2)%nat /\ (k <= best'.2)%nat).
    { subst best'. destruct (best.2 <? k)%nat eqn:E; simpl.
      - apply Nat.ltb_lt in E. lia.
      - apply Nat.ltb_ge in E. lia. }
    destruct Hgrow as [Hgrow Hkbest].
    destruct (IH (S j) best' (<[j := k]> new)) as (R1 & R2 & R3 & R4); try done.
    + intros j' Hj' Hbhi'. destruct (decide (j' = j)) as [->|Hne].
      * by rewrite lookup_insert_eq.
      * rewrite lookup_insert_ne by done.
        destruct (decide (j' < c)%nat); [by apply Hnew|].
        rewrite Hnone, Hgap by lia. done.
    + intros j' Hj'. rewrite lookup_insert_ne by lia. apply Hnone. lia.
    + intros i' j' Hj' [Hi'|[-> Hlt']].
      * etrans; [apply Hbest; [done|by left]|done].
      * destruct (decide (j' = j)) as [->|Hne]; [by rewrite <- Hk|].
        destruct (decide (j' < c)%nat);
          [etrans; [apply Hbest; [done|by right]|done]|].
        rewrite Hgap by lia. lia.
    + (* the diagonal *)
      intros Hsame. subst best'.
      destruct (best.2 <? k)%nat eqn:E; [|by apply Hdiag].
      apply Nat.ltb_lt in E. simpl.
      destruct Hsame as (Hab & -> & ->).
      destruct (run_len_diagonal i j Hab) as [Hjj Hii].
      destruct (Nat.lt_trichotomy i j) as [Hlt'|[->|Hgt]]; [|done|].
      * (* the position i of the same row came before *)
        assert (Hic : (i < c)%nat).
        { destruct (decide (i < c)%nat) as [|Hge]; [done|].
          assert (Hin : i ∈ j :: js).
          { apply Hjs; [lia|]. by apply (indexed_same_diagonal i j). }
          apply elem_of_cons in Hin as [->|Hin]; [lia|].
          specialize (Hlt i Hin). lia. }
        assert (Hrun : (run_len m 0 0 i i <= best.2)%nat)
          by (apply Hbest; [lia|by right]).
        lia.
      * (* the row j came before *)
        assert (Hrun : (run_len m 0 0 j j <= best.2)%nat)
          by (apply Hbest; [lia|left; lia]).
        lia.
    + repeat split; [done|done|done|lia].
Qed.

Lemma scan_rows_exact alo blo bhi n : forall i best j2len,
  (alo <= i)%nat ->
  j2len_exact m alo blo bhi i j2len ->
  (forall i' j', (blo <= j' < bhi)%nat -> (alo <= i' < i)%nat ->
     (run_len m alo blo i' j' <= best.2)%nat) ->
  (same_sequences m alo blo -> best.1.1 = best.1.2) ->
  let r := scan_rows m blo bhi (seq i n) best j2len in
  (forall i' j', (blo <= j' < bhi)%nat -> (alo <= i' < i + n)%nat ->
     (run_len m alo blo i' j' <= r.2)%nat)
  /\ (same_sequences m alo blo -> r.1.1 = r.1.2)
  /\ (best.2 <= r.2)%nat.
Proof.
  induction n as [|n IH]; intros i best j2len Hi Hexact Hbest Hdiag;
    cbn [seq scan_rows].
  - simpl. repeat split; [|done|lia].
    intros i' j' Hj' Hi'. apply Hbest; [done|lia].
  - destruct (scan_row_exact alo blo bhi i j2len (positions m i) 0 best ∅)
      as (R1 & R2 & R3 & R4); try done.
    + apply positions_sorted.
    + intros j _. lia.
    + intros j _. apply positions_indexed.
    + intros j Hj. lia.
    + intros i' j' Hj' [Hi'|[_ Hlt]]; [by apply Hbest|lia].
    + destruct (scan_row i blo bhi j2len (positions m i) best ∅) as [best' new].
      simpl in R1, R2, R3, R4.
      destruct (IH (S i) best' new) as (S1 & S2 & S3); try done.
      * lia.
      * intros i' j' Hj' Hi'. apply R2; [done|lia].
      * repeat split; [|done|lia].
        intros i' j' Hj' Hi'. apply S1; [done|lia].
Qed.

Lemma extend_left_size junk alo blo : forall besti bestj bestsize,
  (bestsize <= (extend_left m junk alo blo besti bestj bestsize).2)%nat.
Proof.
  induction besti as [|i' IH]; intros bestj bestsize; cbn [extend_left]; [done|].
  destruct bestj as [|j']; [done|].
  destruct (_ && _); [|done]. etrans; [|apply IH]. lia.
Qed.

Lemma extend_right_size junk ahi bhi besti bestj n : forall bestsize,
  (bestsize <= extend_right m junk ahi bhi besti bestj bestsize n)%nat.
Proof.
  induction n as [|n IH]; intros bestsize; cbn [extend_right]; [done|].
  destruct (_ && _); [|done]. etrans; [|apply IH]. lia.
Qed.

(** The block of [find_longest_match] is at least as long as every run
    inside the ranges. *)
Lemma find_longest_match_runs alo ahi blo bhi i j :
  (alo <= i < ahi)%nat -> (blo <= j < bhi)%nat ->
  (run_len m alo blo i j <= (find_longest_match m alo ahi blo bhi).2)%nat.
Proof.
  intros Hi Hj. unfold find_longest_match.
  destruct (scan_rows_exact alo blo bhi (ahi - alo) alo (alo, blo, O) ∅)
    as (R1 & _ & _); try done.
  - intros j' _. rewrite lookup_empty. simpl.
    unfold prev_run. destruct alo as [|alo']; [done|].
    by rewrite run_len_above by lia.
  - intros i' j' _ Hi'. lia.
  - intros (_ & -> & ->). done.
  - specialize (R1 i j Hj ltac:(lia)).
    destruct (scan_rows m blo bhi (seq alo (ahi - alo)) (alo, blo, O) ∅)
      as [[i0 j0] k0]. simpl in R1.
    pose proof (extend_left_size false alo blo i0 j0 k0) as H1.
    destruct (extend_left m false alo blo i0 j0 k0) as [[i1 j1] k1]. simpl in H1.
    pose proof (extend_right_size false ahi bhi i1 j1 (ahi - (i1 + k1)) k1) as H2.
    set (k2 := extend_right m false ahi bhi i1 j1 k1 (ahi - (i1 + k1))) in *.
    pose proof (extend_left_size true alo blo i1 j1 k2) as H3.
    destruct (extend_left m true alo blo i1 j1 k2) as [[i3 j3] k3]. simpl in H3.
    pose proof (extend_right_size true ahi bhi i3 j3 (ahi - (i3 + k3)) k3) as H4.
    simpl. lia.
Qed.

(** A block of agreeing elements that [b2j] has entries for is a run. *)
Lemma run_len_block alo blo k : forall i j,
  (alo <= i)%nat -> (blo <= j)%nat ->
  (forall t, (t < S k)%nat -> indexed_same m (i + t) (j + t) = true) ->
  (S k <= run_len m alo blo (i + k) (j + k))%nat.
Proof.
  induction k as [|k IH]; intros i j Hi Hj Hsame.
  - rewrite !Nat.add_0_r. rewrite run_len_step; [lia|done|done|].
    specialize (Hsame 0%nat ltac:(lia)). by rewrite !Nat.add_0_r in Hsame.
  - rewrite run_len_step; [|lia|lia|apply Hsame; lia].
    replace (j + S k)%nat with (S (j + k)) by lia.
    replace (i + S k)%nat with (S (i + k)) by lia. cbn [prev_run].
    apply le_n_S. apply IH; [done|done|]. intros t Ht. apply Hsame. lia.
Qed.

(** When [b2j] has an entry for every element of [b], the block that
    [find_longest_match] returns is a longest matching block of the
    ranges. *)
Lemma find_longest_match_longest alo ahi blo bhi :
  (forall j y, seq_b m !! j = Some y -> is_Some (b2j m !! y)) ->
  longest_in (seq_a m) (seq_b m) alo ahi blo bhi
    (find_longest_match m alo ahi blo bhi).
Proof.
  intros Hall [[i j] k] (Hi1 & Hi2 & Hj1 & Hj2) Hmatch. simpl in *.
  destruct k as [|k]; [lia|].
  etrans; [|apply (find_longest_match_runs alo ahi blo bhi (i + k) (j + k)); lia].
  apply run_len_block; [done|done|].
  intros t Ht. destruct (Hmatch t Ht) as (c & Ha & Hb). simpl in Ha, Hb.
  unfold indexed_same. rewrite Ha, Hb.
  apply andb_true_intro. split; apply bool_decide_eq_true; [done|by eapply Hall].
Qed.

(** *** One and the same sequence *)

Section SameSequence.

Hypothesis same : seq_a m = seq_b m.
Hypothesis no_junk : bjunk m = ∅.

Let n := length (seq_b m).

Lemma same_at_diagonal d : (d < n)%nat -> same_at m d d = true.
Proof.
  intros Hd. unfold same_at. rewrite same.
  destruct (lookup_lt_is_Some_2 (seq_b m) d Hd) as [x ->].
  by apply bool_decide_eq_true.
Qed.

Lemma junk_at_false d : (d < n)%nat -> junk_at m false d = true.
Proof.
  intros Hd. unfold junk_at, isbjunk.
  destruct (lookup_lt_is_Some_2 (seq_b m) d Hd) as [x ->].
  rewrite no_junk. by rewrite bool_decide_eq_false_2 by apply not_elem_of_empty.
Qed.

Lemma extend_left_diagonal d : forall k,
  (d <= n)%nat -> extend_left m false 0 0 d d k = (O, O, (k + d)%nat).
Proof.
  induction d as [|d IH]; intros k Hd; cbn [extend_left].
  - by rewrite Nat.add_0_r.
  - rewrite junk_at_false, same_at_diagonal by lia. simpl.
    rewrite IH by lia. f_equal. lia.
Qed.

Lemma extend_right_diagonal f : forall k,
  (k + f = n)%nat -> extend_right m false n n 0 0 k f = n.
Proof.
  induction f as [|f IH]; intros k Hk; cbn [extend_right]; [lia|].
  simpl. rewrite junk_at_false, same_at_diagonal by lia.
  replace (k <? n)%nat with true by (symmetry; apply Nat.ltb_lt; lia).
  simpl. apply IH. lia.
Qed.

(** The longest match of a sequence with itself is the whole
    sequence. *)
Lemma find_longest_match_same : find_longest_match m 0 n 0 n = (O, O, n).
Proof.
  unfold find_longest_match.
  assert (H1 : j2len_exact m 0 0 n 0 ∅)
    by (intros j _; by rewrite lookup_empty).
  assert (H2 : forall i' j', (0 <= j' < n)%nat -> (0 <= i' < 0)%nat ->
                 (run_len m 0 0 i' j' <= ((0, 0, 0) : block).2)%nat)
    by (intros i' j' _ Hi'; lia).
  assert (H3 : same_sequences m 0 0 ->
               ((0, 0, 0) : block).1.1 = ((0, 0, 0) : block).1.2) by done.
  pose proof (scan_rows_exact 0 0 n (n - 0) 0 (0, 0, 0)%nat ∅ (le_n 0) H1 H2 H3)
    as (_ & Hdiag & _).
  assert (H4 : j2len_before m 0 0 n 0 ∅)
    by (intros j k Hk; by rewrite lookup_empty in Hk).
  assert (H5 : good_block m 0 n 0 n (0, 0, 0)%nat).
  { split; [unfold block_in; simpl; lia|]. simpl. intros t Ht. lia. }
  pose proof (scan_rows_sound m b2j_indices 0 n 0 n (n - 0) 0 (0, 0, 0)%nat ∅
                (le_n 0) ltac:(lia) H4 H5) as [(_ & Hin & _ & _) _].
  destruct (scan_rows m 0 n (seq 0 (n - 0)) (0, 0, 0)%nat ∅) as [[i0 j0] k0].
  simpl in Hdiag. specialize (Hdiag (conj same (conj eq_refl eq_refl))). subst j0.
  simpl in Hin.
  rewrite extend_left_diagonal by lia.
  rewrite extend_right_diagonal by lia.
  cbn [extend_left]. by rewrite Nat.sub_diag.
Qed.

Lemma get_matching_blocks_same :
  (0 < n)%nat ->
  seq_a m = seq_b m ->
  get_matching_blocks m = Some [(O, O, n); (n, n, O)].
Proof.
  intros Hn _.
  assert (Hn0 : (n =? 0)%nat = false) by (apply Nat.eqb_neq; lia).
  assert (Hraw : raw_matching_blocks m = Some [(O, O, n)]).
  { unfold raw_matching_blocks. rewrite same. fold n.
    replace (2 * n + 1)%nat with (S (2 * n)) by lia.
    cbn [match_queue]. rewrite find_longest_match_same, Hn0.
    replace (0 + n <? n)%nat with false by (symmetry; apply Nat.ltb_ge; lia).
    cbn [Nat.ltb Nat.leb andb app].
    by destruct (2 * n)%nat. }
  unfold get_matching_blocks. rewrite Hraw, same. fold n.
  cbn [sort_blocks fold_right insert_block collapse Nat.add Nat.eqb andb].
  rewrite Hn0. reflexivity.
Qed.

Lemma ratio_same : (0 < n)%nat -> exists q, ratio m = Some q /\ (q == 1)%Q.
Proof.
  intros Hn. unfold ratio. rewrite (get_matching_blocks_same Hn same).
  rewrite same. fold n. eexists. split; [reflexivity|].
  cbn [matches_of fold_right snd]. rewrite !Nat.add_0_r.
  by apply calculate_ratio_full.
Qed.

End SameSequence.

End LongestMatch.

(** * The scorer: compare_texts *)

Section Scorer.

Lemma SequenceMatcher_indices (a b : list ascii) x js :
  b2j (SequenceMatcher a b) !! x = Some js ->
  js = indices x (seq_b (SequenceMatcher a b)) 0.
Proof. simpl. intros Hjs. by apply chain_b_lookup in Hjs as [-> _]. Qed.

(** Below 200 elements every element of [b] has its entry in [b2j]. *)
Lemma SequenceMatcher_indexed (a b : list ascii) j y :
  (length b < 200)%nat ->
  seq_b (SequenceMatcher a b) !! j = Some y ->
  is_Some (b2j (SequenceMatcher a b) !! y).
Proof.
  simpl. intros Hlen Hy. unfold chain_b.
  replace (200 <=? length b)%nat with false by (symmetry; apply Nat.leb_gt; lia).
  rewrite chain_b_index_lookup.
  destruct (decide (y ∈ b)) as [_|Hn]; [by eauto|].
  destruct Hn. apply list_elem_of_lookup. by exists j.
Qed.

Lemma chars_length_positive s : str_truthy s = true -> (0 < length (chars s))%nat.
Proof. destruct s; [done|]. simpl. lia. Qed.

Lemma lower_truthy s : str_truthy (lower s) = str_truthy s.
Proof. by destruct s. Qed.

Lemma good_block_matches {A : Type} `{Countable A} (m : matcher (A := A))
    alo ahi blo bhi x :
  good_block m alo ahi blo bhi x ->
  block_in alo ahi blo bhi x /\ block_matches (seq_a m) (seq_b m) x.
Proof.
  intros [Hin Hsame]. split; [done|]. intros t Ht.
  specialize (Hsame t Ht). unfold same_at in Hsame.
  destruct (seq_a m !! (x.1.1 + t)%nat) as [c|]; [|done].
  destruct (seq_b m !! (x.1.2 + t)%nat) as [c'|]; [|done].
  apply bool_decide_eq_true in Hsame. subst c'. by exists c.
Qed.

Lemma block_matches_take {A : Type} (a b : list A) i j k :
  take k (drop i a) = take k (drop j b) ->
  (i + k <= length a)%nat ->
  block_matches a b (i, j, k).
Proof.
  intros Heq Hlen t Ht. simpl in *.
  destruct (lookup_lt_is_Some_2 a (i + t)%nat ltac:(lia)) as [c Hc].
  exists c. split; [done|].
  rewrite <- lookup_drop, <- (lookup_take_lt _ k) by done.
  rewrite <- Heq, lookup_take_lt, lookup_drop by done. done.
Qed.

End Scorer.






(** The score of the two strings: 6/406, where a longest-first matching
    would count the 200 shared characters. *)
Example popular_score :
  compare_texts popular_reference popular_transcript = Some (6 # 406)%Q.
Proof. vm_compute. reflexivity. Qed.

(** * A run with a failing request

    The video has 130 seconds of audio, cut into three chunks; the
    request for the second chunk fails. The transcript holds the texts
    of the first and of the third chunk, it is written to the transcript
    file, and no audio file is left. *)
Example second_chunk_request_fails :
  let v := "input/talk.mp4" in
  let run := process_video_file env_second_fails v (one_video v 130) in
  result_of run = Ok (Some "part0 part2")
  /\ map snd (recognitions (events_of run))
     = [TextOutcome "part0"; RequestFailed "rate limit"; TextOutcome "part2"]
  /\ text_writes (events_of run) = [("output/talk_transcript.txt", "part0 part2")]
  /\ fs_of run
     = <["output/talk_transcript.txt" := Text "part0 part2"]> (one_video v 130).
Proof. vm_compute. repeat split. Qed.

(** * More of main.py: properties *)

(** ** extract_audio *)

(** What [extract_audio] does, case by case. *)
Lemma extract_audio_run env v ap (fs : FS) :
  extract_audio env v ap fs
  = match fs !! v with
    | Some (Video (Some d)) =>
        match audio_write env ap with
        | Written => (Ok (Some ap), <[ap := Audio d]> fs, [WriteAudio ap 0 d])
        | WriteFailed msg (Some d') =>
            (Ok None, <[ap := Audio d']> fs,
             [Print ("Error extracting audio: " ++ msg)])
        | WriteFailed msg None =>
            (Ok None, fs, [Print ("Error extracting audio: " ++ msg)])
        end
    | Some (Video None) =>
        (Ok None, fs,
         [Print ("Error extracting audio: " ++ "No audio track found in video")])
    | _ =>
        (Ok None, fs, [Print ("Error extracting audio: " ++ open_error env v)])
    end.
Proof.
  unfold extract_audio, try_except, bind, VideoFileClip, write_audiofile,
    write_clip, ret, raise, print.
  destruct (fs !! v) as [[[d|]|d|c]|]; try reflexivity.
  by destruct (audio_write env ap) as [|msg [d'|]].
Qed.

(** The failures of [extract_audio]: no file at the path of the video or
    a file that is no video, a video without an audio track, a failed
    write. *)
Lemma extract_audio_failed env v ap (fs : FS) :
  (forall d, fs !! v = Some (Video (Some d)) -> audio_write env ap <> Written) ->
  exists msg fs',
    extract_audio env v ap fs
    = (Ok None, fs', [Print ("Error extracting audio: " ++ msg)])
    /\ (fs' = fs \/ exists d, fs' = <[ap := Audio d]> fs).
Proof.
  intros Hw. rewrite extract_audio_run.
  destruct (fs !! v) as [[[d|]|d|c]|] eqn:Hv; try by eauto.
  destruct (audio_write env ap) as [|msg [d'|]] eqn:Hwrite; try by eauto 6.
  by destruct (Hw d).
Qed.


(** ** process_video_file: the ways out *)

(** The unit whose audio could not be extracted. *)
Lemma process_extraction_failed env v (fs fs1 : FS) msg :
  is_Some (fs !! v) ->
  extract_audio env v (audio_path_of v) fs
    = (Ok None, fs1, [Print ("Error extracting audio: " ++ msg)]) ->
  process_video_file env v fs
  = (Ok None, delete (audio_path_of v) fs1,
     [Print (nl ++ "Processing: " ++ os_path_basename v);
      Print "Extracting audio...";
      Print ("Error extracting audio: " ++ msg);
      Print "Failed to extract audio"]
     ++ removal fs1 (audio_path_of v)).
Proof.
  intros Hv Hextract. unfold process_video_file.
  unfold bind at 1. unfold os_path_exists at 1.
  rewrite bool_decide_eq_true_2 by done. cbn [negb].
  erewrite try_finally_run; [| |apply cleanup_run]; cycle 1.
  - apply try_except_ok.
    unfold bind, print. rewrite Hextract. simpl. reflexivity.
  - reflexivity.
Qed.

Lemma process_missing_video env v (fs : FS) :
  fs !! v = None ->
  process_video_file env v fs
  = (Ok None, fs, [Print ("Error: Video file not found: " ++ v)]).
Proof.
  intros Hv. unfold process_video_file, bind, os_path_exists, print, ret.
  rewrite bool_decide_eq_false_2; [reflexivity|].
  rewrite Hv. by intros [? ?].
Qed.

(** ** Strings *)

Section Strings.

Local Open Scope string_scope.

Lemma append_cons c (s t : string) : String c s ++ t = String c (s ++ t).
Proof. reflexivity. Qed.

Lemma append_nil_l (t : string) : EmptyString ++ t = t.
Proof. reflexivity. Qed.

Lemma append_nil_r (s : string) : s ++ EmptyString = s.
Proof. induction s as [|c s IH]; [done|]. by rewrite append_cons, IH. Qed.

Lemma append_assoc (a b c : string) : (a ++ b) ++ c = a ++ b ++ c.
Proof. induction a as [|x a IH]; [done|]. by rewrite !append_cons, IH. Qed.

Lemma append_inv_head (s a b : string) : s ++ a = s ++ b -> a = b.
Proof. apply String.app_inj. Qed.

Lemma append_length (a b : string) :
  String.length (a ++ b) = (String.length a + String.length b)%nat.
Proof. induction a as [|x a IH]; [done|]. rewrite append_cons. simpl. by rewrite IH. Qed.

Lemma prefix_append (p s : string) : String.prefix p (p ++ s) = true.
Proof.
  induction p as [|c p IH]; [by destruct s|].
  rewrite append_cons. simpl. by destruct (ascii_dec c c).
Qed.

Lemma prefix_split (p s : string) :
  String.prefix p s = true -> exists r, s = p ++ r.
Proof.
  revert s. induction p as [|c p IH]; intros s Hp.
  - by exists s.
  - destruct s as [|d s]; [done|]. simpl in Hp.
    destruct (ascii_dec c d) as [->|]; [|done].
    destruct (IH s Hp) as [r ->]. by exists r.
Qed.

Lemma mentions_append c (a b : string) :
  mentions c (a ++ b) = mentions c a || mentions c b.
Proof.
  induction a as [|x a IH]; [done|]. rewrite append_cons. simpl.
  rewrite IH. by rewrite orb_assoc.
Qed.

Lemma string_drop_append (a b : string) : string_drop (String.length a) (a ++ b) = b.
Proof. induction a as [|x a IH]; [by destruct b|]. by rewrite append_cons. Qed.

Lemma string_take_append (a b : string) : string_take (String.length a) (a ++ b) = a.
Proof.
  induction a as [|x a IH]; [by destruct b|]. rewrite append_cons. simpl.
  by rewrite IH.
Qed.

Lemma mentions_take c n : forall s,
  mentions c s = false -> mentions c (string_take n s) = false.
Proof.
  induction n as [|n IH]; intros [|d s] Hs; simpl in *; try done.
  apply orb_false_iff in Hs as [Hd Hs]. rewrite Hd. by apply IH.
Qed.

(** [rfind]: the last occurrence. *)
Lemma rfind_from_absent c s : forall i last,
  mentions c s = false -> rfind_from c i s last = last.
Proof.
  induction s as [|d s IH]; intros i last Hs; simpl in *; [done|].
  apply orb_false_iff in Hs as [Hd Hs]. rewrite Hd. by apply IH.
Qed.

Lemma rfind_from_last c pre post : forall i last,
  mentions c post = false ->
  rfind_from c i (pre ++ String c post) last = Some (i + String.length pre)%nat.
Proof.
  induction pre as [|d pre IH]; intros i last Hpost.
  - rewrite append_nil_l. simpl.
    rewrite Ascii.eqb_refl, Nat.add_0_r. by apply rfind_from_absent.
  - rewrite append_cons. simpl. rewrite IH by done. f_equal. lia.
Qed.

Lemma rfind_from_cases c s : forall i last,
  (rfind_from c i s last = last /\ mentions c s = false)
  \/ exists pre post,
       s = pre ++ String c post /\ mentions c post = false
       /\ rfind_from c i s last = Some (i + String.length pre)%nat.
Proof.
  induction s as [|d s IH]; intros i last; simpl; [by left|].
  destruct (IH (S i) (if Ascii.eqb c d then Some i else last))
    as [[Hr Hs]|(pre & post & -> & Hpost & Hr)].
  - destruct (Ascii.eqb c d) eqn:Hd.
    + apply Ascii.eqb_eq in Hd as <-. right. exists EmptyString, s.
      rewrite append_nil_l. simpl. rewrite Hr, Nat.add_0_r. done.
    + left. by rewrite Hr, Hs.
  - right. exists (String d pre), post. rewrite append_cons. simpl. rewrite Hr.
    split; [done|]. split; [done|]. f_equal. lia.
Qed.

Lemma rfind_cases (s : string) c :
  (rfind s c = None /\ mentions c s = false)
  \/ exists pre post,
       s = pre ++ String c post /\ mentions c post = false
       /\ rfind s c = Some (String.length pre).
Proof.
  unfold rfind. destruct (rfind_from_cases c s 0 None) as [?|(pre & post & ? & ? & ?)];
    [by left|]. right. by exists pre, post.
Qed.

Lemma string_drop_past (pre post : string) c :
  string_drop (S (String.length pre)) (pre ++ String c post) = post.
Proof. induction pre as [|x pre IH]; [by destruct post|]. by rewrite append_cons. Qed.

(** The base name holds no slash, and the path ends with it. *)
Lemma os_path_basename_cases (p : string) :
  mentions slash (os_path_basename p) = false
  /\ exists dir, p = dir ++ os_path_basename p.
Proof.
  unfold os_path_basename.
  destruct (rfind_cases p slash) as [[-> Hs]|(pre & post & -> & Hpost & ->)].
  - split; [done|]. by exists EmptyString.
  - rewrite string_drop_past. split; [done|].
    exists (pre ++ String slash EmptyString). by rewrite append_assoc.
Qed.

Lemma os_path_basename_of_join (dir f : string) :
  mentions slash f = false ->
  os_path_basename (dir ++ String slash f) = f.
Proof.
  intros Hf. unfold os_path_basename, rfind.
  rewrite rfind_from_last by done. simpl. apply string_drop_past.
Qed.

(** The root that [splitext] returns is the beginning of the path. *)
Lemma os_path_splitext_root (p : string) :
  exists n, (os_path_splitext p).1 = string_take n p.
Proof.
  unfold os_path_splitext.
  assert (Hall : p = string_take (String.length p) p).
  { rewrite <- (append_nil_r p) at 3. by rewrite string_take_append. }
  destruct (rfind p dot) as [k|]; [|by exists (String.length p)].
  destruct (_ && _); [by exists k|by exists (String.length p)].
Qed.

Lemma base_name_of_no_slash (v : string) : mentions slash (base_name_of v) = false.
Proof.
  unfold base_name_of.
  destruct (os_path_splitext_root (os_path_basename v)) as [n ->].
  apply mentions_take. apply os_path_basename_cases.
Qed.

Lemma startswith_slash (a b : string) :
  mentions slash a = false -> startswith b "/" = false ->
  startswith (a ++ b) "/" = false.
Proof.
  intros Ha Hb. destruct a as [|c a]; [done|].
  unfold startswith. rewrite append_cons. cbn [String.prefix].
  cbn [mentions] in Ha. apply orb_false_iff in Ha as [Hc _].
  destruct (ascii_dec "/" c) as [<-|]; [|done].
  by rewrite Ascii.eqb_refl in Hc.
Qed.

Lemma os_path_join_output (b : string) :
  startswith b "/" = false -> os_path_join "output" b = "output/" ++ b.
Proof. intros Hb. unfold os_path_join. by rewrite Hb. Qed.

Lemma os_path_join_input (b : string) :
  startswith b "/" = false -> os_path_join "input" b = "input/" ++ b.
Proof. intros Hb. unfold os_path_join. by rewrite Hb. Qed.

Lemma audio_path_of_output (v : string) :
  audio_path_of v = "output/" ++ base_name_of v ++ "_audio.wav".
Proof.
  unfold audio_path_of. apply os_path_join_output.
  apply startswith_slash; [apply base_name_of_no_slash|done].
Qed.

Lemma transcript_path_of_output (v : string) :
  transcript_path_of v = "output/" ++ base_name_of v ++ "_transcript.txt".
Proof.
  unfold transcript_path_of. apply os_path_join_output.
  apply startswith_slash; [apply base_name_of_no_slash|done].
Qed.

Lemma transcript_path_not_audio_path (v : string) :
  transcript_path_of v <> audio_path_of v.
Proof.
  rewrite transcript_path_of_output, audio_path_of_output. intros E.
  apply (append_inv_head "output/") in E. by apply append_inv_head in E.
Qed.

End Strings.

(** ** process_video_file, whole *)

(** A unit whose video is there either fails to extract the audio or
    goes on to [split_audio] on the extracted track. *)
Lemma process_video_file_cases env v (fs : FS) :
  is_Some (fs !! v) ->
  let ap := audio_path_of v in
  (exists msg fs1,
      (forall d, fs !! v = Some (Video (Some d)) -> audio_write env ap <> Written)
      /\ (fs1 = fs \/ exists d, fs1 = <[ap := Audio d]> fs)
      /\ process_video_file env v fs
         = (Ok None, delete ap fs1,
            [Print (nl ++ "Processing: " ++ os_path_basename v);
             Print "Extracting audio...";
             Print ("Error extracting audio: " ++ msg);
             Print "Failed to extract audio"]
            ++ removal fs1 ap))
  \/ (exists d chunks fs2 evs2,
        fs !! v = Some (Video (Some d))
        /\ audio_write env ap = Written
        /\ split_audio env ap 60 (<[ap := Audio d]> fs) = (Ok chunks, fs2, evs2)).
Proof.
  intros Hv ap.
  assert (Hcase :
    (exists d, fs !! v = Some (Video (Some d)) /\ audio_write env ap = Written)
    \/ (forall d, fs !! v = Some (Video (Some d)) -> audio_write env ap <> Written)).
  { destruct (fs !! v) as [[[d|]|d|c]|]; try (by right).
    destruct (audio_write env ap); [left; by exists d|by right]. }
  destruct Hcase as [(d & Hfile & Hw)|Hno].
  - right.
    destruct (split_audio_returns env ap 60 (<[ap := Audio d]> fs)) as [chunks Hres].
    destruct (split_audio env ap 60 (<[ap := Audio d]> fs))
      as [[r fs2] evs2] eqn:Hsplit.
    unfold result_of in Hres. simpl in Hres. subst r.
    by exists d, chunks, fs2, evs2.
  - left.
    destruct (extract_audio_failed env v ap fs Hno) as (msg & fs1 & Hrun & Hfs).
    exists msg, fs1. split; [exact Hno|]. split; [exact Hfs|].
    by apply process_extraction_failed.
Qed.

Lemma text_writes_extraction_events v d : text_writes (extraction_events v d) = [].
Proof. reflexivity. Qed.

(** The transcript is written by the units that return one, and by no
    other. *)
Lemma unit_text_writes env v (fs : FS) :
  text_writes (events_of (process_video_file env v fs))
  = match result_of (process_video_file env v fs) with
    | Ok (Some t) => [(transcript_path_of v, t)]
    | _ => []
    end.
Proof.
  destruct (fs !! v) as [f|] eqn:Hfile.
  2:{ by rewrite process_missing_video. }
  destruct (process_video_file_cases env v fs) as
    [(msg & fs1 & _ & _ & ->)|(d & chunks & fs2 & evs2 & Hv & Hw & Hsplit)];
    [by eauto| |].
  { unfold events_of, result_of. cbn [fst snd].
    by rewrite text_writes_app, text_writes_removal. }
  pose proof (split_audio_text_free env (audio_path_of v) 60
                (<[audio_path_of v := Audio d]> fs)) as [Hev _].
  rewrite Hsplit in Hev. unfold events_of in Hev. simpl in Hev.
  destruct chunks as [|c cs].
  - rewrite (process_split_empty env v d fs fs2 evs2 Hv Hw Hsplit).
    unfold events_of, result_of. cbn [fst snd].
    by rewrite !text_writes_app, text_writes_removal, Hev.
  - rewrite (process_transcribed env v d fs (c :: cs) fs2 evs2 Hv Hw Hsplit)
      by discriminate.
    destruct (str_truthy _); [destruct (text_write env _) as [msg|]|];
      unfold events_of, result_of; cbn [fst snd];
      rewrite !text_writes_app, text_writes_removal, Hev, text_writes_loop_events;
      reflexivity.
Qed.

(** The transcript a unit returns is not empty. *)
Lemma unit_transcript_truthy env v (fs : FS) t :
  result_of (process_video_file env v fs) = Ok (Some t) -> str_truthy t = true.
Proof.
  intros Hr.
  assert (Hsome : is_Some (fs !! v)).
  { destruct (fs !! v) as [f|] eqn:Hfile; [by eauto|].
    by rewrite process_missing_video in Hr. }
  destruct (process_video_file_cases env v fs Hsome) as
    [(msg & fs1 & _ & _ & Hrun)|(d & chunks & fs2 & evs2 & Hv & Haw & Hsplit)];
    [by rewrite Hrun in Hr|].
  destruct chunks as [|c cs].
  { by rewrite (process_split_empty env v d fs fs2 evs2 Hv Haw Hsplit) in Hr. }
  rewrite (process_transcribed env v d fs (c :: cs) fs2 evs2 Hv Haw Hsplit) in Hr
    by discriminate.
  destruct (str_truthy _) eqn:Htext; [destruct (text_write env _) as [msg|]|];
    unfold result_of in Hr; simpl in Hr; try discriminate.
  by inversion Hr; subst t.
Qed.








(** ** transcribe_audio_chunks and the chunk files *)

Lemma remove_all_lookup chunks : forall (fs : FS) q,
  remove_all chunks fs !! q = if decide (q ∈ chunks) then None else fs !! q.
Proof.
  induction chunks as [|p chunks IH]; intros fs q; simpl.
  - destruct (decide (q ∈ [])) as [Hin|_]; [|done]. by apply elem_of_nil in Hin.
  - change (fold_left (fun fs p => delete p fs) chunks (delete p fs))
      with (remove_all chunks (delete p fs)).
    rewrite IH.
    destruct (decide (q ∈ chunks)) as [Hin|Hnotin].
    + rewrite decide_True; [done|]. apply elem_of_cons. by right.
    + destruct (decide (q = p)) as [->|Hne].
      * rewrite decide_True by (apply elem_of_cons; by left).
        apply lookup_delete_eq.
      * rewrite decide_False by (rewrite elem_of_cons; intros [?|?]; done).
        by rewrite lookup_delete_ne.
Qed.


(** ** split_audio: the chunks end to end *)

Lemma tiles_from (spans : list (Q * Q)) (from from' to : Q) :
  (from == from')%Q -> tiles spans from to -> tiles spans from' to.
Proof.
  intros Heq. destruct spans as [|s rest]; simpl.
  - intros H. by rewrite <- Heq.
  - intros [H1 H2]. split; [|done]. by rewrite H1.
Qed.

(** The chunk count times the chunk duration reaches the end of the
    source. *)
Lemma chunk_count_covers (D : Q) (C : Z) :
  (0 <= D)%Q -> (0 < C)%Z ->
  (D <= inject_Z (Z.of_nat (chunk_count D C) * C))%Q.
Proof.
  intros HD HC. rewrite (chunk_count_ceiling D C HD HC).
  assert (HCq : (0 < inject_Z C)%Q)
    by (change 0%Q with (inject_Z 0); by rewrite <- Zlt_Qlt).
  rewrite inject_Z_mult.
  apply (Qle_trans _ ((D / inject_Z C) * inject_Z C)).
  - rewrite Qmult_comm, Qmult_div_r; [apply Qle_refl|].
    intros E. rewrite E in HCq. by apply Qlt_irrefl in HCq.
  - apply Qmult_le_compat_r; [apply Qle_ceiling|]. by apply Qlt_le_weak.
Qed.

Lemma chunk_spans_tile (D : Q) (C : Z) :
  (0 <= D)%Q -> (0 < C)%Z ->
  forall m k, (k + m = chunk_count D C)%nat -> (0 < m \/ k = 0)%nat ->
    tiles (map (chunk_span C D) (seq k m)) (inject_Z (Z.of_nat k * C)) D.
Proof.
  intros HD HC. induction m as [|m IH]; intros k Hk Hm.
  - destruct Hm as [Hm| ->]; [lia|]. simpl in *.
    pose proof (chunk_count_covers D C HD HC) as Hcover.
    rewrite <- Hk in Hcover. simpl in Hcover.
    apply Qle_antisym; [done|]. exact Hcover.
  - cbn [seq map tiles]. split; [reflexivity|].
    destruct m as [|m].
    + simpl. unfold chunk_span. cbn [snd].
      apply Q.min_r.
      pose proof (chunk_count_covers D C HD HC) as Hcover.
      replace (Z.of_nat k + 1)%Z with (Z.of_nat (chunk_count D C)) by lia.
      exact Hcover.
    + apply (tiles_from _ (inject_Z (Z.of_nat (S k) * C))).
      * unfold chunk_span. cbn [snd]. symmetry.
        replace (Z.of_nat k + 1)%Z with (Z.of_nat (S k)) by lia.
        apply Q.min_l. apply Qlt_le_weak.
        apply chunk_starts_inside; [done|lia].
      * apply IH; lia.
Qed.

Lemma audio_writes_chunk_events ap C D idxs :
  audio_writes (map (chunk_event ap C D) idxs)
  = map (fun i => (chunk_path_of ap i, (chunk_span C D i).1, (chunk_span C D i).2))
      idxs.
Proof. induction idxs as [|i idxs IH]; [done|]. simpl. f_equal. exact IH. Qed.

(** X7. The chunks that [split_audio] writes cover the source end to
    end: for a duration [D >= 0] and a chunk duration [C > 0], the time
    ranges written, in order, start at 0, each begins where the one
    before ends, the last ends at [D], and none is longer than [C]. No
    part of the audio is left out and none is written twice. *)
Theorem split_audio_chunks_tile_the_source :
  forall (env : Env) (audio_path : string) (C : Z) (D : Q) (fs : FS),
    fs !! audio_path = Some (Audio D) ->
    (0 <= D)%Q ->
    (0 < C)%Z ->
    writes_ok env audio_path (seq 0 (chunk_count D C)) = true ->
    let ranges :=
      map (fun w => (w.1.2, w.2))
        (audio_writes (events_of (split_audio env audio_path C fs))) in
    tiles ranges 0 D
    /\ Forall (fun r => (r.2 - r.1 <= inject_Z C)%Q) ranges.
Proof.
  intros env audio_path C D fs Hfs HD HC Hok ranges.
  assert (Hranges : ranges = map (chunk_span C D) (seq 0 (chunk_count D C))).
  { subst ranges. rewrite split_audio_of_body.
    rewrite (split_audio_body_loop env audio_path C D fs Hfs) by lia.
    unfold range, math_ceil. fold (chunk_count D C).
    rewrite split_loop_written by done.
    unfold events_of. cbn [snd]. rewrite audio_writes_chunk_events, map_map.
    apply map_ext. by intros i; destruct (chunk_span C D i). }
  rewrite Hranges. split.
  - apply (tiles_from _ (inject_Z (Z.of_nat 0 * C))); [reflexivity|].
    apply chunk_spans_tile; [done|done|lia|lia].
  - apply Forall_forall. intros r Hr.
    apply list_elem_of_fmap in Hr as (i & -> & _).
    unfold chunk_span. cbn [fst snd].
    apply (Qle_trans _ (inject_Z ((Z.of_nat i + 1) * C) - inject_Z (Z.of_nat i * C))).
    + apply Qplus_le_l. apply Q.le_min_l.
    + unfold Qminus. rewrite <- inject_Z_opp, <- inject_Z_plus, <- Zle_Qle. lia.
Qed.

Lemma split_audio_chunks_tile_the_source_witness :
  let fs : FS := {[ "output/talk_audio.wav" := Audio 130 ]} in
  tiles
    (map (fun w => (w.1.2, w.2))
       (audio_writes (events_of (split_audio env_ok "output/talk_audio.wav" 60 fs))))
    0 130.
Proof.
  intros fs.
  destruct (split_audio_chunks_tile_the_source env_ok "output/talk_audio.wav" 60 130 fs)
    as [Htiles _].
  - reflexivity.
  - unfold Qle. simpl. lia.
  - lia.
  - reflexivity.
  - exact Htiles.
Defined.

(** ** split_audio: when there is nothing to split *)

Lemma chunk_count_negative_duration (D : Q) (C : Z) :
  (0 <= D)%Q -> (C < 0)%Z -> chunk_count D C = O.
Proof.
  intros HD HC. unfold chunk_count.
  assert (Hq : (D / inject_Z C <= 0)%Q).
  { unfold Qdiv.
    assert (Hinv : (/ inject_Z C <= 0)%Q).
    { unfold Qinv, inject_Z, Qle. simpl. destruct C; simpl; lia. }
    apply (Qle_trans _ (0 * D)).
    - rewrite Qmult_comm. by apply Qmult_le_compat_r.
    - rewrite Qmult_0_l. apply Qle_refl. }
  apply Qceiling_resp_le in Hq. change (Qceiling 0) with 0%Z in Hq. lia.
Qed.

(** X8. The calls of [split_audio] that give no chunk. A path that holds
    no audio file and a chunk duration of zero make the [try] block
    raise: the result is the empty list and one line is printed. A
    negative chunk duration raises nothing: the number of chunks is not
    positive, the loop has no turn, and the empty list is returned
    without a line printed. In each case no file is written. *)
Theorem split_audio_without_chunks :
  forall (env : Env) (audio_path : string) (C : Z) (fs : FS),
    let run := split_audio env audio_path C fs in
    ((forall d, fs !! audio_path <> Some (Audio d)) ->
       run = (Ok [], fs,
              [Print ("Error splitting audio: " ++ open_error env audio_path)]))
    /\ (forall D, fs !! audio_path = Some (Audio D) ->
          (C = 0%Z ->
             run = (Ok [], fs,
                    [Print "Error splitting audio: float division by zero"]))
          /\ ((C < 0)%Z -> (0 <= D)%Q -> run = (Ok [], fs, []))).
Proof.
  intros env audio_path C fs run. subst run. split; [|intros D HD; split].
  - intros Hno. rewrite split_audio_of_body.
    by rewrite (split_audio_body_no_audio env audio_path C fs Hno).
  - intros ->. rewrite split_audio_of_body.
    by rewrite (split_audio_body_zero_division env audio_path D fs HD).
  - intros HC HD0. rewrite split_audio_of_body.
    rewrite (split_audio_body_loop env audio_path C D fs HD) by lia.
    unfold range, math_ceil. fold (chunk_count D C).
    by rewrite (chunk_count_negative_duration D C HD0 HC).
Qed.

Lemma split_audio_without_chunks_witness :
  let fs : FS := {[ "output/talk_audio.wav" := Audio 130 ]} in
  split_audio env_ok "output/talk_audio.wav" 0 fs
    = (Ok [], fs, [Print "Error splitting audio: float division by zero"])
  /\ split_audio env_ok "output/talk_audio.wav" (-60) fs = (Ok [], fs, [])
  /\ split_audio env_ok "output/none.wav" 60 fs
     = (Ok [], fs, [Print "Error splitting audio: could not open output/none.wav"]).
Proof.
  intros fs. split; [|split].
  - destruct (split_audio_without_chunks env_ok "output/talk_audio.wav" 0 fs)
      as [_ Haudio].
    destruct (Haudio 130%Q) as [Hzero _]; [reflexivity|].
    apply Hzero. reflexivity.
  - destruct (split_audio_without_chunks env_ok "output/talk_audio.wav" (-60) fs)
      as [_ Haudio].
    destruct (Haudio 130%Q) as [_ Hneg]; [reflexivity|].
    apply Hneg; [lia|]. unfold Qle. simpl. lia.
  - destruct (split_audio_without_chunks env_ok "output/none.wav" 60 fs)
      as [Hnone _].
    apply Hnone. intros d Hd. vm_compute in Hd. discriminate.
Defined.

(** ** What a unit of work touches *)

(** [split_audio] touches the chunk paths only. *)
Lemma split_loop_frame env ap C D q idxs : forall start chunks (fs : FS),
  (forall i, q <> chunk_path_of ap i) ->
  fs_of (for_each idxs start (fun _ => materialize_chunk env ap C D) chunks fs) !! q
  = fs !! q.
Proof.
  induction idxs as [|i idxs IH]; intros start chunks fs Hq; cbn [for_each].
  - reflexivity.
  - assert (Hstep : fs_of (materialize_chunk env ap C D i chunks fs) !! q = fs !! q).
    { unfold materialize_chunk, write_subclip, write_clip, bind, ret, fs_of.
      destruct (audio_write env (chunk_path_of ap i)) as [|msg [d'|]];
        cbn [fst snd]; rewrite ?lookup_insert_ne by (apply not_eq_sym, Hq); done. }
    destruct (materialize_chunk env ap C D i chunks fs) as [[[a|e] fs1] ev1] eqn:Hm.
    + erewrite bind_run by exact Hm.
      specialize (IH (S start) a fs1 Hq).
      destruct (for_each idxs (S start) _ a fs1) as [[r fs2] ev2].
      unfold fs_of in *. cbn [fst snd] in *. by rewrite IH.
    + erewrite bind_raise by exact Hm. exact Hstep.
Qed.

Lemma split_audio_frame env ap C (fs : FS) q :
  (forall i, q <> chunk_path_of ap i) ->
  fs_of (split_audio env ap C fs) !! q = fs !! q.
Proof.
  intros Hq. rewrite split_audio_of_body.
  assert (Hbody : fs_of (split_audio_body env ap C fs) !! q = fs !! q).
  { destruct (fs !! ap) as [f|] eqn:E; [destruct f as [a|D|c]|].
    2:{ destruct (decide (C = 0%Z)) as [->|HC].
        - by rewrite (split_audio_body_zero_division env ap D fs E).
        - rewrite (split_audio_body_loop env ap C D fs E HC).
          by apply split_loop_frame. }
    all: by rewrite split_audio_body_no_audio
           by (intros d'; rewrite E; discriminate). }
  by destruct (split_audio_body env ap C fs) as [[[chunks|e] fs1] ev1].
Qed.

(** ** The names of the chunk files *)

Section ChunkNames.

Local Open Scope string_scope.

Lemma all_digits_string_of_uint u : all_digits (NilEmpty.string_of_uint u) = true.
Proof. induction u; simpl; auto. Qed.

Lemma all_digits_str_of_nat n : all_digits (str_of_nat n) = true.
Proof.
  unfold str_of_nat, NilZero.string_of_uint.
  destruct (Nat.to_uint n) eqn:E; try (rewrite <- E; apply all_digits_string_of_uint).
  reflexivity.
Qed.

Lemma str_of_nat_inj n m : str_of_nat n = str_of_nat m -> n = m.
Proof.
  intros E. unfold str_of_nat in E.
  assert (Hnn : forall k, Nat.to_uint k <> Decimal.Nil).
  { intros k Hk.
    pose proof (DecimalNat.Unsigned.to_of (Nat.to_uint k)) as Hto.
    rewrite DecimalNat.Unsigned.of_to, Hk in Hto. by apply (DecimalFacts.unorm_nonnil Decimal.Nil). }
  apply DecimalNat.Unsigned.to_uint_inj.
  pose proof (NilZero.usu _ (Hnn n)) as Hn.
  pose proof (NilZero.usu _ (Hnn m)) as Hm.
  rewrite E in Hn. congruence.
Qed.

Lemma leading_digits_append (d r : string) c :
  all_digits d = true -> is_digit c = false ->
  leading_digits (d ++ String c r) = d.
Proof.
  intros Hd Hc. induction d as [|x d IH].
  - rewrite append_nil_l. simpl. by rewrite Hc.
  - rewrite append_cons. simpl in *. apply andb_prop in Hd as [Hx Hd].
    rewrite Hx. by rewrite IH.
Qed.

(** Two chunk names with different indices differ, whatever follows
    them. *)
Lemma chunk_names_differ i j (r1 r2 : string) :
  i <> j ->
  ("_chunk_" ++ str_of_nat i ++ ".wav") ++ r1
  <> ("_chunk_" ++ str_of_nat j ++ ".wav") ++ r2.
Proof.
  intros Hij E. rewrite !append_assoc in E.
  apply append_inv_head in E.
  apply (f_equal leading_digits) in E.
  change (".wav" ++ r1) with (String "." ("wav" ++ r1)) in E.
  change (".wav" ++ r2) with (String "." ("wav" ++ r2)) in E.
  rewrite !leading_digits_append in E by (apply all_digits_str_of_nat || done).
  by apply str_of_nat_inj in E.
Qed.

Lemma replace_from_absent old new s :
  contains s old = false -> replace_from old new 0 s = s.
Proof.
  induction s as [|c s IH]; [done|]. cbn [contains replace_from].
  intros Hc. apply orb_false_iff in Hc as [Hp Hc]. rewrite Hp. by rewrite IH.
Qed.

Lemma replace_from_differ old (new1 new2 : string) s :
  contains s old = true ->
  (forall r1 r2, new1 ++ r1 <> new2 ++ r2) ->
  replace_from old new1 0 s <> replace_from old new2 0 s.
Proof.
  intros Hc Hne. induction s as [|c s IH]; [done|].
  revert Hc. cbn [contains replace_from].
  destruct (String.prefix old (String c s)); cbn [orb].
  - intros _. apply Hne.
  - intros Hc E. inversion E. by apply IH.
Qed.

Lemma replace_from_changed old new s :
  contains s old = true ->
  (forall r1 r2, new ++ r1 <> old ++ r2) ->
  replace_from old new 0 s <> s.
Proof.
  intros Hc Hne. induction s as [|c s IH]; [done|].
  revert Hc. cbn [contains replace_from].
  destruct (String.prefix old (String c s)) eqn:Hp; cbn [orb].
  - intros _. apply prefix_split in Hp as [r Hr]. rewrite Hr. apply Hne.
  - intros Hc E. inversion E. by apply IH.
Qed.

Lemma contains_append_r (a b old : string) :
  contains b old = true -> contains (a ++ b) old = true.
Proof.
  intros Hb. induction a as [|c a IH]; [done|].
  rewrite append_cons. cbn [contains]. rewrite IH. apply orb_true_r.
Qed.

Lemma audio_path_of_contains_wav v : contains (audio_path_of v) ".wav" = true.
Proof.
  rewrite audio_path_of_output. rewrite <- append_assoc.
  by apply contains_append_r.
Qed.

Lemma chunk_path_of_output (x : string) i :
  chunk_path_of ("output/" ++ x) i
  = "output/" ++ str_replace x ".wav" ("_chunk_" ++ str_of_nat i ++ ".wav").
Proof. reflexivity. Qed.

Lemma under_output_prefix (q : string) :
  under_output q = true <-> exists x, q = "output/" ++ x.
Proof.
  unfold under_output, startswith. split.
  - apply prefix_split.
  - intros [x ->]. apply prefix_append.
Qed.

Lemma chunk_path_under_output ap i :
  under_output ap = true -> under_output (chunk_path_of ap i) = true.
Proof.
  intros Hap. apply under_output_prefix in Hap as [x ->].
  rewrite chunk_path_of_output. apply under_output_prefix. by eauto.
Qed.

Lemma audio_path_under_output v : under_output (audio_path_of v) = true.
Proof. rewrite audio_path_of_output. apply under_output_prefix. by eauto. Qed.

Lemma transcript_path_under_output v : under_output (transcript_path_of v) = true.
Proof. rewrite transcript_path_of_output. apply under_output_prefix. by eauto. Qed.

End ChunkNames.

(** X9. The names of the chunk files. When the audio path holds
    [.wav], the chunk paths of different indices are different paths and
    none is the audio path itself, so that no chunk overwrites another
    chunk or the source; this is the case for the audio path that
    [process_video_file] derives from any video path. When the audio
    path does not hold [.wav], [replace] changes nothing and every chunk
    path is the audio path itself. *)
Theorem chunk_paths_are_distinct_files :
  forall (audio_path : string),
    (contains audio_path ".wav" = true ->
       (forall i j, chunk_path_of audio_path i = chunk_path_of audio_path j -> i = j)
       /\ (forall i, chunk_path_of audio_path i <> audio_path))
    /\ (contains audio_path ".wav" = false ->
          forall i, chunk_path_of audio_path i = audio_path)
    /\ (forall v, contains (audio_path_of v) ".wav" = true).
Proof.
  intros audio_path. split; [|split].
  - intros Hc. split.
    + intros i j E. destruct (decide (i = j)) as [|Hij]; [done|].
      exfalso. revert E. apply replace_from_differ; [done|].
      intros r1 r2. by apply chunk_names_differ.
    + intros i. apply replace_from_changed; [done|].
      intros r1 r2 E. discriminate E.
  - intros Hc i. by apply replace_from_absent.
  - apply audio_path_of_contains_wav.
Qed.

Lemma chunk_paths_are_distinct_files_witness :
  chunk_path_of "output/talk_audio.wav" 1 <> "output/talk_audio.wav"
  /\ chunk_path_of "output/talk_audio" 1 = "output/talk_audio".
Proof.
  destruct (chunk_paths_are_distinct_files "output/talk_audio.wav") as [Hwav _].
  destruct (chunk_paths_are_distinct_files "output/talk_audio") as (_ & Hnone & _).
  split.
  - apply Hwav. reflexivity.
  - apply Hnone. reflexivity.
Defined.

(** The paths that [split_audio] returns are chunk paths. *)
Lemma split_audio_chunk_paths env ap C (fs : FS) chunks :
  result_of (split_audio env ap C fs) = Ok chunks ->
  forall p, p ∈ chunks -> exists i, p = chunk_path_of ap i.
Proof.
  intros Hres p Hp.
  pose proof (split_audio_cases env ap C fs) as Hcases.
  destruct (result_of (split_audio_body env ap C fs)) as [chunks'|e].
  - destruct Hcases as (Hres' & D & _ & Hchunks & _).
    rewrite Hres in Hres'. inversion Hres'; subst chunks'. subst chunks.
    apply list_elem_of_fmap in Hp as (i & -> & _). by exists i.
  - rewrite Hres in Hcases. inversion Hcases; subst chunks.
    by apply elem_of_nil in Hp.
Qed.

(** A unit of work changes nothing outside [output/]. *)
Lemma process_video_file_frame env v (fs : FS) :
  same_outside_output fs (fs_of (process_video_file env v fs)).
Proof.
  intros q Hq.
  assert (Hap : q <> audio_path_of v).
  { intros ->. by rewrite audio_path_under_output in Hq. }
  assert (Htp : q <> transcript_path_of v).
  { intros ->. by rewrite transcript_path_under_output in Hq. }
  assert (Hchunk : forall i, q <> chunk_path_of (audio_path_of v) i).
  { intros i ->.
    by rewrite chunk_path_under_output in Hq by apply audio_path_under_output. }
  destruct (fs !! v) as [f|] eqn:Hfile.
  2:{ by rewrite process_missing_video. }
  destruct (process_video_file_cases env v fs) as
    [(msg & fs1 & _ & Hfs1 & ->)|(d & chunks & fs2 & evs2 & Hv & Hw & Hsplit)];
    [by eauto| |].
  { unfold fs_of. cbn [fst snd]. rewrite lookup_delete_ne by done.
    destruct Hfs1 as [->|[d' ->]]; [done|]. by rewrite lookup_insert_ne. }
  assert (Hfs2 : fs2 !! q = fs !! q).
  { pose proof (split_audio_frame env (audio_path_of v) 60
                  (<[audio_path_of v := Audio d]> fs) q Hchunk) as Hframe.
    rewrite Hsplit in Hframe. unfold fs_of in Hframe. cbn [fst snd] in Hframe.
    rewrite Hframe. by rewrite lookup_insert_ne. }
  destruct chunks as [|c cs].
  - rewrite (process_split_empty env v d fs fs2 evs2 Hv Hw Hsplit).
    unfold fs_of. cbn [fst snd]. by rewrite lookup_delete_ne.
  - assert (Hnotin : q ∉ c :: cs).
    { intros Hin.
      destruct (split_audio_chunk_paths env (audio_path_of v) 60
                  (<[audio_path_of v := Audio d]> fs) (c :: cs)) with (p := q)
        as [i Hi]; [by rewrite Hsplit|done|].
      by apply (Hchunk i). }
    assert (Hfs3 : remove_all (c :: cs) fs2 !! q = fs !! q).
    { rewrite remove_all_lookup. by rewrite decide_False. }
    rewrite (process_transcribed env v d fs (c :: cs) fs2 evs2 Hv Hw Hsplit)
      by discriminate.
    destruct (str_truthy _); [destruct (text_write env _) as [msg|]|];
      unfold fs_of; cbn [fst snd]; rewrite lookup_delete_ne by done;
      rewrite ?lookup_insert_ne by done; exact Hfs3.
Qed.

(** X10. [process_video_file] changes nothing outside the directory
    [output/]: every path that does not begin with [output/] holds after
    the unit what it held before, whatever fails on the way. The three
    kinds of files a unit writes or removes, the extracted audio, the
    chunks and the transcript, all lie in [output/]; the video is read
    and left as it is. *)
Theorem process_video_file_stays_in_output :
  forall (env : Env) (v : string) (fs : FS),
    same_outside_output fs (fs_of (process_video_file env v fs))
    /\ under_output (audio_path_of v) = true
    /\ under_output (transcript_path_of v) = true
    /\ (forall i, under_output (chunk_path_of (audio_path_of v) i) = true)
    /\ (under_output v = false ->
        fs_of (process_video_file env v fs) !! v = fs !! v).
Proof.
  intros env v fs.
  split; [apply process_video_file_frame|].
  split; [apply audio_path_under_output|].
  split; [apply transcript_path_under_output|].
  split; [intros i; apply chunk_path_under_output, audio_path_under_output|].
  apply process_video_file_frame.
Qed.

Lemma process_video_file_stays_in_output_witness :
  let v := "input/talk.mp4" in
  fs_of (process_video_file env_disk_full v (one_video v 130)) !! v
  = Some (Video (Some 130%Q)).
Proof.
  intros v.
  destruct (process_video_file_stays_in_output env_disk_full v (one_video v 130))
    as (_ & _ & _ & _ & Hvideo).
  rewrite Hvideo; reflexivity.
Defined.

(** ** main, whole *)

(** [main] when a directory cannot be made or the input directory
    cannot be listed. *)
Lemma main_setup_failure env (fs : FS) msg :
  (makedirs env "input" = Some msg
   \/ (makedirs env "input" = None /\ makedirs env "output" = Some msg)
   \/ (makedirs env "input" = None /\ makedirs env "output" = None
       /\ listdir env "input" = inl msg)) ->
  main env fs = (Ok tt, fs, [Print ("An unexpected error occurred: " ++ msg)]).
Proof.
  intros [Hin|[[Hin Hout]|(Hin & Hout & Hls)]];
    unfold main, try_except, bind at 1 2 3, os_makedirs, os_listdir;
    rewrite ?Hin, ?Hout, ?Hls; reflexivity.
Qed.

(** The setup of [main] works or fails with a message. *)
Lemma main_setup_cases env :
  (exists names,
      makedirs env "input" = None /\ makedirs env "output" = None
      /\ listdir env "input" = inr names)
  \/ exists msg,
       makedirs env "input" = Some msg
       \/ (makedirs env "input" = None /\ makedirs env "output" = Some msg)
       \/ (makedirs env "input" = None /\ makedirs env "output" = None
           /\ listdir env "input" = inl msg).
Proof.
  destruct (makedirs env "input") as [msg|] eqn:Hin; [by eauto|].
  destruct (makedirs env "output") as [msg|] eqn:Hout; [by eauto 6|].
  destruct (listdir env "input") as [msg|names] eqn:Hls; [by eauto 8|by eauto 6].
Qed.

Lemma batch_units_cons env f files (fs : FS) :
  exists r fs1 evs,
    process_video_file env (os_path_join "input" f) fs = (Ok r, fs1, evs)
    /\ batch_units env (f :: files) fs = (r, fs1, evs) :: batch_units env files fs1.
Proof.
  destruct (process_video_file_returns env (os_path_join "input" f) fs) as [r Hr].
  cbn [batch_units].
  destruct (process_video_file env (os_path_join "input" f) fs) as [[r' fs1] evs].
  unfold result_of in Hr. simpl in Hr. subst r'. by exists r, fs1, evs.
Qed.

Lemma batch_frame env files : forall fs : FS,
  same_outside_output fs (batch_fs (batch_units env files fs) fs).
Proof.
  induction files as [|f files IH]; intros fs q Hq; [done|].
  destruct (batch_units_cons env f files fs) as (r & fs1 & evs & Hrun & ->).
  rewrite batch_fs_cons. cbn [fst snd]. rewrite (IH fs1 q Hq).
  pose proof (process_video_file_frame env (os_path_join "input" f) fs q Hq) as Hf.
  by rewrite Hrun in Hf.
Qed.

Lemma input_path_not_under_output f : under_output (os_path_join "input" f) = false.
Proof.
  unfold os_path_join. destruct (startswith f "/") eqn:Hf.
  - unfold startswith in Hf. apply prefix_split in Hf as [r ->]. reflexivity.
  - reflexivity.
Qed.


(** The transcripts that the units of a batch write. *)
Lemma batch_text_writes env files : forall fs : FS,
  let units := batch_units env files fs in
  length (text_writes (batch_events units)) = succeeded units
  /\ Forall (fun w => exists f,
               f ∈ files
               /\ w.1 = transcript_path_of (os_path_join "input" f)
               /\ str_truthy w.2 = true)
       (text_writes (batch_events units)).
Proof.
  induction files as [|f files IH]; intros fs units; subst units.
  - split; [done|constructor].
  - destruct (batch_units_cons env f files fs) as (r & fs1 & evs & Hrun & ->).
    destruct (IH fs1) as [IHlen IHall].
    pose proof (unit_text_writes env (os_path_join "input" f) fs) as Hw.
    rewrite Hrun in Hw. unfold events_of, result_of in Hw. cbn [fst snd] in Hw.
    unfold batch_events, succeeded in *. cbn [map concat List.filter fst snd].
    rewrite text_writes_app, Hw.
    assert (HallS : Forall (fun w => exists f0,
               f0 ∈ f :: files
               /\ w.1 = transcript_path_of (os_path_join "input" f0)
               /\ str_truthy w.2 = true)
             (text_writes (concat (map snd (batch_units env files fs1))))).
    { eapply Forall_impl; [exact IHall|]. intros w (f0 & Hf0 & Hp & Ht).
      exists f0. split; [|done]. apply elem_of_cons. by right. }
    destruct r as [t|]; cbn [opt_truthy].
    + assert (Ht : str_truthy t = true).
      { apply (unit_transcript_truthy env (os_path_join "input" f) fs).
        by rewrite Hrun. }
      rewrite Ht. cbn [length app]. split; [by rewrite IHlen|].
      apply Forall_cons. split; [|exact HallS].
      exists f. split; [apply elem_of_cons; by left|]. by split.
    + cbn [app]. by split.
Qed.



(** ** compare_texts: the ends of the scale *)

Section Tiling.

Context {A : Type}.
Variables a b : list A.

Let la := length a.
Let lb := length b.

Lemma blocks_after (x : block) rest lo_a lo_b :
  block_in lo_a la lo_b lb x ->
  Forall (block_in lo_a la lo_b lb) rest ->
  Forall (block_before x) rest ->
  Forall (block_in (x.1.1 + x.2) la (x.1.2 + x.2) lb) rest.
Proof.
  intros Hx Hin Hbefore. apply Forall_forall. intros y Hy.
  rewrite Forall_forall in Hin, Hbefore.
  specialize (Hin y Hy). specialize (Hbefore y Hy).
  unfold block_in, block_before in *. lia.
Qed.

(** Blocks in ascending order inside a range take no more elements than
    the range has. *)
Lemma sorted_blocks_sum blocks : forall lo_a lo_b,
  (lo_a <= la)%nat -> (lo_b <= lb)%nat ->
  Forall (block_in lo_a la lo_b lb) blocks ->
  StronglySorted block_before blocks ->
  (matches_of blocks + lo_a <= la /\ matches_of blocks + lo_b <= lb)%nat.
Proof.
  induction blocks as [|x rest IH]; intros lo_a lo_b Ha Hb Hin Hsorted.
  - simpl. lia.
  - apply Forall_cons in Hin as [Hx Hin].
    apply StronglySorted_inv in Hsorted as [Hsorted Hbefore].
    pose proof (blocks_after x rest lo_a lo_b Hx Hin Hbefore) as Hrest.
    destruct (IH (x.1.1 + x.2)%nat (x.1.2 + x.2)%nat) as [Hsa Hsb];
      [unfold block_in in Hx; lia|unfold block_in in Hx; lia|done|done|].
    cbn [matches_of fold_right]. fold (matches_of rest).
    unfold block_in in Hx. lia.
Qed.

(** Blocks that take every element of both ranges: the ranges agree
    element by element. *)
Lemma blocks_fill blocks : forall lo_a lo_b,
  (lo_a <= la)%nat -> (lo_b <= lb)%nat ->
  Forall (fun x => block_in lo_a la lo_b lb x /\ block_matches a b x) blocks ->
  StronglySorted block_before blocks ->
  (matches_of blocks + lo_a = la)%nat ->
  (matches_of blocks + lo_b = lb)%nat ->
  forall t, (lo_a + t < la)%nat -> a !! (lo_a + t)%nat = b !! (lo_b + t)%nat.
Proof.
  induction blocks as [|x rest IH]; intros lo_a lo_b Ha Hb Hgood Hsorted Hma Hmb t Ht.
  - simpl in Hma. lia.
  - apply Forall_cons in Hgood as [[Hx Hsame] Hgood].
    apply StronglySorted_inv in Hsorted as [Hsorted Hbefore].
    assert (Hin : Forall (block_in lo_a la lo_b lb) rest).
    { eapply Forall_impl; [exact Hgood|]. by intros y [? _]. }
    pose proof (blocks_after x rest lo_a lo_b Hx Hin Hbefore) as Hrest.
    destruct (sorted_blocks_sum rest (x.1.1 + x.2)%nat (x.1.2 + x.2)%nat)
      as [Hsa Hsb];
      [unfold block_in in Hx; lia|unfold block_in in Hx; lia|done|done|].
    cbn [matches_of fold_right] in Hma, Hmb. fold (matches_of rest) in Hma, Hmb.
    unfold block_in in Hx.
    assert (Hi : x.1.1 = lo_a) by lia.
    assert (Hj : x.1.2 = lo_b) by lia.
    destruct (decide (t < x.2)%nat) as [Hlt|Hge].
    + destruct (Hsame t Hlt) as (c & Hc1 & Hc2).
      rewrite Hi in Hc1. rewrite Hj in Hc2. by rewrite Hc1, Hc2.
    + replace (lo_a + t)%nat with ((x.1.1 + x.2) + (t - x.2))%nat by lia.
      replace (lo_b + t)%nat with ((x.1.2 + x.2) + (t - x.2))%nat by lia.
      apply (IH (x.1.1 + x.2)%nat (x.1.2 + x.2)%nat); try lia; try done.
      apply Forall_forall. intros y Hy.
      rewrite Forall_forall in Hgood, Hrest.
      split; [by apply Hrest|by apply Hgood].
Qed.

End Tiling.

(** A ratio of 1: the matches are half of the elements. *)
Lemma calculate_ratio_one matches total :
  total <> O -> (calculate_ratio matches total == 1)%Q -> (2 * matches = total)%nat.
Proof.
  intros Htotal H. unfold calculate_ratio in H.
  apply Nat.eqb_neq in Htotal. rewrite Htotal in H. apply Nat.eqb_neq in Htotal.
  assert (Hnz : ~ (inject_Z (Z.of_nat total) == 0)%Q).
  { change 0%Q with (inject_Z 0). rewrite inject_Z_injective. lia. }
  assert (Heq : (2 * inject_Z (Z.of_nat matches) == inject_Z (Z.of_nat total))%Q).
  { rewrite <- (Qmult_div_r (2 * inject_Z (Z.of_nat matches)) _ Hnz).
    rewrite H. apply Qmult_1_r. }
  change 2%Q with (inject_Z 2) in Heq.
  rewrite <- inject_Z_mult, inject_Z_injective in Heq. lia.
Qed.

Lemma calculate_ratio_zero matches total :
  total <> O -> (calculate_ratio matches total == 0)%Q <-> matches = O.
Proof.
  intros Htotal. unfold calculate_ratio.
  apply Nat.eqb_neq in Htotal. rewrite Htotal. apply Nat.eqb_neq in Htotal.
  assert (Hnz : ~ (inject_Z (Z.of_nat total) == 0)%Q).
  { change 0%Q with (inject_Z 0). rewrite inject_Z_injective. lia. }
  split.
  - intros H.
    assert (Heq : (2 * inject_Z (Z.of_nat matches) == 0)%Q).
    { rewrite <- (Qmult_div_r (2 * inject_Z (Z.of_nat matches)) _ Hnz).
      rewrite H. apply Qmult_0_r. }
    change 2%Q with (inject_Z 2) in Heq. change 0%Q with (inject_Z 0) in Heq.
    rewrite <- inject_Z_mult, inject_Z_injective in Heq. lia.
  - intros ->. change (Z.of_nat 0) with 0%Z. unfold Qdiv.
    by rewrite Qmult_0_r, Qmult_0_l.
Qed.

Lemma chars_inj (s t : string) : chars s = chars t -> s = t.
Proof.
  intros E. unfold chars in E.
  rewrite <- (string_of_list_ascii_of_string s), <- (string_of_list_ascii_of_string t).
  by rewrite E.
Qed.



Section FirstBlock.

Context {A : Type} `{Countable A}.
Variable m : matcher (A := A).

(** The queue loop only adds blocks. *)
Lemma match_queue_grows fuel : forall queue blocks blocks',
  match_queue m fuel queue blocks = Some blocks' ->
  (matches_of blocks <= matches_of blocks')%nat.
Proof.
  induction fuel as [|fuel IH]; intros queue blocks blocks' Hrun.
  - destruct queue as [|[[[alo ahi] blo] bhi] queue]; simpl in Hrun; [|done].
    by inversion Hrun.
  - destruct queue as [|[[[alo ahi] blo] bhi] queue]; cbn [match_queue] in Hrun.
    { by inversion Hrun. }
    destruct (find_longest_match m alo ahi blo bhi) as [[i j] k].
    destruct (k =? 0)%nat; [by apply IH in Hrun|].
    apply IH in Hrun. rewrite matches_of_app in Hrun. lia.
Qed.

(** The block found in the whole of the two sequences is counted. *)
Lemma first_block_counted raw :
  raw_matching_blocks m = Some raw ->
  ((find_longest_match m 0 (length (seq_a m)) 0 (length (seq_b m))).2
   <= matches_of raw)%nat.
Proof.
  unfold raw_matching_blocks.
  replace (2 * length (seq_a m) + 1)%nat with (S (2 * length (seq_a m))) by lia.
  cbn [match_queue].
  destruct (find_longest_match m 0 (length (seq_a m)) 0 (length (seq_b m)))
    as [[i j] k].
  destruct (k =? 0)%nat eqn:Hk.
  - apply Nat.eqb_eq in Hk. subst k. simpl. lia.
  - intros Hrun. apply match_queue_grows in Hrun.
    rewrite matches_of_app in Hrun. simpl in *. lia.
Qed.

Lemma get_matching_blocks_matches blocks :
  get_matching_blocks m = Some blocks ->
  exists raw, raw_matching_blocks m = Some raw /\ matches_of blocks = matches_of raw.
Proof.
  unfold get_matching_blocks.
  destruct (raw_matching_blocks m) as [raw|]; [|done].
  intros Hb. inversion Hb; subst blocks. exists raw. split; [done|].
  rewrite matches_of_app, matches_of_collapse, matches_of_sort_blocks. simpl. lia.
Qed.

End FirstBlock.

(** Blocks of agreeing elements between sequences that share no element
    are empty. *)
Lemma matches_of_disjoint {A : Type} (a b : list A) blocks :
  (forall c, c ∈ a -> c ∉ b) ->
  Forall (block_matches a b) blocks ->
  matches_of blocks = O.
Proof.
  intros Hdisj. induction 1 as [|x rest Hx _ IH]; [done|].
  cbn [matches_of fold_right]. fold (matches_of rest). rewrite IH.
  destruct x as [[i j] k]. destruct k as [|k]; [done|].
  destruct (Hx 0%nat) as (c & Ha & Hb); [simpl; lia|].
  destruct (Hdisj c); eapply list_elem_of_lookup_2; eassumption.
Qed.



(** ** The paths of a video of the input directory *)

Section InputPaths.

Local Open Scope string_scope.

Lemma startswith_absent c (s : string) :
  mentions c s = false -> startswith s (String c EmptyString) = false.
Proof.
  intros Hs. destruct s as [|d s]; [done|].
  unfold startswith. cbn [String.prefix]. cbn [mentions] in Hs.
  apply orb_false_iff in Hs as [Hd _].
  destruct (ascii_dec c d) as [->|]; [|done].
  by rewrite Ascii.eqb_refl in Hd.
Qed.

Lemma has_non_dot_append (s r : string) :
  has_non_dot (s ++ r) (String.length s) = has_non_dot s (String.length s).
Proof.
  induction s as [|c s IH]; [by destruct r|].
  rewrite append_cons. simpl. by rewrite IH.
Qed.

Lemma os_path_splitext_name (stem ext : string) :
  mentions slash stem = false ->
  mentions slash ext = false ->
  mentions dot ext = false ->
  os_path_splitext (stem ++ "." ++ ext)
  = if only_dots stem then (stem ++ "." ++ ext, EmptyString)
    else (stem, "." ++ ext).
Proof.
  intros Hstem Hext Hdot. unfold os_path_splitext, rfind.
  assert (Hslash : mentions slash (stem ++ "." ++ ext) = false).
  { rewrite mentions_append, Hstem. cbn [orb].
    change ("." ++ ext) with (String dot ext). cbn [mentions]. by rewrite Hext. }
  rewrite (rfind_from_absent slash _ 0 None Hslash).
  change ("." ++ ext) with (String dot ext).
  rewrite (rfind_from_last dot stem ext 0 None Hdot).
  cbn [Nat.add Nat.leb andb string_drop]. rewrite Nat.sub_0_r.
  rewrite has_non_dot_append. unfold only_dots.
  destruct (has_non_dot stem (String.length stem)); cbn [negb]; [|done].
  by rewrite string_take_append, string_drop_append.
Qed.

Lemma base_name_of_input (stem ext : string) :
  mentions slash stem = false ->
  mentions slash ext = false ->
  mentions dot ext = false ->
  base_name_of (os_path_join "input" (stem ++ "." ++ ext))
  = if only_dots stem then stem ++ "." ++ ext else stem.
Proof.
  intros Hstem Hext Hdot.
  assert (Hslash : mentions slash (stem ++ "." ++ ext) = false).
  { rewrite mentions_append, Hstem. cbn [orb].
    change ("." ++ ext) with (String dot ext). cbn [mentions]. by rewrite Hext. }
  rewrite os_path_join_input by (by apply (startswith_absent slash)).
  unfold base_name_of.
  change ("input/" ++ (stem ++ "." ++ ext))
    with ("input" ++ String slash (stem ++ "." ++ ext)).
  rewrite os_path_basename_of_join by done.
  rewrite os_path_splitext_name by done.
  by destruct (only_dots stem).
Qed.

End InputPaths.

(** X15. The files of a video of the input directory. For a file name
    [stem.ext] without a slash whose extension holds no further dot, the
    transcript goes to [output/stem_transcript.txt] and the extracted
    audio to [output/stem_audio.wav]: the extension plays no part, so
    two videos that differ in their extension only, as [talk.mp4] and
    [talk.MP4] do, are given the same transcript file. A name whose stem
    is empty or made of dots, as [.mp4], is kept whole as the base
    name. *)
Theorem transcript_path_of_input_video :
  forall stem ext : string,
    mentions slash stem = false ->
    mentions slash ext = false ->
    mentions dot ext = false ->
    let v := os_path_join "input" (stem ++ "." ++ ext)%string in
    (only_dots stem = false ->
       transcript_path_of v = ("output/" ++ stem ++ "_transcript.txt")%string
       /\ audio_path_of v = ("output/" ++ stem ++ "_audio.wav")%string)
    /\ (only_dots stem = true ->
          transcript_path_of v
          = ("output/" ++ (stem ++ "." ++ ext) ++ "_transcript.txt")%string).
Proof.
  intros stem ext Hstem Hext Hdot v.
  pose proof (base_name_of_input stem ext Hstem Hext Hdot) as Hbase.
  fold v in Hbase.
  split; intros Hdots; rewrite Hdots in Hbase.
  - by rewrite transcript_path_of_output, audio_path_of_output, Hbase.
  - by rewrite transcript_path_of_output, Hbase.
Qed.

Lemma transcript_path_of_input_video_witness :
  transcript_path_of (os_path_join "input" "my.talk.mp4")
    = "output/my.talk_transcript.txt"
  /\ transcript_path_of (os_path_join "input" "my.talk.MP4")
     = "output/my.talk_transcript.txt"
  /\ transcript_path_of (os_path_join "input" ".mp4") = "output/.mp4_transcript.txt".
Proof.
  destruct (transcript_path_of_input_video "my.talk" "mp4") as [H1 _];
    [reflexivity..|].
  destruct (transcript_path_of_input_video "my.talk" "MP4") as [H2 _];
    [reflexivity..|].
  destruct (transcript_path_of_input_video EmptyString "mp4") as [_ H3];
    [reflexivity..|].
  split; [apply H1; reflexivity|]. split; [apply H2; reflexivity|].
  apply H3. reflexivity.
Defined.

(** ** The videos that main selects *)

Section Selection.

Local Open Scope string_scope.

Lemma string_rev_acc_append (s acc : string) :
  string_rev_acc s acc = string_rev s ++ acc.
Proof.
  unfold string_rev. revert acc.
  induction s as [|c s IH]; intros acc; [done|]. simpl.
  rewrite (IH (String c acc)), (IH (String c EmptyString)).
  by rewrite append_assoc.
Qed.

Lemma string_rev_cons c (s : string) :
  string_rev (String c s) = string_rev s ++ String c EmptyString.
Proof. unfold string_rev at 1. simpl. apply string_rev_acc_append. Qed.

Lemma string_rev_append (a b : string) :
  string_rev (a ++ b) = string_rev b ++ string_rev a.
Proof.
  induction a as [|c a IH]; [by rewrite append_nil_l, append_nil_r|].
  rewrite append_cons, !string_rev_cons, IH. by rewrite append_assoc.
Qed.

Lemma string_rev_involutive (s : string) : string_rev (string_rev s) = s.
Proof.
  induction s as [|c s IH]; [done|].
  rewrite string_rev_cons, string_rev_append, IH. reflexivity.
Qed.

Lemma endswith_split (s p : string) :
  endswith s p = true <-> exists pre, s = pre ++ p.
Proof.
  unfold endswith. split.
  - intros Hp. apply prefix_split in Hp as [r Hr].
    exists (string_rev r).
    rewrite <- (string_rev_involutive s), Hr, string_rev_append.
    by rewrite string_rev_involutive.
  - intros [pre ->]. rewrite string_rev_append. apply prefix_append.
Qed.

Lemma lower_append (a b : string) : lower (a ++ b) = lower a ++ lower b.
Proof.
  induction a as [|c a IH]; [done|]. rewrite append_cons. simpl.
  by rewrite IH.
Qed.

Lemma lower_split (x y : string) : forall s,
  lower s = x ++ y -> exists a b, s = a ++ b /\ lower a = x /\ lower b = y.
Proof.
  induction x as [|c x IH]; intros s Hs.
  - by exists EmptyString, s.
  - destruct s as [|d s]; [done|]. rewrite append_cons in Hs. simpl in Hs.
    inversion Hs as [[Hc Hrest]].
    destruct (IH s Hrest) as (a & b & -> & Ha & Hb).
    exists (String d a), b. rewrite append_cons. simpl. by rewrite Ha, Hb.
Qed.

End Selection.

(** X16. The files that [main] takes for videos are those whose name
    ends in [.mp4] in any mix of upper and lower case: the name is a
    stem, which may be empty, followed by four characters that [lower()]
    turns into [.mp4]. Nothing else of the directory entry is looked
    at. *)
Theorem is_mp4_iff_extension :
  forall f : string,
    is_mp4 f = true
    <-> exists stem ext, f = (stem ++ ext)%string /\ lower ext = ".mp4".
Proof.
  intros f. unfold is_mp4. rewrite endswith_split. split.
  - intros [pre Hpre]. apply lower_split in Hpre as (a & b & -> & _ & Hb).
    by exists a, b.
  - intros (stem & ext & -> & Hext). exists (lower stem).
    by rewrite lower_append, Hext.
Qed.

(** ** The chunk files, one at a time *)

Lemma recognize_in_chunk_events env n s c (fs : FS) i p ans :
  Recognize i p ans ∈ chunk_events env n s c fs -> i = s.
Proof.
  unfold chunk_events, failure_print, removal. intros Hin.
  apply elem_of_cons in Hin as [Hin|Hin]; [discriminate|].
  apply elem_of_cons in Hin as [Hin|Hin]; [by inversion Hin|].
  apply elem_of_app in Hin as [Hin|Hin].
  - destruct (recognize env s c) as [text|[|msg|msg]];
      try (by apply elem_of_nil in Hin);
      apply list_elem_of_singleton in Hin; discriminate.
  - destruct (fs !! c); [|by apply elem_of_nil in Hin].
    apply list_elem_of_singleton in Hin. discriminate.
Qed.

Lemma removal_in_chunk_events env n s c (fs : FS) :
  is_Some (fs !! c) -> Remove c ∈ chunk_events env n s c fs.
Proof.
  intros [f Hf]. unfold chunk_events, removal. rewrite Hf.
  do 2 (apply elem_of_cons; right). apply elem_of_app. right.
  by apply list_elem_of_singleton.
Qed.

(** When the attempt on chunk [i] is made, the files of the chunks
    before it have been removed. *)
Lemma loop_releases_before_attempt env n chunks :
  forall start (fs : FS) pre post i p ans j q,
    loop_events env n start chunks fs = pre ++ Recognize i p ans :: post ->
    (start <= j < i)%nat ->
    chunks !! (j - start)%nat = Some q ->
    is_Some (fs !! q) ->
    Remove q ∈ pre.
Proof.
  induction chunks as [|c cs IH]; intros start fs pre post i p ans j q Hev Hj Hq Hfile;
    [done|].
  cbn [loop_events] in Hev.
  apply app_eq_app in Hev as [l [[Hhead Htail]|[Hpre Htail]]].
  - exfalso. destruct l as [|x l].
    + simpl in Htail. destruct cs as [|c' cs]; discriminate Htail.
    + inversion Htail; subst x.
      assert (Hin : Recognize i p ans ∈ chunk_events env n start c fs).
      { rewrite Hhead. apply elem_of_app. right. apply elem_of_cons. by left. }
      apply recognize_in_chunk_events in Hin. lia.
  - subst pre. apply elem_of_app.
    destruct (decide (q = c)) as [->|Hne].
    { left. by apply removal_in_chunk_events. }
    right.
    destruct (decide (j = start)) as [->|Hjs].
    { rewrite Nat.sub_diag in Hq. inversion Hq. congruence. }
    apply (IH (S start) (delete c fs) l post i p ans j q).
    + by rewrite Htail.
    + lia.
    + replace (j - start)%nat with (S (j - S start)) in Hq by lia. exact Hq.
    + by rewrite lookup_delete_ne.
Qed.



(** ** download_youtube_video *)

Lemma download_failed_before_mkdtemp tube e (dirs : gset string) printed :
  download_failed tube e None dirs printed
  = (Ok (None, None), dirs,
     printed ++ [("Error downloading YouTube video: " ++ str_exn e)%string]).
Proof. reflexivity. Qed.

Lemma download_failed_after_mkdtemp tube e d (dirs : gset string) printed :
  str_truthy d = true ->
  d ∉ dirs ->
  download_failed tube e (Some d) ({[d]} ∪ dirs) printed
  = match rmtree tube d with
    | None =>
        (Ok (None, None), dirs,
         printed ++ [("Error downloading YouTube video: " ++ str_exn e)%string])
    | Some msg =>
        (Raise (Exception msg), {[d]} ∪ dirs,
         printed ++ [("Error downloading YouTube video: " ++ str_exn e)%string])
    end.
Proof.
  intros Hd Hfresh. unfold download_failed. cbn [opt_truthy]. rewrite Hd.
  rewrite bool_decide_eq_true_2 by set_solver.
  destruct (rmtree tube d); [done|].
  f_equal. f_equal. apply set_eq. intros x.
  rewrite elem_of_difference, elem_of_union, elem_of_singleton.
  split; [intros [[?|?] ?]; done|].
  intros Hx. split; [by right|]. by intros ->.
Qed.

(** X18. [download_youtube_video] returns a path and a directory
    together or neither. When it returns them, the directory is the
    temporary directory it made, which is left for the caller. When it
    returns neither, it has printed the error as its last line, and the
    temporary directory, if it was made before the failure, has been
    removed again: the directories are those from before the call. An
    exception leaves the function only when removing the temporary
    directory raises. *)
Theorem download_youtube_video_outcomes :
  forall (format_1f : Q -> string) (tube : Tube) (url : string)
         (dirs : gset string),
    (forall d, mkdtemp tube = inr d -> str_truthy d = true /\ d ∉ dirs) ->
    let run := download_youtube_video format_1f tube url dirs in
    match run.1.1 with
    | Ok (Some path, Some d) =>
        mkdtemp tube = inr d /\ run.1.2 = {[d]} ∪ dirs
    | Ok (None, None) =>
        run.1.2 = dirs
        /\ exists msg,
             last run.2 = Some ("Error downloading YouTube video: " ++ msg)%string
    | Ok _ => False
    | Raise e =>
        exists d, mkdtemp tube = inr d /\ rmtree tube d = Some (str_exn e)
    end.
Proof.
  intros format_1f tube url dirs Hfresh run. subst run.
  unfold download_youtube_video.
  destruct (youtube tube url) as [msg|].
  { rewrite download_failed_before_mkdtemp. cbn [fst snd].
    split; [done|]. eexists. apply last_snoc. }
  destruct (best_stream tube url) as [msg|[stream|]].
  1,3: rewrite download_failed_before_mkdtemp; cbn [fst snd];
       (split; [done|]); eexists; apply last_snoc.
  destruct (mkdtemp tube) as [msg|d] eqn:Hdir.
  { rewrite download_failed_before_mkdtemp. cbn [fst snd].
    split; [done|]. eexists. apply last_snoc. }
  destruct (Hfresh d eq_refl) as [Hd Hnew].
  assert (Hfailed : forall e printed,
    match (download_failed tube e (Some d) ({[d]} ∪ dirs) printed).1.1 with
    | Ok (Some path, Some d0) =>
        @inr string string d = inr d0
        /\ (download_failed tube e (Some d) ({[d]} ∪ dirs) printed).1.2
                          = {[d0]} ∪ dirs
    | Ok (None, None) =>
        (download_failed tube e (Some d) ({[d]} ∪ dirs) printed).1.2 = dirs
        /\ exists msg,
             last (download_failed tube e (Some d) ({[d]} ∪ dirs) printed).2
             = Some ("Error downloading YouTube video: " ++ msg)%string
    | Ok _ => False
    | Raise e0 =>
        exists d0, @inr string string d = inr d0 /\ rmtree tube d0 = Some (str_exn e0)
    end).
  { intros e printed. rewrite (download_failed_after_mkdtemp tube e d dirs printed Hd Hnew).
    destruct (rmtree tube d) as [msg|] eqn:Hrm; cbn [fst snd].
    - by exists d.
    - split; [done|]. eexists. apply last_snoc. }
  destruct (title tube url) as [msg|name]; [apply Hfailed|].
  destruct (stream_download format_1f stream d) as [lines [path|e]];
    [|apply Hfailed].
  cbn [fst snd]. by split.
Qed.

Lemma download_youtube_video_outcomes_witness :
  let run := download_youtube_video (fun _ => "50.0") tube_broken
               "https://youtu.be/x" ∅ in
  run.1.1 = Ok (None, None)
  /\ run.1.2 = ∅
  /\ exists msg,
       last run.2 = Some ("Error downloading YouTube video: " ++ msg)%string.
Proof.
  intros run.
  assert (Hres : run.1.1 = Ok (None, None)) by (vm_compute; reflexivity).
  pose proof (download_youtube_video_outcomes (fun _ => "50.0") tube_broken
                "https://youtu.be/x" ∅) as Hrun.
  cbn zeta in Hrun. fold run in Hrun. rewrite Hres in Hrun.
  split; [exact Hres|]. apply Hrun.
  intros d Hd. inversion Hd; subst d. split; [reflexivity|set_solver].
Defined.

(** ** A transcript that cannot be saved *)


